(** * sync_measurements: trimming, path resolution and atomic materialisation

    A shallow embedding of [netanalysis/ooni/data/sync_measurements.py]:
    the record trimmer ([trim_measurement]), the local path resolver
    ([_make_local_path]) and the per-entry tasks ([sync_file],
    [fetch_file]) that stage a compressed file and rename it into place. *)

From Stdlib Require Import Ascii QArith Qcanon.
From stdpp Require Import numbers strings gmap fin_maps list.

Local Open Scope Z_scope.

(** ** Records as values

    A measurement is what [ujson] decodes: null, booleans, numbers,
    strings, lists and dicts.  A Python [str] is a sequence of code points;
    here every character of a [string] stands for one code point, so that
    [len(value)] is [String.length].  A dict keeps its items in insertion
    order, one binding per key. *)

#[warnings="-register-all"]
Inductive json : Type :=
  | JNone
  | JBool (b : bool)
  | JInt (z : Z)
  | JFloat (mantissa exponent : Z)
  | JStr (s : string)
  | JList (items : list json)
  | JDict (items : list (string * json)).

(** [type(value) == str and len(value) > max_string_size] *)
Definition oversized (max_string_size : Z) (value : json) : bool :=
  match value with
  | JStr s => bool_decide (max_string_size < Z.of_nat (String.length s))
  | _ => false
  end.

(** [del json_dict[key]] on the item list of a dict.  The key was read from
    the dict itself, so it is bound (no [KeyError]); the binding of the key
    goes and the other items keep their order. *)
Definition dict_del {A} (key : string) (items : list (string * A)) : list (string * A) :=
  filter (λ kv, kv.1 ≠ key) items.

(** The keys the first loop of the dict case appends to [keys_to_delete]. *)
Definition keys_to_delete {A} (big : A → bool) (items : list (string * A)) : list string :=
  (filter (λ kv, big kv.2 = true) items).*1.

(** The second loop: [for key in keys_to_delete: del json_dict[key]]. *)
Definition delete_keys {A} (keys : list string) (items : list (string * A)) : list (string * A) :=
  foldl (λ d key, dict_del key d) items keys.

(** What the two loops leave of the item list itself. *)
Definition prune {A} (big : A → bool) (items : list (string * A)) : list (string * A) :=
  delete_keys (keys_to_delete big items) items.

(** [trim_measurement] read on values: the default case returns its
    argument, the dict case trims every value that is not an oversized
    string and then deletes the marked keys, the list case trims every
    item. *)
Fixpoint trim_value (json_obj : json) (max_string_size : Z) : json :=
  match json_obj with
  | JDict json_dict =>
      let visited :=
        map (λ kv : string * json,
               if oversized max_string_size kv.2 then kv
               else (kv.1, trim_value kv.2 max_string_size)) json_dict in
      JDict (delete_keys (keys_to_delete (oversized max_string_size) json_dict) visited)
  | JList json_list =>
      JList (map (λ item, trim_value item max_string_size) json_list)
  | _ => json_obj
  end.

(** Nesting depth: scalars are at depth 0. *)
Fixpoint height (t : json) : nat :=
  match t with
  | JList items => S (max_list (height <$> items))
  | JDict items => S (max_list ((λ kv, height kv.2) <$> items))
  | _ => 0%nat
  end.

Lemma height_list_head t ts : (height t < height (JList (t :: ts)))%nat.
Proof. simpl. lia. Qed.

Lemma height_list_tail t ts : (height (JList ts) ≤ height (JList (t :: ts)))%nat.
Proof. simpl. unfold fmap. lia. Qed.

Lemma height_dict_head kt d : (height kt.2 < height (JDict (kt :: d)))%nat.
Proof. simpl. lia. Qed.

Lemma height_dict_tail kt d : (height (JDict d) ≤ height (JDict (kt :: d)))%nat.
Proof. simpl. unfold fmap. lia. Qed.

Section json_induction.
Variable P : json → Prop.
Hypothesis Hnone : P JNone.
Hypothesis Hbool : ∀ b, P (JBool b).
Hypothesis Hint : ∀ z, P (JInt z).
Hypothesis Hfloat : ∀ m e, P (JFloat m e).
Hypothesis Hstr : ∀ s, P (JStr s).
Hypothesis Hlist : ∀ items, Forall P items → P (JList items).
Hypothesis Hdict : ∀ items, Forall (λ kv, P kv.2) items → P (JDict items).

Fixpoint json_nested_ind (t : json) : P t :=
  match t with
  | JNone => Hnone
  | JBool b => Hbool b
  | JInt z => Hint z
  | JFloat m e => Hfloat m e
  | JStr s => Hstr s
  | JList items =>
      Hlist items
        ((fix go (l : list json) : Forall P l :=
            match l with
            | [] => Forall_nil_2 P
            | x :: l' => Forall_cons_2 P x l' (json_nested_ind x) (go l')
            end) items)
  | JDict items =>
      Hdict items
        ((fix go (l : list (string * json)) : Forall (λ kv, P kv.2) l :=
            match l with
            | [] => Forall_nil_2 _
            | kv :: l' => Forall_cons_2 (λ kv, P kv.2) kv l' (json_nested_ind kv.2) (go l')
            end) items)
  end.
End json_induction.

(** ** Pruning lemmas *)

Lemma delete_keys_filter {A} (keys : list string) (items : list (string * A)) :
  delete_keys keys items = filter (λ kv, kv.1 ∉ keys) items.
Proof.
  unfold delete_keys. revert items.
  induction keys as [|k keys IH]; intros items; simpl.
  - induction items as [|kv items IHi]; [done|].
    rewrite filter_cons_True by apply not_elem_of_nil. by f_equal.
  - rewrite IH. unfold dict_del. rewrite list_filter_filter.
    apply list_filter_iff. intros kv. rewrite not_elem_of_cons. tauto.
Qed.

Lemma elem_of_keys_to_delete {A} (big : A → bool) (items : list (string * A)) k :
  k ∈ keys_to_delete big items ↔ ∃ v, (k, v) ∈ items ∧ big v = true.
Proof.
  unfold keys_to_delete. rewrite list_elem_of_fmap. split.
  - intros [[k' v] [-> Hin]]. apply list_elem_of_filter in Hin as [Hbig Hin].
    exists v. done.
  - intros [v [Hin Hbig]]. exists (k, v). split; [done|].
    apply list_elem_of_filter. done.
Qed.

Lemma keys_to_delete_cons_big {A} (big : A → bool) k v (items : list (string * A)) :
  big v = true → keys_to_delete big ((k, v) :: items) = k :: keys_to_delete big items.
Proof. intros Hv. unfold keys_to_delete. by rewrite filter_cons_True. Qed.

Lemma keys_to_delete_cons_small {A} (big : A → bool) k v (items : list (string * A)) :
  big v = false → keys_to_delete big ((k, v) :: items) = keys_to_delete big items.
Proof.
  intros Hv. unfold keys_to_delete. rewrite filter_cons_False; [done|].
  simpl. congruence.
Qed.

Lemma keys_to_delete_none {A} (big : A → bool) (items : list (string * A)) :
  Forall (λ kv, big kv.2 = false) items → keys_to_delete big items = [].
Proof.
  unfold keys_to_delete. induction 1 as [|kv items Hkv _ IH]; [done|].
  rewrite filter_cons_False by congruence. done.
Qed.

Lemma prune_filter {A} (big : A → bool) (items : list (string * A)) :
  prune big items = filter (λ kv, kv.1 ∉ keys_to_delete big items) items.
Proof. apply delete_keys_filter. Qed.

Lemma prune_small {A} (big : A → bool) (items : list (string * A)) :
  Forall (λ kv, big kv.2 = false) (prune big items).
Proof.
  rewrite prune_filter. apply Forall_forall. intros [k v] Hin.
  apply list_elem_of_filter in Hin as [Hk Hin]. simpl in *.
  destruct (big v) eqn:Hbig; [|done].
  destruct Hk. apply elem_of_keys_to_delete. eauto.
Qed.

Lemma prune_id {A} (big : A → bool) (items : list (string * A)) :
  Forall (λ kv, big kv.2 = false) items → prune big items = items.
Proof. intros H. unfold prune. by rewrite keys_to_delete_none. Qed.

Lemma prune_idemp {A} (big : A → bool) (items : list (string * A)) :
  prune big (prune big items) = prune big items.
Proof. apply prune_id, prune_small. Qed.

Lemma filter_ext_elem {A} (P Q : A → Prop) `{∀ x, Decision (P x)} `{∀ x, Decision (Q x)}
    (l : list A) :
  (∀ x, x ∈ l → P x ↔ Q x) → filter P l = filter Q l.
Proof.
  induction l as [|x l IH]; intros Hpq; [done|].
  rewrite !filter_cons.
  destruct (decide (P x)) as [Hp|Hp], (decide (Q x)) as [Hq|Hq].
  - f_equal. apply IH. intros y Hy. apply Hpq. by right.
  - destruct Hq. apply Hpq; [by left|done].
  - destruct Hp. apply Hpq; [by left|done].
  - apply IH. intros y Hy. apply Hpq. by right.
Qed.

Lemma NoDup_fst_functional {A} (items : list (string * A)) k v1 v2 :
  NoDup items.*1 → (k, v1) ∈ items → (k, v2) ∈ items → v1 = v2.
Proof.
  induction items as [|[k' v'] items IH]; simpl; intros Hnd H1 H2.
  - by apply elem_of_nil in H1.
  - apply NoDup_cons in Hnd as [Hk Hnd].
    apply elem_of_cons in H1 as [H1|H1], H2 as [H2|H2]; simplify_eq; auto.
    + destruct Hk. apply list_elem_of_fmap. eexists (_, _). split; [|eassumption]. done.
    + destruct Hk. apply list_elem_of_fmap. eexists (_, _). split; [|eassumption]. done.
Qed.

Lemma Forall_prune {A} (P : string * A → Prop) (big : A → bool) items :
  Forall P items → Forall P (prune big items).
Proof.
  rewrite prune_filter, !Forall_forall. intros HP kv Hin.
  apply list_elem_of_filter in Hin as [_ Hin]. auto.
Qed.

(** With one binding per key, the keys that go are exactly those bound to
    a big value. *)
Lemma prune_NoDup {A} (big : A → bool) (items : list (string * A)) :
  NoDup items.*1 → prune big items = filter (λ kv, big kv.2 = false) items.
Proof.
  intros Hnd. rewrite prune_filter. apply filter_ext_elem.
  intros [k v] Hin. simpl. rewrite elem_of_keys_to_delete. split.
  - intros Hk. destruct (big v) eqn:Hbig; [|done]. destruct Hk. eauto.
  - intros Hbig [v' [Hin' Hbig']].
    rewrite (NoDup_fst_functional items k v v') in Hbig by done. congruence.
Qed.

(** ** The trimmer on values *)

Definition trim_item (max_string_size : Z) (kv : string * json) : string * json :=
  (kv.1, trim_value kv.2 max_string_size).

Lemma oversized_trim_value max t :
  oversized max (trim_value t max) = oversized max t.
Proof. by destruct t. Qed.

Lemma filter_visited max (keys : list string) d :
  (∀ kv, kv ∈ d → oversized max kv.2 = true → kv.1 ∈ keys) →
  filter (λ kv, kv.1 ∉ keys)
    (map (λ kv : string * json,
            if oversized max kv.2 then kv else (kv.1, trim_value kv.2 max)) d)
  = trim_item max <$> filter (λ kv, kv.1 ∉ keys) d.
Proof.
  induction d as [|[k v] d IH]; intros Hkeys; [done|].
  simpl map. rewrite !filter_cons. simpl.
  assert (∀ kv, kv ∈ d → oversized max kv.2 = true → kv.1 ∈ keys) as Hd.
  { intros kv Hin. apply Hkeys. by right. }
  destruct (oversized max v) eqn:Hbig; simpl.
  - assert (k ∈ keys) as Hk by (apply (Hkeys (k, v)); [by left|done]).
    destruct (decide (k ∉ keys)); [done|]. by apply IH.
  - destruct (decide (k ∉ keys)); [|by apply IH].
    rewrite fmap_cons. f_equal. by apply IH.
Qed.

(** The dict case, with the two loops fused: the items bound to an
    oversized string go, the others stay in place with their value trimmed. *)
Lemma trim_value_dict max d :
  trim_value (JDict d) max = JDict (trim_item max <$> prune (oversized max) d).
Proof.
  simpl. f_equal. rewrite prune_filter, delete_keys_filter.
  apply filter_visited. intros [k v] Hin Hbig.
  apply elem_of_keys_to_delete. eauto.
Qed.

Lemma trim_value_list max l :
  trim_value (JList l) max = JList ((λ item, trim_value item max) <$> l).
Proof. done. Qed.

Lemma trim_value_idemp max t :
  trim_value (trim_value t max) max = trim_value t max.
Proof.
  induction t as [| | | | |l IH|d IH] using json_nested_ind; try done.
  - rewrite !trim_value_list. f_equal. rewrite <- list_fmap_compose.
    apply Forall_fmap_ext_1. eapply Forall_impl; [exact IH|]. done.
  - rewrite !trim_value_dict. f_equal.
    rewrite (prune_id _ (trim_item max <$> _)).
    + rewrite <- list_fmap_compose. apply Forall_fmap_ext_1.
      assert (Forall (λ kv, trim_value (trim_value kv.2 max) max = trim_value kv.2 max)
                (prune (oversized max) d)) as IH'.
      { by apply Forall_prune. }
      eapply Forall_impl; [exact IH'|]. intros [k v] Hv. unfold trim_item; simpl in *.
      by rewrite Hv.
    + apply Forall_fmap. eapply Forall_impl; [apply prune_small|].
      intros [k v] Hv. simpl in *. by rewrite oversized_trim_value.
Qed.

(** ** Records as objects in a store

    [trim_measurement] mutates its argument: dicts and lists are objects
    with an identity, and the same object can be reached along several
    paths.  A value is a scalar or a reference; the store maps addresses to
    dict and list objects. *)

Inductive value : Type :=
  | VNone
  | VBool (b : bool)
  | VInt (z : Z)
  | VFloat (mantissa exponent : Z)
  | VStr (s : string)
  | VRef (a : positive).

Inductive object : Type :=
  | ODict (items : list (string * value))
  | OList (items : list value).

Abbreviation heap := (gmap positive object).

(** [type(value) == str and len(value) > max_string_size] *)
Definition too_long (max_string_size : Z) (value : value) : bool :=
  match value with
  | VStr s => bool_decide (max_string_size < Z.of_nat (String.length s))
  | _ => false
  end.

(** [for key, value in json_dict.items(): ...], with the recursive call as
    a parameter; the loop threads the store and [keys_to_delete]. *)
Fixpoint dict_items_loop (rec : heap → value → option (heap * value))
    (max_string_size : Z) (items : list (string * value))
    (h : heap) (keys : list string) : option (heap * list string) :=
  match items with
  | [] => Some (h, keys)
  | (key, value) :: rest =>
      if too_long max_string_size value
      then dict_items_loop rec max_string_size rest h (keys ++ [key])%list
      else '(h', _) ← rec h value;
           dict_items_loop rec max_string_size rest h' keys
  end.

(** [del json_dict[key]] on the dict object at [a]. *)
Definition del_item (a : positive) (key : string) (h : heap) : option heap :=
  match h !! a with
  | Some (ODict items) => Some (<[a := ODict (dict_del key items)]> h)
  | _ => None
  end.

(** [for key in keys_to_delete: del json_dict[key]] *)
Fixpoint del_loop (a : positive) (keys : list string) (h : heap) : option heap :=
  match keys with
  | [] => Some h
  | key :: rest => h' ← del_item a key h; del_loop a rest h'
  end.

(** [for item in json_list: trim_measurement(item, max_string_size)] *)
Fixpoint list_items_loop (rec : heap → value → option (heap * value))
    (items : list value) (h : heap) : option heap :=
  match items with
  | [] => Some h
  | item :: rest => '(h', _) ← rec h item; list_items_loop rec rest h'
  end.

(** [trim_measurement], dispatching on the type of [json_obj].  The store
    is passed along and the returned value is the argument itself.  [fuel]
    bounds the nesting of calls; [None] is a run that does not return (a
    cyclic record exhausts the interpreter's stack) or meets a dangling
    address. *)
Fixpoint trim_measurement (fuel : nat) (h : heap) (json_obj : value)
    (max_string_size : Z) : option (heap * value) :=
  match json_obj with
  | VRef a =>
      match fuel with
      | O => None
      | S fuel =>
          match h !! a with
          | Some (ODict items) =>
              '(h1, keys) ← dict_items_loop
                               (λ h v, trim_measurement fuel h v max_string_size)
                               max_string_size items h [];
              h2 ← del_loop a keys h1;
              Some (h2, json_obj)
          | Some (OList items) =>
              h1 ← list_items_loop
                     (λ h v, trim_measurement fuel h v max_string_size) items h;
              Some (h1, json_obj)
          | None => None
          end
      end
  | _ => Some (h, json_obj)
  end.

(** [repr h v t]: in store [h] the value [v] denotes the record [t].  Only
    finite acyclic structures denote a record. *)
Fixpoint repr (h : heap) (v : value) (t : json) {struct t} : Prop :=
  match t with
  | JNone => v = VNone
  | JBool b => v = VBool b
  | JInt z => v = VInt z
  | JFloat m e => v = VFloat m e
  | JStr s => v = VStr s
  | JList ts =>
      ∃ a vs, v = VRef a ∧ h !! a = Some (OList vs) ∧
        (fix go (ts : list json) (vs : list value) {struct ts} : Prop :=
           match ts, vs with
           | [], [] => True
           | t :: ts, v :: vs => repr h v t ∧ go ts vs
           | _, _ => False
           end) ts vs
  | JDict d =>
      ∃ a items, v = VRef a ∧ h !! a = Some (ODict items) ∧ NoDup items.*1 ∧
        (fix go (d : list (string * json)) (items : list (string * value))
             {struct d} : Prop :=
           match d, items with
           | [], [] => True
           | kt :: d, kv :: items => kv.1 = kt.1 ∧ repr h kv.2 kt.2 ∧ go d items
           | _, _ => False
           end) d items
  end.

(** Item-wise denotation of a dict's items. *)
Definition repr_item (h : heap) (kv : string * value) (kt : string * json) : Prop :=
  kv.1 = kt.1 ∧ repr h kv.2 kt.2.

Lemma repr_list h v ts :
  repr h v (JList ts) ↔
  ∃ a vs, v = VRef a ∧ h !! a = Some (OList vs) ∧ Forall2 (repr h) vs ts.
Proof.
  simpl. apply exist_proper; intros a. apply exist_proper; intros vs.
  do 2 (apply and_iff_compat_l).
  revert vs. induction ts as [|t ts IH]; intros [|v' vs]; split;
    try (by inversion 1); try done.
  - intros [Hv Hgo]. constructor; [done|]. by apply IH.
  - intros Hf. apply Forall2_cons in Hf as [Hv Hf]. split; [done|]. by apply IH.
Qed.

Lemma repr_dict h v d :
  repr h v (JDict d) ↔
  ∃ a items, v = VRef a ∧ h !! a = Some (ODict items) ∧ NoDup items.*1 ∧
    Forall2 (repr_item h) items d.
Proof.
  simpl. apply exist_proper; intros a. apply exist_proper; intros items.
  do 3 (apply and_iff_compat_l).
  revert items. induction d as [|t ts IH]; intros [|v' vs]; split;
    try (by inversion 1); try done.
  - intros (Hk & Hv & Hgo). constructor; [done|]. by apply IH.
  - intros Hf. apply Forall2_cons in Hf as [[Hk Hv] Hf]. split_and!; [done..|]. by apply IH.
Qed.

(** ** Denotation lemmas *)

Lemma repr_functional h v t1 t2 : repr h v t1 → repr h v t2 → t1 = t2.
Proof.
  revert v t2.
  induction t1 as [| | | | |ts IH|d IH] using json_nested_ind; intros v t2 H1 H2.
  1-5: destruct t2; simpl in H1; subst; try (simpl in H2; congruence);
       try (apply repr_list in H2 as (? & ? & ? & _); congruence);
       try (apply repr_dict in H2 as (? & ? & ? & _); congruence).
  - apply repr_list in H1 as (a & vs & -> & Ha & Hvs).
    destruct t2 as [| | | | |ts2|d2]; try (simpl in H2; congruence).
    + apply repr_list in H2 as (a2 & vs2 & [= <-] & Ha2 & Hvs2).
      rewrite Ha in Ha2. injection Ha2 as <-. f_equal.
      clear Ha. revert ts2 Hvs2.
      induction Hvs as [|v t vs ts Hv Hvs IHvs]; intros ts2 Hvs2.
      * by inversion Hvs2.
      * inversion Hvs2 as [|? t' ? ts' Hv' Hvs']; subst.
        apply Forall_cons in IH as [IHt IH]. f_equal; eauto.
    + apply repr_dict in H2 as (a2 & vs2 & [= <-] & Ha2 & _). congruence.
  - apply repr_dict in H1 as (a & items & -> & Ha & _ & Hit).
    destruct t2 as [| | | | |ts2|d2]; try (simpl in H2; congruence).
    + apply repr_list in H2 as (a2 & vs2 & [= <-] & Ha2 & _). congruence.
    + apply repr_dict in H2 as (a2 & items2 & [= <-] & Ha2 & _ & Hit2).
      rewrite Ha in Ha2. injection Ha2 as <-. f_equal.
      clear Ha. revert d2 Hit2.
      induction Hit as [|kv kt items d [Hk Hv] Hit IHit]; intros d2 Hit2.
      * by inversion Hit2.
      * inversion Hit2 as [|? kt' ? d' [Hk' Hv'] Hit']; subst.
        apply Forall_cons in IH as [IHt IH].
        f_equal; [|by eauto].
        destruct kt, kt'; simpl in *. f_equal; [congruence|]. eauto.
Qed.

Lemma too_long_oversized h v t max : repr h v t → too_long max v = oversized max t.
Proof.
  destruct t; simpl; try (by intros ->).
  - by intros (? & ? & -> & _).
  - by intros (? & ? & -> & _).
Qed.

Lemma Forall2_fst_eq {A B} (R : string * A → string * B → Prop) l k :
  (∀ x y, R x y → x.1 = y.1) → Forall2 R l k → l.*1 = k.*1.
Proof.
  intros HR. induction 1 as [|x y l k Hxy _ IH]; [done|].
  rewrite !fmap_cons. f_equal; [by apply HR|done].
Qed.

Lemma oversized_height max t : oversized max t = true → height t = 0%nat.
Proof. by destruct t. Qed.

Lemma repr_item_big h max kv kt :
  repr_item h kv kt → kv.1 = kt.1 ∧ too_long max kv.2 = oversized max kt.2.
Proof. intros [Hk Hv]. split; [done|]. by eapply too_long_oversized. Qed.

(** Pruning two item lists that agree on keys and on which values are big
    keeps them related. *)
Lemma keys_to_delete_Forall2 {A B} (R : string * A → string * B → Prop)
    (bigA : A → bool) (bigB : B → bool) l k :
  (∀ x y, R x y → x.1 = y.1 ∧ bigA x.2 = bigB y.2) →
  Forall2 R l k → keys_to_delete bigA l = keys_to_delete bigB k.
Proof.
  intros HR. unfold keys_to_delete. induction 1 as [|x y l k Hxy _ IH]; [done|].
  destruct (HR _ _ Hxy) as [Hk Hb]. rewrite !filter_cons.
  destruct (decide (bigA x.2 = true)), (decide (bigB y.2 = true));
    try congruence; by rewrite ?fmap_cons, ?Hk, ?IH.
Qed.

Lemma filter_key_Forall2 {A B} (R : string * A → string * B → Prop)
    (keys : list string) l k :
  (∀ x y, R x y → x.1 = y.1) →
  Forall2 R l k →
  Forall2 R (filter (λ kv, kv.1 ∉ keys) l) (filter (λ kv, kv.1 ∉ keys) k).
Proof.
  intros HR. induction 1 as [|x y l k Hxy _ IH]; [constructor|].
  rewrite !filter_cons, <- (HR _ _ Hxy).
  destruct (decide (x.1 ∉ keys)); [by constructor|done].
Qed.

Lemma prune_Forall2 {A B} (R : string * A → string * B → Prop)
    (bigA : A → bool) (bigB : B → bool) l k :
  (∀ x y, R x y → x.1 = y.1 ∧ bigA x.2 = bigB y.2) →
  Forall2 R l k → Forall2 R (prune bigA l) (prune bigB k).
Proof.
  intros HR Hlk. rewrite !prune_filter.
  rewrite (keys_to_delete_Forall2 R bigA bigB l k HR Hlk).
  apply filter_key_Forall2; [|done]. intros x y Hxy. by apply HR.
Qed.

Lemma max_list_filter_zero {A} (f : A → nat) (P : A → Prop) `{∀ x, Decision (P x)} l :
  (∀ x, x ∈ l → ¬ P x → f x = 0%nat) →
  max_list (f <$> filter P l) = max_list (f <$> l).
Proof.
  induction l as [|x l IH]; intros Hz; [done|].
  rewrite filter_cons. destruct (decide (P x)) as [Hp|Hp]; rewrite ?fmap_cons; simpl.
  - rewrite IH; [done|]. intros y Hy. apply Hz. by right.
  - rewrite (Hz x) by (done || by left). simpl. apply IH.
    intros y Hy. apply Hz. by right.
Qed.

Lemma height_prune max d :
  NoDup d.*1 → height (JDict (prune (oversized max) d)) = height (JDict d).
Proof.
  intros Hnd. simpl. f_equal. rewrite prune_NoDup by done.
  apply max_list_filter_zero.
  intros [k v] Hin Hk. simpl in *. apply (oversized_height max).
  by destruct (oversized max v).
Qed.

Lemma NoDup_prune {A} (big : A → bool) (items : list (string * A)) :
  NoDup items.*1 → NoDup (prune big items).*1.
Proof.
  rewrite prune_filter. generalize (keys_to_delete big items). intros keys.
  induction items as [|[k v] items IH]; [done|].
  rewrite fmap_cons, NoDup_cons. intros [Hk Hnd]. rewrite filter_cons.
  destruct (decide _); [|by auto].
  rewrite fmap_cons, NoDup_cons. split; [|by auto].
  intros Hin. destruct Hk. apply list_elem_of_fmap in Hin as [kv [-> Hin]].
  apply list_elem_of_filter in Hin as [_ Hin].
  apply list_elem_of_fmap. by exists kv.
Qed.

Lemma Forall2_fmap_eq {A B C} (f : A → C) (g : B → C) l k :
  Forall2 (λ x y, f x = g y) l k → f <$> l = g <$> k.
Proof. induction 1; [done|]. rewrite !fmap_cons. by f_equal. Qed.

Lemma trim_value_prune max d :
  trim_value (JDict (prune (oversized max) d)) max = trim_value (JDict d) max.
Proof. by rewrite !trim_value_dict, prune_idemp. Qed.

Lemma trim_fixed_list max l :
  trim_value (JList l) max = JList l → Forall (λ t, trim_value t max = t) l.
Proof.
  rewrite trim_value_list. intros [= Hl].
  induction l as [|t l IH]; [done|].
  rewrite fmap_cons in Hl. injection Hl as Ht Hl. constructor; auto.
Qed.

Lemma trim_fixed_dict max d :
  trim_value (JDict d) max = JDict d →
  Forall (λ kt, oversized max kt.2 = false ∧ trim_value kt.2 max = kt.2) d.
Proof.
  rewrite trim_value_dict. intros [= Hd].
  assert (Forall (λ kt, oversized max kt.2 = false) d) as Hsmall.
  { rewrite <- Hd. apply Forall_fmap. eapply Forall_impl; [apply prune_small|].
    intros [k v] Hv. simpl in *. by rewrite oversized_trim_value. }
  rewrite prune_id in Hd by done.
  induction d as [|[k v] d IH]; [done|].
  rewrite fmap_cons in Hd. injection Hd as Hv Hd.
  apply Forall_cons in Hsmall as [Hs Hsmall]. constructor; auto.
Qed.

(** ** What a call does to the store

    A call never rebinds a key or an index: all it does to an object is to
    drop, from a dict, the items bound to a string that is too long. *)

Definition step_obj (max : Z) (o o' : option object) : Prop :=
  o' = o ∨
  ∃ items, o = Some (ODict items) ∧ o' = Some (ODict (prune (too_long max) items)).

Definition trims_to (max : Z) (h h' : heap) : Prop :=
  ∀ a, step_obj max (h !! a) (h' !! a).

Lemma trims_to_refl max h : trims_to max h h.
Proof. intros a. by left. Qed.

Lemma trims_to_trans max h1 h2 h3 :
  trims_to max h1 h2 → trims_to max h2 h3 → trims_to max h1 h3.
Proof.
  intros H12 H23 a. destruct (H12 a) as [E12|(items & E1 & E2)],
    (H23 a) as [E23|(items' & E2' & E3)].
  - left. congruence.
  - right. exists items'. split; congruence.
  - right. exists items. split; congruence.
  - right. exists items. split; [done|].
    rewrite E2 in E2'. injection E2' as <-. by rewrite prune_idemp in E3.
Qed.

(** The relation between the record a value denotes before and after. *)
Definition settles (max : Z) (t t' : json) : Prop :=
  height t' = height t ∧
  trim_value t' max = trim_value t max ∧
  (trim_value t max = t → t' = t).

Definition settles_item (max : Z) (kt kt' : string * json) : Prop :=
  kt.1 = kt'.1 ∧ settles max kt.2 kt'.2.

Lemma settles_oversized max t t' :
  settles max t t' → oversized max t = oversized max t'.
Proof.
  intros (_ & Ht & _).
  by rewrite <- (oversized_trim_value max t), <- Ht, oversized_trim_value.
Qed.

Lemma settles_list max ts ts' :
  Forall2 (settles max) ts ts' → settles max (JList ts) (JList ts').
Proof.
  intros Hs. split_and!.
  - simpl. do 2 f_equal. symmetry. apply Forall2_fmap_eq.
    eapply Forall2_impl; [exact Hs|]. by intros t t' (-> & _).
  - rewrite !trim_value_list. f_equal. symmetry. apply Forall2_fmap_eq.
    eapply Forall2_impl; [exact Hs|]. by intros t t' (_ & -> & _).
  - intros Hfix. apply trim_fixed_list in Hfix. f_equal.
    induction Hs as [|t t' ts ts' Ht Hs IH]; [done|].
    apply Forall_cons in Hfix as [Hf Hfix]. f_equal; [|by auto].
    by apply Ht.
Qed.

Lemma settles_dict max d d' :
  Forall2 (settles_item max) d d' → settles max (JDict d) (JDict d').
Proof.
  intros Hs. split_and!.
  - simpl. do 2 f_equal. symmetry. apply Forall2_fmap_eq.
    eapply Forall2_impl; [exact Hs|]. by intros t t' (_ & -> & _).
  - rewrite !trim_value_dict. f_equal. symmetry. apply Forall2_fmap_eq.
    eapply Forall2_impl.
    + apply (prune_Forall2 (settles_item max)); [|exact Hs].
      intros x y [Hk Hv]. split; [done|]. by apply settles_oversized.
    + intros [k t] [k' t'] [Hk (_ & Ht & _)]. unfold trim_item; simpl in *.
      by rewrite Hk, Ht.
  - intros Hfix. apply trim_fixed_dict in Hfix. f_equal.
    induction Hs as [|[k t] [k' t'] ts ts' [Hk Ht] Hs IH]; [done|].
    apply Forall_cons in Hfix as [[_ Hf] Hfix]. simpl in *.
    f_equal; [|by auto]. f_equal; [done|]. by apply Ht.
Qed.

Lemma settles_prune max d d' :
  NoDup d'.*1 →
  settles max (JDict d) (JDict d') →
  settles max (JDict d) (JDict (prune (oversized max) d')).
Proof.
  intros Hnd (Hh & Ht & Hfix). split_and!.
  - by rewrite height_prune.
  - by rewrite trim_value_prune.
  - intros Hd. injection (Hfix Hd) as ->.
    f_equal. apply prune_id. apply trim_fixed_dict in Hd.
    eapply Forall_impl; [exact Hd|]. by intros kt [? _].
Qed.

Lemma settles_refl max t : settles max t t.
Proof. by split_and!. Qed.

(** Whatever denoted a record before still denotes one, of the same depth
    and with the same trimmed form; a record that is already in trimmed
    form is not affected at all. *)
Lemma repr_trims_to max h h' :
  trims_to max h h' →
  ∀ t w, repr h w t → ∃ t', repr h' w t' ∧ settles max t t'.
Proof.
  intros Hhh'.
  induction t as [| | | | |ts IH|d IH] using json_nested_ind; intros w Hw.
  1-5: eexists; split; [|apply settles_refl]; exact Hw.
  - apply repr_list in Hw as (a & vs & -> & Ha & Hvs).
    assert (∃ ts', Forall2 (repr h') vs ts' ∧ Forall2 (settles max) ts ts')
      as (ts' & Hvs' & Hts').
    { clear Ha. induction Hvs as [|v t vs ts Hv Hvs IHvs].
      - exists []. by split; constructor.
      - apply Forall_cons in IH as [IHt IH].
        destruct (IHt v Hv) as (t' & Ht' & Hs), (IHvs IH) as (ts' & Hvs' & Hss).
        exists (t' :: ts'). by split; constructor. }
    exists (JList ts'). split; [|by apply settles_list].
    apply repr_list. exists a, vs. split_and!; [done| |done].
    destruct (Hhh' a) as [->|(items & E & _)]; congruence.
  - apply repr_dict in Hw as (a & items & -> & Ha & Hnd & Hit).
    assert (∃ d', Forall2 (repr_item h') items d' ∧ Forall2 (settles_item max) d d')
      as (d' & Hit' & Hd').
    { clear Ha Hnd. induction Hit as [|kv kt items d [Hk Hv] Hit IHit].
      - exists []. by split; constructor.
      - apply Forall_cons in IH as [IHt IH].
        destruct (IHt _ Hv) as (t' & Ht' & Hs), (IHit IH) as (d' & Hit' & Hss).
        exists ((kt.1, t') :: d'). split; constructor; done. }
    assert (items.*1 = d'.*1) as Hkeys.
    { eapply Forall2_fst_eq; [|exact Hit']. by intros x y [? _]. }
    destruct (Hhh' a) as [E|(items0 & E & E')].
    + exists (JDict d'). split; [|by apply settles_dict].
      apply repr_dict. exists a, items. split_and!; congruence.
    + exists (JDict (prune (oversized max) d')). split.
      * apply repr_dict. exists a, (prune (too_long max) items).
        assert (items0 = items) as -> by congruence.
        split_and!; [done|done|by apply NoDup_prune|].
        apply prune_Forall2; [|done]. intros x y. apply repr_item_big.
      * apply settles_prune; [congruence|by apply settles_dict].
Qed.

(** Objects that sit strictly above a record are not part of it: rebinding
    one of them leaves the record denoted. *)
Lemma repr_insert_above h a o ta :
  repr h (VRef a) ta →
  ∀ t w, repr h w t → (height t < height ta)%nat → repr (<[a:=o]> h) w t.
Proof.
  intros Hta.
  induction t as [| | | | |ts IH|d IH] using json_nested_ind; intros w Hw Hlt;
    try exact Hw.
  - assert (Hw' := Hw). apply repr_list in Hw as (b & vs & -> & Hb & Hvs).
    apply repr_list. exists b, vs. split_and!; [done| |].
    + rewrite lookup_insert_ne; [done|]. intros ->.
      rewrite (repr_functional _ _ _ _ Hta Hw') in Hlt. by apply Nat.lt_irrefl in Hlt.
    + clear Hb Hw'. induction Hvs as [|v t vs ts Hv Hvs IHvs]; [constructor|].
      apply Forall_cons in IH as [IHt IH].
      pose proof (height_list_head t ts). pose proof (height_list_tail t ts).
      constructor.
      * apply IHt; [done|]. lia.
      * apply IHvs; [done|]. lia.
  - assert (Hw' := Hw). apply repr_dict in Hw as (b & items & -> & Hb & Hnd & Hit).
    apply repr_dict. exists b, items. split_and!; [done| |done|].
    + rewrite lookup_insert_ne; [done|]. intros ->.
      rewrite (repr_functional _ _ _ _ Hta Hw') in Hlt. by apply Nat.lt_irrefl in Hlt.
    + clear Hb Hw' Hnd. induction Hit as [|kv kt items d [Hk Hv] Hit IHit]; [constructor|].
      apply Forall_cons in IH as [IHt IH].
      pose proof (height_dict_head kt d). pose proof (height_dict_tail kt d).
      constructor.
      * split; [done|]. apply IHt; [done|]. lia.
      * apply IHit; [done|]. lia.
Qed.

(** ** Correctness of the in-place trimmer *)

(** Objects whose record is deeper than [k] are left alone. *)
Definition frame (h h' : heap) (k : nat) : Prop :=
  ∀ b tb, repr h (VRef b) tb → (k < height tb)%nat → h' !! b = h !! b.

(** The value denotes a record that is already in trimmed form. *)
Definition clean (max : Z) (h : heap) (v : value) : Prop :=
  ∃ t, repr h v t ∧ trim_value t max = t.

(** What a call that may nest [n] further calls achieves. *)
Definition rec_ok (max : Z) (n : nat)
    (rec : heap → value → option (heap * value)) : Prop :=
  ∀ h v t, repr h v t → (height t ≤ n)%nat →
    ∃ h', rec h v = Some (h', v) ∧ trims_to max h h' ∧
          repr h' v (trim_value t max) ∧ frame h h' (height t).

Lemma frame_weaken h h' k k' : frame h h' k → (k ≤ k')%nat → frame h h' k'.
Proof. intros Hf Hk b tb Hb Hlt. eapply Hf; [done|lia]. Qed.

Lemma frame_refl h k : frame h h k.
Proof. by intros b tb _ _. Qed.

Lemma frame_trans max h1 h2 h3 k :
  trims_to max h1 h2 → frame h1 h2 k → frame h2 h3 k → frame h1 h3 k.
Proof.
  intros Ht H12 H23 b tb Hb Hlt.
  destruct (repr_trims_to max h1 h2 Ht tb (VRef b) Hb) as (tb' & Hb' & Hh & _).
  rewrite <- (H12 b tb Hb Hlt). apply (H23 b tb' Hb'). lia.
Qed.

Lemma clean_trims_to max h h' v : trims_to max h h' → clean max h v → clean max h' v.
Proof.
  intros Ht (t & Hv & Hfix).
  destruct (repr_trims_to max h h' Ht t v Hv) as (t' & Hv' & _ & _ & Hsame).
  exists t. split; [|done]. by rewrite <- (Hsame Hfix).
Qed.

Lemma clean_repr_trim max h h' v t :
  trims_to max h h' → repr h v t → clean max h' v → repr h' v (trim_value t max).
Proof.
  intros Ht Hv (u & Hu & Hfix).
  destruct (repr_trims_to max h h' Ht t v Hv) as (t' & Hv' & _ & Htrim & _).
  rewrite (repr_functional _ _ _ _ Hv' Hu) in Htrim. congruence.
Qed.

Lemma below_trims_to max h h' (m : nat) v :
  trims_to max h h' →
  (∃ t, repr h v t ∧ (height t ≤ m)%nat) → ∃ t, repr h' v t ∧ (height t ≤ m)%nat.
Proof.
  intros Ht (t & Hv & Hm).
  destruct (repr_trims_to max h h' Ht t v Hv) as (t' & Hv' & Hh & _).
  exists t'. split; [done|lia].
Qed.

Lemma dict_items_loop_ok max n rec (m : nat) :
  rec_ok max n rec → (m ≤ n)%nat →
  ∀ rest h keys,
    Forall (λ kv : string * value, ∃ t, repr h kv.2 t ∧ (height t ≤ m)%nat) rest →
    ∃ h', dict_items_loop rec max rest h keys
            = Some (h', (keys ++ keys_to_delete (too_long max) rest)%list) ∧
          trims_to max h h' ∧ frame h h' m ∧
          Forall (λ kv, too_long max kv.2 = false → clean max h' kv.2) rest.
Proof.
  intros Hrec Hmn. induction rest as [|[k v] rest IH]; intros h keys Hrest.
  - exists h. simpl. rewrite app_nil_r.
    split_and!; [done|apply trims_to_refl|apply frame_refl|constructor].
  - apply Forall_cons in Hrest as [(t & Hv & Hm) Hrest]. simpl in Hv. simpl.
    destruct (too_long max v) eqn:Hbig.
    + destruct (IH h (keys ++ [k])%list Hrest) as (h' & Hrun & Ht & Hf & Hc).
      exists h'. rewrite Hrun, keys_to_delete_cons_big, <- app_assoc by done.
      split_and!; [done..|]. constructor; [simpl; congruence|done].
    + destruct (Hrec h v t Hv) as (h1 & Hcall & Ht1 & Hv1 & Hf1); [lia|].
      rewrite Hcall. simpl.
      destruct (IH h1 keys) as (h' & Hrun & Ht & Hf & Hc).
      { eapply Forall_impl; [exact Hrest|]. intros kv. by apply (below_trims_to max). }
      exists h'. rewrite Hrun, keys_to_delete_cons_small by done.
      split_and!; [done|by eapply trims_to_trans| |].
      * eapply (frame_trans max); [done| |done]. eapply frame_weaken; [done|lia].
      * constructor; [|done]. intros _. simpl.
        apply (clean_trims_to max h1); [done|].
        exists (trim_value t max). split; [done|apply trim_value_idemp].
Qed.

Lemma list_items_loop_ok max n rec (m : nat) :
  rec_ok max n rec → (m ≤ n)%nat →
  ∀ rest h,
    Forall (λ v, ∃ t, repr h v t ∧ (height t ≤ m)%nat) rest →
    ∃ h', list_items_loop rec rest h = Some h' ∧
          trims_to max h h' ∧ frame h h' m ∧ Forall (clean max h') rest.
Proof.
  intros Hrec Hmn. induction rest as [|v rest IH]; intros h Hrest.
  - exists h. split_and!; [done|apply trims_to_refl|apply frame_refl|constructor].
  - apply Forall_cons in Hrest as [(t & Hv & Hm) Hrest]. simpl.
    destruct (Hrec h v t Hv) as (h1 & Hcall & Ht1 & Hv1 & Hf1); [lia|].
    rewrite Hcall. simpl.
    destruct (IH h1) as (h' & Hrun & Ht & Hf & Hc).
    { eapply Forall_impl; [exact Hrest|]. intros w. by apply (below_trims_to max). }
    exists h'. split_and!; [done|by eapply trims_to_trans| |].
    + eapply (frame_trans max); [done| |done]. eapply frame_weaken; [done|lia].
    + constructor; [|done].
      apply (clean_trims_to max h1); [done|].
      exists (trim_value t max). split; [done|apply trim_value_idemp].
Qed.

Lemma del_loop_ok a keys :
  ∀ h items, h !! a = Some (ODict items) →
    del_loop a keys h = Some (<[a := ODict (delete_keys keys items)]> h).
Proof.
  induction keys as [|k keys IH]; intros h items Ha; simpl.
  - by rewrite insert_id.
  - unfold del_item. rewrite Ha. simpl.
    rewrite (IH _ (dict_del k items)) by apply lookup_insert_eq.
    by rewrite insert_insert_eq.
Qed.

Lemma clean_repr_trim_height max h h' v t :
  trims_to max h h' → repr h v t → clean max h' v →
  repr h' v (trim_value t max) ∧ height (trim_value t max) = height t.
Proof.
  intros Ht Hv Hc. pose proof (clean_repr_trim max h h' v t Ht Hv Hc) as Hv'.
  split; [done|].
  destruct (repr_trims_to max h h' Ht t v Hv) as (t' & Hv'' & Hh & _).
  by rewrite (repr_functional _ _ _ _ Hv' Hv'').
Qed.

Lemma Forall2_and_Forall_l {A B} (R : A → B → Prop) (P : A → Prop) l k :
  Forall2 R l k → Forall P l → Forall2 (λ x y, R x y ∧ P x) l k.
Proof.
  induction 1 as [|x y l k Hxy _ IH]; intros Hl; [constructor|].
  apply Forall_cons in Hl as [Hx Hl]. constructor; auto.
Qed.

Lemma repr_list_below h vs ts (H : nat) :
  Forall2 (repr h) vs ts → (height (JList ts) ≤ H)%nat →
  Forall2 (λ v t, repr h v t ∧ (height t < H)%nat) vs ts.
Proof.
  induction 1 as [|v t vs ts Hv _ IH]; intros HH; [constructor|].
  pose proof (height_list_head t ts). pose proof (height_list_tail t ts).
  constructor; [split; [done|lia]|]. apply IH. lia.
Qed.

Lemma repr_dict_below h items d (H : nat) :
  Forall2 (repr_item h) items d → (height (JDict d) ≤ H)%nat →
  Forall2 (λ kv kt, repr_item h kv kt ∧ (height kt.2 < H)%nat) items d.
Proof.
  induction 1 as [|kv kt items d Hv _ IH]; intros HH; [constructor|].
  pose proof (height_dict_head kt d). pose proof (height_dict_tail kt d).
  constructor; [split; [done|lia]|]. apply IH. lia.
Qed.

Lemma trim_measurement_scalar max h v t n :
  repr h v t → height t = 0%nat →
  trim_measurement n h v max = Some (h, v) ∧ trim_value t max = t.
Proof. destruct t; simpl; intros Hv Hh; try discriminate; subst; by destruct n. Qed.

Lemma json_container t m :
  height t = S m →
  (∃ ts, t = JList ts ∧ max_list (height <$> ts) = m) ∨
  (∃ d, t = JDict d ∧ max_list ((λ kv, height kv.2) <$> d) = m).
Proof. destruct t; simpl; try done; intros [= <-]; eauto. Qed.

Lemma trim_measurement_ok max n : rec_ok max n (λ h v, trim_measurement n h v max).
Proof.
  induction n as [|n IH]; intros h v t Hv Hh.
  - destruct (trim_measurement_scalar max h v t 0 Hv) as [Hrun Hfix]; [lia|].
    exists h. rewrite Hfix.
    split_and!; [done|apply trims_to_refl|done|apply frame_refl].
  - destruct (height t) as [|m] eqn:Hm.
    { destruct (trim_measurement_scalar max h v t (S n) Hv Hm) as [Hrun Hfix].
      exists h. rewrite Hfix.
      split_and!; [done|apply trims_to_refl|done|apply frame_refl]. }
    assert (Hv0 := Hv).
    apply json_container in Hm as [(ts & -> & Hm)|(d & -> & Hm)].
    + apply repr_list in Hv as (a & vs & -> & Ha & Hvs).
      destruct (list_items_loop_ok max n _ m IH ltac:(lia) vs h)
        as (h1 & Hloop & Ht & Hf & Hc).
      { apply (repr_list_below h vs ts (S m)) in Hvs; [|simpl; lia].
        clear -Hvs. induction Hvs as [|v t vs ts [Hv Hlt] _ IHvs]; constructor; [|done].
        exists t. split; [done|lia]. }
      assert (trim_measurement (S n) h (VRef a) max = Some (h1, VRef a)) as Hrun.
      { simpl. by rewrite Ha, Hloop. }
      exists h1.
      assert (h1 !! a = Some (OList vs)) as Ha1.
      { rewrite <- Ha. apply (Hf a _ Hv0). simpl. lia. }
      split_and!; [done|done| |].
      * rewrite trim_value_list. apply repr_list. exists a, vs.
        split_and!; [done..|]. apply Forall2_fmap_r.
        clear -Hvs Hc Ht.
        induction Hvs as [|v t vs ts Hv _ IHvs]; [constructor|].
        apply Forall_cons in Hc as [Hcv Hc]. constructor; [|by auto].
        by apply (clean_repr_trim max h).
      * intros b tb Hb Hlt. apply (Hf b tb Hb). simpl in Hlt. lia.
    + apply repr_dict in Hv as (a & items & -> & Ha & Hnd & Hit).
      destruct (dict_items_loop_ok max n _ m IH ltac:(lia) items h [])
        as (h1 & Hloop & Ht & Hf & Hc).
      { apply (repr_dict_below h items d (S m)) in Hit; [|simpl; lia].
        clear -Hit. induction Hit as [|kv kt items d [[Hk Hv] Hlt] _ IHit];
          constructor; [|done].
        exists kt.2. split; [done|lia]. }
      assert (h1 !! a = Some (ODict items)) as Ha1.
      { rewrite <- Ha. apply (Hf a _ Hv0). simpl. lia. }
      assert (trim_measurement (S n) h (VRef a) max
              = Some (<[a:=ODict (prune (too_long max) items)]> h1, VRef a)) as Hrun.
      { simpl. rewrite Ha, Hloop. simpl. by rewrite (del_loop_ok a _ h1 items Ha1). }
      exists (<[a:=ODict (prune (too_long max) items)]> h1).
      destruct (repr_trims_to max h h1 Ht _ _ Hv0) as (T1 & HT1 & HhT1 & _).
      split_and!; [done| | |].
      * intros b. destruct (decide (b = a)) as [->|Hne].
        -- right. exists items. by rewrite lookup_insert_eq.
        -- rewrite lookup_insert_ne by done. apply Ht.
      * rewrite trim_value_dict. apply repr_dict.
        exists a, (prune (too_long max) items).
        split_and!; [done|apply lookup_insert_eq|by apply NoDup_prune|].
        apply Forall2_fmap_r.
        apply (repr_dict_below h items d (S m)) in Hit; [|simpl; lia].
        pose proof (Forall2_and_Forall_l _ _ _ _ Hit Hc) as Hall.
        apply (prune_Forall2 _ (too_long max) (oversized max)) in Hall.
        2:{ intros x y [[Hxy _] _]. by apply (repr_item_big h). }
        pose proof (Forall2_and_Forall_l _ _ _ _ Hall (prune_small (too_long max) items))
          as Hall'.
        eapply Forall2_impl; [exact Hall'|].
        intros kv kt [[[[Hk Hv] Hlt] Hclean] Hsmall]. simpl in Hclean, Hsmall.
        destruct (clean_repr_trim_height max h h1 kv.2 kt.2 Ht Hv (Hclean Hsmall))
          as [Hv1 Hh1].
        split; [done|]. simpl.
        apply (repr_insert_above h1 a _ T1 HT1); [done|].
        rewrite Hh1, HhT1. simpl. lia.
      * intros b tb Hb Hlt.
        assert (b ≠ a) as Hne.
        { intros ->. rewrite (repr_functional _ _ _ _ Hb Hv0) in Hlt.
          simpl in Hlt. rewrite Hm in Hlt. lia. }
        rewrite lookup_insert_ne by done. apply (Hf b tb Hb). simpl in Hlt. lia.
Qed.

(** A record already in trimmed form: the call runs through it and leaves
    the store as it is. *)
Lemma trim_measurement_clean max n :
  ∀ h v u, repr h v u → trim_value u max = u → (height u ≤ n)%nat →
    trim_measurement n h v max = Some (h, v).
Proof.
  induction n as [|n IH]; intros h v u Hv Hfix Hh.
  - by apply (trim_measurement_scalar max h v u 0 Hv); lia.
  - destruct (height u) as [|m] eqn:Hm.
    { by apply (trim_measurement_scalar max h v u (S n) Hv Hm). }
    apply json_container in Hm as [(ts & -> & Hm)|(d & -> & Hm)].
    + apply trim_fixed_list in Hfix.
      apply repr_list in Hv as (a & vs & -> & Ha & Hvs).
      simpl. rewrite Ha.
      assert (list_items_loop (λ h v, trim_measurement n h v max) vs h = Some h) as Hloop;
        [|by rewrite Hloop].
      apply (repr_list_below h vs ts (S m)) in Hvs; [|simpl; lia].
      clear Ha Hm. induction Hvs as [|v t vs ts [Hv Hlt] _ IHvs]; [done|].
      apply Forall_cons in Hfix as [Hf Hfix]. simpl.
      rewrite (IH h v t Hv Hf) by lia. simpl. by apply IHvs.
    + apply trim_fixed_dict in Hfix.
      apply repr_dict in Hv as (a & items & -> & Ha & Hnd & Hit).
      simpl. rewrite Ha.
      assert (dict_items_loop (λ h v, trim_measurement n h v max) max items h []
              = Some (h, [])) as Hloop; [|by rewrite Hloop].
      apply (repr_dict_below h items d (S m)) in Hit; [|simpl; lia].
      clear Ha Hnd Hm. induction Hit as [|[k v] kt items d [[Hk Hv] Hlt] _ IHit]; [done|].
      apply Forall_cons in Hfix as [[Hs Hf] Hfix]. simpl in *.
      rewrite (too_long_oversized h v kt.2 max Hv), Hs.
      rewrite (IH h v kt.2 Hv Hf) by lia. simpl. by apply IHit.
Qed.

(** The dict object after a call: its too-long strings are gone, what stays
    denotes the trimmed records. *)
Lemma trim_measurement_dict_object max h a items d h' :
  h !! a = Some (ODict items) →
  repr h (VRef a) (JDict d) →
  trims_to max h h' →
  repr h' (VRef a) (trim_value (JDict d) max) →
  h' !! a = Some (ODict (prune (too_long max) items)) ∧
  Forall (λ kv, clean max h' kv.2) (prune (too_long max) items).
Proof.
  intros Ha Hd Ht Hd'.
  rewrite trim_value_dict in Hd'.
  apply repr_dict in Hd' as (a' & items' & [= <-] & Ha' & Hnd' & Hit').
  assert (Forall (λ kv, clean max h' kv.2) items') as Hclean.
  { rewrite Forall2_fmap_r in Hit'. clear -Hit'.
    revert Hit'. generalize (prune (oversized max) d). intros d0 Hit'.
    induction Hit' as [|kv kt items1 d1 [Hk Hv] _ IH]; constructor; [|done].
    exists (trim_value kt.2 max). split; [done|apply trim_value_idemp]. }
  destruct (Ht a) as [E|(items0 & E & E')].
  - assert (items' = items) as -> by congruence.
    assert (prune (too_long max) items = items) as ->; [|done].
    apply prune_id. rewrite Forall2_fmap_r in Hit'. clear -Hit'.
    pose proof (prune_small (oversized max) d) as Hs.
    revert Hs Hit'. generalize (prune (oversized max) d). intros d0 Hs Hit'.
    induction Hit' as [|kv kt items1 d1 [Hk Hv] _ IH]; [constructor|].
    apply Forall_cons in Hs as [Hkt Hs]. constructor; [|by auto].
    simpl in Hv. rewrite (too_long_oversized h' kv.2 _ max Hv).
    by rewrite oversized_trim_value.
  - assert (items0 = items) as -> by congruence.
    assert (items' = prune (too_long max) items) as -> by congruence. done.
Qed.

Lemma too_long_spec max v :
  too_long max v = true ↔ ∃ s, v = VStr s ∧ max < Z.of_nat (String.length s).
Proof.
  destruct v; simpl; try (split; [done|by intros (? & ? & _)]).
  rewrite bool_decide_eq_true. split; [eauto|]. by intros (? & [= <-] & ?).
Qed.

Lemma oversized_spec max t :
  oversized max t = true ↔ ∃ s, t = JStr s ∧ max < Z.of_nat (String.length s).
Proof.
  destruct t; simpl; try (split; [done|by intros (? & ? & _)]).
  rewrite bool_decide_eq_true. split; [eauto|]. by intros (? & [= <-] & ?).
Qed.

(** ** The trimmer: the claims *)

(** C4. On a dict object of a finite acyclic record, the call returns the
    very object it was given; the object has lost exactly the items whose
    value is a string longer than [max_string_size] (the items go whole, no
    string is cut), the other items stay in their order, bound to the same
    values, and each of these values now denotes its trimmed record. *)
Theorem trim_measurement_dict_in_place max h a items d fuel :
  h !! a = Some (ODict items) →
  repr h (VRef a) (JDict d) →
  (height (JDict d) ≤ fuel)%nat →
  ∃ h',
    trim_measurement fuel h (VRef a) max = Some (h', VRef a) ∧
    h' !! a = Some (ODict (filter (λ kv, too_long max kv.2 = false) items)) ∧
    (∀ k v, (k, v) ∈ items →
       (k ∉ (filter (λ kv : string * value, too_long max kv.2 = false) items).*1 ↔
        ∃ s, v = VStr s ∧ max < Z.of_nat (String.length s))) ∧
    (∀ k v t, (k, v) ∈ items → too_long max v = false → repr h v t →
       repr h' v (trim_value t max)) ∧
    repr h' (VRef a) (trim_value (JDict d) max).
Proof.
  intros Ha Hd Hfuel.
  destruct (trim_measurement_ok max fuel h (VRef a) (JDict d) Hd Hfuel)
    as (h' & Hrun & Ht & Hd' & _).
  assert (NoDup items.*1) as Hnd.
  { apply repr_dict in Hd as (a' & items' & [= <-] & Ha' & Hnd & _). congruence. }
  destruct (trim_measurement_dict_object max h a items d h' Ha Hd Ht Hd')
    as [Ha' Hclean].
  rewrite prune_NoDup in Ha', Hclean by done.
  exists h'. split_and!; [done|done| | |done].
  - intros k v Hin. rewrite <- too_long_spec. split.
    + intros Hk. destruct (too_long max v) eqn:Hbig; [done|].
      destruct Hk. apply list_elem_of_fmap. exists (k, v). split; [done|].
      by apply list_elem_of_filter.
    + intros Hbig Hk. apply list_elem_of_fmap in Hk as [[k' v'] [-> Hk]].
      apply list_elem_of_filter in Hk as [Hsmall Hin']. simpl in *.
      rewrite (NoDup_fst_functional items k' v v') in Hbig by done. congruence.
  - intros k v t Hin Hsmall Hv. apply (clean_repr_trim max h); [done..|].
    rewrite Forall_forall in Hclean. apply (Hclean (k, v)).
    by apply list_elem_of_filter.
Qed.

(** C7. Trimming is idempotent: on values, trimming a trimmed record gives
    the same record; on the store, a second call on the same object
    returns it again and leaves the store as the first call left it. *)
Theorem trim_measurement_idempotent max h v t fuel :
  repr h v t →
  (height t ≤ fuel)%nat →
  trim_value (trim_value t max) max = trim_value t max ∧
  ∃ h',
    trim_measurement fuel h v max = Some (h', v) ∧
    repr h' v (trim_value t max) ∧
    trim_measurement fuel h' v max = Some (h', v).
Proof.
  intros Hv Hfuel. split; [apply trim_value_idemp|].
  destruct (trim_measurement_ok max fuel h v t Hv Hfuel) as (h' & Hrun & Ht & Hv' & _).
  exists h'. split_and!; [done..|].
  apply (trim_measurement_clean max fuel h' v (trim_value t max));
    [done|apply trim_value_idemp|].
  destruct (repr_trims_to max h h' Ht t v Hv) as (t' & Hv'' & Hh & _).
  rewrite (repr_functional _ _ _ _ Hv' Hv''). lia.
Qed.

(** C8. Outside the oversized direct values of dicts nothing is removed or
    cut.  A value that is not a dict or a list (a string of any length
    included) is returned as it is and the store is untouched; a list
    object is returned with the same items in the same order (so a string
    item stays, however long), each item denoting its trimmed record; on
    values, a list is trimmed item by item and keeps its length. *)
Theorem trim_measurement_frame max :
  (∀ fuel h v, (∀ a, v ≠ VRef a) → trim_measurement fuel h v max = Some (h, v)) ∧
  (∀ fuel h a vs ts,
     h !! a = Some (OList vs) →
     repr h (VRef a) (JList ts) →
     (height (JList ts) ≤ fuel)%nat →
     ∃ h', trim_measurement fuel h (VRef a) max = Some (h', VRef a) ∧
           h' !! a = Some (OList vs) ∧
           Forall2 (λ v t, repr h' v (trim_value t max)) vs ts) ∧
  (∀ ts, trim_value (JList ts) max = JList ((λ t, trim_value t max) <$> ts) ∧
         length ((λ t, trim_value t max) <$> ts) = length ts) ∧
  (∀ t, (∀ ts, t ≠ JList ts) → (∀ d, t ≠ JDict d) → trim_value t max = t).
Proof.
  split_and!.
  - intros fuel h v Hv. destruct v; try done; [by destruct fuel..|].
    by destruct (Hv a).
  - intros fuel h a vs ts Ha Hl Hfuel.
    destruct (trim_measurement_ok max fuel h (VRef a) (JList ts) Hl Hfuel)
      as (h' & Hrun & Ht & Hl' & _).
    exists h'. split; [done|].
    rewrite trim_value_list in Hl'.
    apply repr_list in Hl' as (a' & vs' & [= <-] & Ha' & Hvs').
    destruct (Ht a) as [E|(items & E & _)]; [|congruence].
    assert (vs' = vs) as -> by congruence.
    split; [done|]. by rewrite Forall2_fmap_r in Hvs'.
  - intros ts. split; [done|apply length_fmap].
  - intros t Hl Hd. destruct t; try done; [by destruct (Hl items)|by destruct (Hd items)].
Qed.

(** *** Reading a record off the store *)

(** The record a value denotes, computed; [fuel] bounds the depth. *)
Fixpoint reify (fuel : nat) (h : heap) (v : value) : option json :=
  match v with
  | VNone => Some JNone
  | VBool b => Some (JBool b)
  | VInt z => Some (JInt z)
  | VFloat m e => Some (JFloat m e)
  | VStr s => Some (JStr s)
  | VRef a =>
      match fuel with
      | O => None
      | S fuel =>
          match h !! a with
          | Some (OList vs) => JList <$> mapM (reify fuel h) vs
          | Some (ODict items) =>
              if bool_decide (NoDup items.*1)
              then JDict <$> mapM (λ kv, pair kv.1 <$> reify fuel h kv.2) items
              else None
          | None => None
          end
      end
  end.

Lemma reify_sound fuel : ∀ h v t, reify fuel h v = Some t → repr h v t.
Proof.
  induction fuel as [|fuel IH]; intros h v t Hr.
  - destruct v; simpl in Hr; by simplify_eq.
  - destruct v; simpl in Hr; try by simplify_eq.
    destruct (h !! a) as [[items|vs]|] eqn:Ha; [| |done].
    + case_bool_decide as Hnd; [|done].
      apply fmap_Some in Hr as (d & Hd & ->).
      apply mapM_Some in Hd.
      apply repr_dict. exists a, items. split_and!; [done..|].
      eapply Forall2_impl; [exact Hd|]. intros [k v] [k' t] Hkv. simpl in Hkv.
      apply fmap_Some in Hkv as (t0 & Ht0 & [= -> ->]). split; [done|]. by apply IH.
    + apply fmap_Some in Hr as (ts & Hts & ->).
      apply mapM_Some in Hts.
      apply repr_list. exists a, vs. split_and!; [done..|].
      eapply Forall2_impl; [exact Hts|]. intros v t Hv. by apply IH.
Qed.

(** *** A record with sharing, and the calls on it *)

Definition sample_heap : heap :=
  <[1%positive := ODict [("a", VStr "xxxxx"); ("b", VStr "ok"); ("c", VRef 2); ("d", VRef 3)]]>
  (<[2%positive := OList [VStr "yyyyy"; VRef 3; VInt 7]]>
  (<[3%positive := ODict [("z", VStr "toolong"); ("n", VNone)]]> ∅)).

Definition sample_inner : json := JDict [("z", JStr "toolong"); ("n", JNone)].

Definition sample_record : list (string * json) :=
  [("a", JStr "xxxxx"); ("b", JStr "ok");
   ("c", JList [JStr "yyyyy"; sample_inner; JInt 7]); ("d", sample_inner)].

Lemma sample_repr : repr sample_heap (VRef 1) (JDict sample_record).
Proof. apply (reify_sound 3). by vm_compute. Qed.

Example sample_trimmed :
  (trim_measurement 3 sample_heap (VRef 1) 4 ≫= λ hv, reify 3 hv.1 hv.2)
  = Some (JDict [("b", JStr "ok");
                 ("c", JList [JStr "yyyyy"; JDict [("n", JNone)]; JInt 7]);
                 ("d", JDict [("n", JNone)])]).
Proof. by vm_compute. Qed.

Definition sample_items : list (string * value) :=
  [("a", VStr "xxxxx"); ("b", VStr "ok"); ("c", VRef 2); ("d", VRef 3)].

Lemma trim_measurement_dict_in_place_witness :
  sample_heap !! 1%positive = Some (ODict sample_items) ∧
  repr sample_heap (VRef 1) (JDict sample_record) ∧
  (height (JDict sample_record) ≤ 3)%nat ∧
  ∃ h',
    trim_measurement 3 sample_heap (VRef 1) 4 = Some (h', VRef 1) ∧
    h' !! 1%positive = Some (ODict [("b", VStr "ok"); ("c", VRef 2); ("d", VRef 3)]) ∧
    repr h' (VRef 1) (trim_value (JDict sample_record) 4).
Proof.
  assert (sample_heap !! 1%positive = Some (ODict sample_items)) as Ha by (by vm_compute).
  assert ((height (JDict sample_record) ≤ 3)%nat) as Hh by (vm_compute; lia).
  split_and!; [done|apply sample_repr|done|].
  destruct (trim_measurement_dict_in_place 4 sample_heap 1 sample_items
              sample_record 3 Ha sample_repr Hh) as (h' & Hrun & Ha' & _ & _ & Hd').
  exists h'. by split_and!.
Defined.

Lemma trim_measurement_idempotent_witness :
  repr sample_heap (VRef 1) (JDict sample_record) ∧
  (height (JDict sample_record) ≤ 3)%nat ∧
  ∃ h',
    trim_measurement 3 sample_heap (VRef 1) 4 = Some (h', VRef 1) ∧
    trim_measurement 3 h' (VRef 1) 4 = Some (h', VRef 1).
Proof.
  assert ((height (JDict sample_record) ≤ 3)%nat) as Hh by (vm_compute; lia).
  split_and!; [apply sample_repr|done|].
  destruct (trim_measurement_idempotent 4 sample_heap (VRef 1) (JDict sample_record) 3
              sample_repr Hh) as (_ & h' & Hrun & _ & Hagain).
  exists h'. by split.
Defined.

Lemma trim_measurement_frame_witness :
  (∀ a, VStr "a string longer than four" ≠ VRef a) ∧
  trim_measurement 0 sample_heap (VStr "a string longer than four") 4
    = Some (sample_heap, VStr "a string longer than four") ∧
  sample_heap !! 2%positive = Some (OList [VStr "yyyyy"; VRef 3; VInt 7]) ∧
  repr sample_heap (VRef 2) (JList [JStr "yyyyy"; sample_inner; JInt 7]) ∧
  ∃ h', trim_measurement 2 sample_heap (VRef 2) 4 = Some (h', VRef 2) ∧
        h' !! 2%positive = Some (OList [VStr "yyyyy"; VRef 3; VInt 7]).
Proof.
  destruct (trim_measurement_frame 4) as (Hscalar & Hlist & _ & _).
  assert (∀ a, VStr "a string longer than four" ≠ VRef a) as Hs by done.
  assert (sample_heap !! 2%positive = Some (OList [VStr "yyyyy"; VRef 3; VInt 7]))
    as Ha by (by vm_compute).
  assert (repr sample_heap (VRef 2) (JList [JStr "yyyyy"; sample_inner; JInt 7])) as Hr.
  { apply (reify_sound 2). by vm_compute. }
  split_and!; [done|by apply Hscalar|done|done|].
  destruct (Hlist 2%nat sample_heap 2%positive _ _ Ha Hr) as (h' & Hrun & Ha' & _).
  - vm_compute. lia.
  - exists h'. by split.
Defined.

(** * Local paths

    [pathlib] on POSIX: a path is its root ([""], ["/"] or ["//"]) and the
    components after it; parsing a string splits it at slashes and drops
    the empty and ["."] components. *)

(** [s.split(sep)] for a one-character separator. *)
Fixpoint split_chr (sep : ascii) (s : string) : list string :=
  match s with
  | EmptyString => [EmptyString]
  | String c s' =>
      if decide (c = sep) then EmptyString :: split_chr sep s'
      else match split_chr sep s' with
           | [] => [String c EmptyString]
           | w :: ws => String c w :: ws
           end
  end.

(** [sep.join(pieces)] *)
Fixpoint join_chr (sep : ascii) (pieces : list string) : string :=
  match pieces with
  | [] => EmptyString
  | [w] => w
  | w :: ws => w +:+ String sep (join_chr sep ws)
  end.

(** [s.rsplit(sep, maxsplit)]: at most [maxsplit] splits, the rightmost
    ones. *)
Definition rsplit (sep : ascii) (maxsplit : nat) (s : string) : list string :=
  let pieces := split_chr sep s in
  let n := length pieces in
  if decide (n ≤ S maxsplit)%nat then pieces
  else join_chr sep (take (n - maxsplit) pieces) :: drop (n - maxsplit) pieces.

Fixpoint string_drop (n : nat) (s : string) : string :=
  match n, s with
  | O, _ => s
  | S n, String _ s' => string_drop n s'
  | S _, EmptyString => EmptyString
  end.

(** [s.endswith(suffix)] *)
Definition endswith (s suffix : string) : bool :=
  bool_decide (String.length suffix ≤ String.length s)%nat &&
  bool_decide (string_drop (String.length s - String.length suffix) s = suffix).

Record path : Type := Path { root : string; parts : list string }.

Global Instance path_eq_dec : EqDecision path.
Proof. solve_decision. Defined.

Global Instance path_countable : Countable path.
Proof.
  apply (inj_countable' (λ p, (root p, parts p)) (λ rp, Path rp.1 rp.2)).
  by intros [].
Defined.

(** [posixpath.splitroot]: one leading slash or three and more give the
    root ["/"], exactly two give ["//"]. *)
Definition posix_root (s : string) : string :=
  match s with
  | String "/" (String "/" (String "/" _)) => "/"
  | String "/" (String "/" _) => "//"
  | String "/" _ => "/"
  | _ => ""
  end.

Definition posix_parts (s : string) : list string :=
  filter (λ x, x ≠ "" ∧ x ≠ ".") (split_chr "/" s).

(** [pathlib.PurePosixPath(s)] *)
Definition PurePosixPath (s : string) : path :=
  {| root := posix_root s; parts := posix_parts s |}.

(** [p.name]: the final component, [''] when there is none. *)
Definition name (p : path) : string := List.last (parts p) "".

(** [p / s]: an absolute right operand replaces the left one. *)
Definition joinpath (p : path) (s : string) : path :=
  let q := PurePosixPath s in
  if decide (root q = "") then {| root := root p; parts := (parts p ++ parts q)%list |}
  else q.

Infix "//" := joinpath (at level 40, left associativity).

(** [p.parent] *)
Definition parent (p : path) : path :=
  {| root := root p; parts := removelast (parts p) |}.

(** [p.with_name(n)]; [None] is the [ValueError] for a path without a name
    or a name that is not a single component. *)
Definition with_name (p : path) (n : string) : option path :=
  if decide (name p = "") then None
  else if decide (PurePosixPath n = Path "" [n])
       then Some {| root := root p; parts := (removelast (parts p) ++ [n])%list |}
       else None.

(** Dates and [f'{date:%Y-%m-%d}'].  The format is handed to the C
    library's [strftime]: [%m] and [%d] are zero-filled to two digits;
    [%Y] is the year as a decimal number, which glibc does not fill (year
    5 gives ["5"]). *)
Record date : Type := Date { year : nat; month : nat; day : nat }.

Definition digit (n : nat) : ascii :=
  ascii_of_nat (48 + n `mod` 10).

(** Decimal digits of [n], most significant first, as C's [%d] prints
    them. *)
Fixpoint decimal_go (fuel n : nat) (acc : string) : string :=
  let acc := String (digit n) acc in
  match fuel with
  | O => acc
  | S fuel => if (n <? 10)%nat then acc else decimal_go fuel (n / 10)%nat acc
  end.

Definition decimal (n : nat) : string := decimal_go n n "".

(** C's [%02d]. *)
Definition zero_filled2 (n : nat) : string :=
  if (n <? 10)%nat then String "0" (decimal n) else decimal n.

Definition strftime_ymd (d : date) : string :=
  decimal (year d) +:+ "-" +:+ zero_filled2 (month d) +:+ "-" +:+ zero_filled2 (day d).




(** Reading a decimal number. *)
Definition digit_value (c : ascii) : nat := (nat_of_ascii c - 48)%nat.

Fixpoint decimal_value_go (acc : nat) (s : string) : nat :=
  match s with
  | EmptyString => acc
  | String c s => decimal_value_go (10 * acc + digit_value c) s
  end.

Definition decimal_value (s : string) : nat := decimal_value_go 0 s.

(** What the task uses of [urllib]'s parse result: its [path] component
    and the string [geturl()] puts together. *)
Record ParseResult : Type := { url_path : string; geturl : string }.

(** [ooni_client.FileEntry], as far as this module reads it. *)
Record FileEntry : Type := {
  url : ParseResult;
  country : string;
  test_type : string;
  entry_date : date;
  size : Z
}.

Definition _make_local_path (output_dir : path) (entry : FileEntry) : path :=
  let basename := name (PurePosixPath (url_path (url entry))) in
  (* Convert .json.lz4 and .tar.lz4 filenames. *)
  let basename :=
    if endswith basename ".jsonl.gz" then basename
    else hd "" (rsplit "." 2 basename) +:+ ".jsonl.gz" in
  output_dir // country entry // test_type entry // strftime_ymd (entry_date entry)
             // basename.

Definition sample_entry : FileEntry :=
  {| url := {| url_path := "/autoclaved/jsonl.tar.lz4/2020-03-01/web_connectivity.42.tar.lz4";
               geturl := "https://ooni-data.s3.amazonaws.com/autoclaved/jsonl.tar.lz4/2020-03-01/web_connectivity.42.tar.lz4" |};
     country := "XX"; test_type := "webconnectivity";
     entry_date := Date 2020 3 1; size := 123456 |}.

Example sample_local_path :
  _make_local_path (Path "/" ["data"; "ooni"]) sample_entry
  = Path "/" ["data"; "ooni"; "XX"; "webconnectivity"; "2020-03-01";
              "web_connectivity.42.jsonl.gz"].
Proof. by vm_compute. Qed.

(** ** Splitting and joining *)

Fixpoint contains_chr (c : ascii) (s : string) : bool :=
  match s with
  | EmptyString => false
  | String c' s' => bool_decide (c' = c) || contains_chr c s'
  end.

(** A single path component. *)
Definition plain (s : string) : Prop :=
  s ≠ "" ∧ s ≠ "." ∧ contains_chr "/" s = false.

Lemma string_app_nil_r (s : string) : s +:+ "" = s.
Proof.
  induction s as [|c s IH]; [done|].
  change (String c (s +:+ "") = String c s). by rewrite IH.
Qed.

Lemma string_app_assoc (s1 s2 s3 : string) : (s1 +:+ s2) +:+ s3 = s1 +:+ (s2 +:+ s3).
Proof.
  induction s1 as [|c s1 IH]; [done|].
  change (String c ((s1 +:+ s2) +:+ s3) = String c (s1 +:+ (s2 +:+ s3))). by rewrite IH.
Qed.

Lemma string_app_length (s1 s2 : string) :
  String.length (s1 +:+ s2) = (String.length s1 + String.length s2)%nat.
Proof. induction s1 as [|c s1 IH]; [done|]. simpl. by rewrite IH. Qed.

Lemma contains_chr_app c s1 s2 :
  contains_chr c (s1 +:+ s2) = contains_chr c s1 || contains_chr c s2.
Proof.
  induction s1 as [|c' s1 IH]; simpl; [done|]. by rewrite IH, orb_assoc.
Qed.

Lemma split_chr_cons c s : ∃ w ws, split_chr c s = w :: ws.
Proof.
  induction s as [|c' s (w & ws & IH)]; simpl; [by eauto|].
  destruct (decide (c' = c)); [by eauto|]. rewrite IH. eauto.
Qed.

Lemma split_chr_none c s : contains_chr c s = false → split_chr c s = [s].
Proof.
  induction s as [|c' s IH]; simpl; [done|].
  intros [Hc Hs]%orb_false_elim. apply bool_decide_eq_false in Hc.
  rewrite decide_False by done. by rewrite IH.
Qed.

Lemma split_chr_app c a b :
  split_chr c (a +:+ String c b) = (split_chr c a ++ split_chr c b)%list.
Proof.
  induction a as [|c' a IH]; simpl.
  - by rewrite decide_True.
  - destruct (decide (c' = c)); [by rewrite IH|].
    rewrite IH. by destruct (split_chr_cons c a) as (w & ws & ->).
Qed.

Lemma split_chr_pieces c s : Forall (λ w, contains_chr c w = false) (split_chr c s).
Proof.
  induction s as [|c' s IH]; simpl; [by repeat constructor|].
  destruct (decide (c' = c)); [by constructor|].
  destruct (split_chr c s) as [|w ws]; [by repeat constructor; simpl; rewrite bool_decide_eq_false_2|].
  apply Forall_cons in IH as [Hw Hws]. constructor; [|done].
  simpl. by rewrite Hw, bool_decide_eq_false_2.
Qed.

Lemma join_split_chr c s : join_chr c (split_chr c s) = s.
Proof.
  induction s as [|c' s IH]; simpl; [done|].
  destruct (split_chr_cons c s) as (w & ws & Hs). rewrite Hs in *.
  destruct (decide (c' = c)) as [->|].
  - change (join_chr c ("" :: w :: ws)) with (String c (join_chr c (w :: ws))).
    by rewrite IH.
  - destruct ws as [|w' ws]; [simpl in *; by rewrite IH|].
    change (join_chr c (String c' w :: w' :: ws))
      with (String c' (join_chr c (w :: w' :: ws))).
    by rewrite IH.
Qed.

Lemma join_chr_app c l1 l2 :
  l1 ≠ [] → l2 ≠ [] →
  join_chr c (l1 ++ l2) = join_chr c l1 +:+ String c (join_chr c l2).
Proof.
  induction l1 as [|w [|w' l1] IH]; intros H1 H2; [done| |].
  - simpl. by destruct l2.
  - change (join_chr c ((w :: w' :: l1) ++ l2))
      with (w +:+ String c (join_chr c ((w' :: l1) ++ l2))).
    rewrite IH by done.
    change (join_chr c (w :: w' :: l1)) with (w +:+ String c (join_chr c (w' :: l1))).
    generalize (join_chr c (w' :: l1)). intros x.
    symmetry. apply (string_app_assoc w (String c x)).
Qed.

(** The first piece of a right split is a prefix of the string. *)
Lemma rsplit_head_prefix c n s : ∃ rest, s = hd "" (rsplit c n s) +:+ rest.
Proof.
  unfold rsplit. destruct (split_chr_cons c s) as (w & ws & Hs).
  pose proof (join_split_chr c s) as Hj. rewrite Hs in *.
  case_decide as Hn.
  - simpl hd. destruct ws as [|w' ws].
    + exists "". simpl in Hj. subst s. by rewrite string_app_nil_r.
    + exists (String c (join_chr c (w' :: ws))). by rewrite <- Hj.
  - simpl hd. destruct (decide (n = 0%nat)) as [->|Hn0].
    { exists "". rewrite Nat.sub_0_r, take_ge, Hj by done. by rewrite string_app_nil_r. }
    remember (length (w :: ws) - n)%nat as k.
    rewrite <- (take_drop k (w :: ws)) in Hj at 1.
    rewrite join_chr_app in Hj.
    + exists (String c (join_chr c (drop k (w :: ws)))). rewrite <- Hj. by subst k.
    + intros Ht. apply (f_equal length) in Ht. rewrite length_take in Ht.
      cbn [length] in *. lia.
    + intros Ht. apply (f_equal length) in Ht. rewrite length_drop in Ht.
      cbn [length] in *. lia.
Qed.

(** The three shapes of a name and what [rsplit('.', 2)[0]] makes of them. *)
Lemma rsplit_two_suffixes stem s1 s2 :
  contains_chr "." s1 = false → contains_chr "." s2 = false →
  hd "" (rsplit "." 2 (stem +:+ String "." (s1 +:+ String "." s2))) = stem.
Proof.
  intros H1 H2. unfold rsplit.
  rewrite !split_chr_app, (split_chr_none _ s1), (split_chr_none _ s2) by done.
  pose proof (join_split_chr "." stem) as Hj.
  destruct (split_chr_cons "." stem) as (w & ws & Hs). rewrite Hs in *.
  assert (length (w :: ws ++ [s1] ++ [s2]) - 2 = length (w :: ws))%nat as Hlen.
  { cbn [length]. rewrite !length_app. cbn [length]. lia. }
  case_decide as Hn.
  - destruct ws; [done|]. rewrite !length_app in Hn. simpl in Hn. lia.
  - cbn [hd]. change ((w :: ws) ++ [s1] ++ [s2]) with (w :: ws ++ [s1] ++ [s2]).
    rewrite Hlen. change (w :: ws ++ [s1] ++ [s2]) with ((w :: ws) ++ [s1] ++ [s2]).
    by rewrite take_app_length.
Qed.



(** ** Components *)

Lemma endswith_length s suffix :
  endswith s suffix = true → (String.length suffix ≤ String.length s)%nat.
Proof.
  unfold endswith. intros [H _]%andb_prop. by apply bool_decide_eq_true in H.
Qed.

Lemma plain_root s : plain s → posix_root s = "".
Proof.
  intros (Hne & _ & Hs). destruct s as [|c s]; [done|].
  simpl in Hs. apply orb_false_elim in Hs as [Hc _].
  apply bool_decide_eq_false in Hc.
  unfold posix_root.
  destruct c as [[] [] [] [] [] [] [] []]; try done.
Qed.

Lemma PurePosixPath_plain s : plain s → PurePosixPath s = Path "" [s].
Proof.
  intros Hs. unfold PurePosixPath. rewrite (plain_root s Hs).
  destruct Hs as (Hne & Hdot & Hs). unfold posix_parts.
  rewrite split_chr_none by done. by rewrite filter_cons_True.
Qed.

Lemma joinpath_plain p s : plain s → p // s = Path (root p) (parts p ++ [s]).
Proof. intros Hs. unfold joinpath. by rewrite (PurePosixPath_plain s Hs). Qed.

Lemma last_Forall {A} (P : A → Prop) (l : list A) (d : A) :
  P d → Forall P l → P (List.last l d).
Proof.
  intros Hd. induction 1 as [|x l Hx Hl IH]; [done|].
  destruct l; [done|]. exact IH.
Qed.

Lemma name_no_slash s : contains_chr "/" (name (PurePosixPath s)) = false.
Proof.
  unfold name, PurePosixPath, posix_parts. simpl.
  apply (last_Forall (λ w, contains_chr "/" w = false)); [done|].
  pose proof (split_chr_pieces "/" s) as Hall.
  rewrite Forall_forall in Hall. apply Forall_forall. intros w Hw.
  apply list_elem_of_filter in Hw as [_ Hw]. by apply Hall.
Qed.


Definition canonical_basename (segment : string) : string :=
  if endswith segment ".jsonl.gz" then segment
  else hd "" (rsplit "." 2 segment) +:+ ".jsonl.gz".

Lemma canonical_basename_plain segment :
  contains_chr "/" segment = false → plain (canonical_basename segment).
Proof.
  intros Hs. unfold canonical_basename.
  destruct (endswith segment ".jsonl.gz") eqn:He.
  - apply endswith_length in He. simpl in He.
    split_and!; [| |done]; intros ->; simpl in He; lia.
  - destruct (rsplit_head_prefix "." 2 segment) as (rest & Hrest).
    set (stem := hd "" (rsplit "." 2 segment)) in *.
    assert (contains_chr "/" stem = false) as Hstem.
    { rewrite Hrest, contains_chr_app in Hs. by apply orb_false_elim in Hs as [? _]. }
    assert (String.length (stem +:+ ".jsonl.gz") = (String.length stem + 9)%nat) as Hlen.
    { by rewrite string_app_length. }
    split_and!.
    + intros E. rewrite E in Hlen. simpl in Hlen. lia.
    + intros E. rewrite E in Hlen. simpl in Hlen. lia.
    + rewrite contains_chr_app, Hstem. done.
Qed.

Lemma digit_not_slash n : bool_decide (digit n = "/"%char) = false.
Proof.
  unfold digit. pose proof (Nat.mod_upper_bound n 10 ltac:(done)) as Hlt.
  destruct (n `mod` 10)%nat as [|[|[|[|[|[|[|[|[|[|k]]]]]]]]]]; [by vm_compute..|lia].
Qed.

Example decimal_2020 : decimal 2020 = "2020" ∧ decimal 5 = "5" ∧ decimal 0 = "0".
Proof. by vm_compute. Qed.

Lemma decimal_go_small fuel n acc :
  (n < 10)%nat → decimal_go fuel n acc = String (digit n) acc.
Proof.
  intros Hn. destruct fuel; [done|]. cbn [decimal_go].
  by destruct (Nat.ltb_spec n 10); [|lia].
Qed.

Lemma decimal_go_big fuel n acc :
  (10 ≤ n)%nat →
  decimal_go (S fuel) n acc = decimal_go fuel (n / 10)%nat (String (digit n) acc).
Proof.
  intros Hn. cbn [decimal_go]. by destruct (Nat.ltb_spec n 10); [lia|].
Qed.

Lemma div10_le n fuel : (10 ≤ n)%nat → (n ≤ S fuel)%nat → (n / 10 ≤ fuel)%nat.
Proof.
  intros Hn Hf. pose proof (Nat.div_mod_eq n 10) as Hdm.
  revert Hdm. generalize (n / 10)%nat (n `mod` 10)%nat. intros. lia.
Qed.



Lemma digit_value_digit n : digit_value (digit n) = (n `mod` 10)%nat.
Proof.
  unfold digit_value, digit.
  pose proof (Nat.mod_upper_bound n 10 ltac:(done)) as Hlt.
  rewrite nat_ascii_embedding by lia. lia.
Qed.

Lemma decimal_value_go_decimal fuel :
  ∀ n rest, (n ≤ fuel)%nat →
    decimal_value_go 0 (decimal_go fuel n rest) = decimal_value_go n rest.
Proof.
  induction fuel as [|fuel IH]; intros n rest Hn.
  - rewrite decimal_go_small by lia. cbn [decimal_value_go].
    rewrite digit_value_digit. f_equal. rewrite Nat.mod_small by lia. lia.
  - destruct (Nat.lt_ge_cases n 10) as [Hlt|Hge].
    + rewrite decimal_go_small by lia. cbn [decimal_value_go].
      rewrite digit_value_digit. f_equal. rewrite Nat.mod_small by lia. lia.
    + rewrite decimal_go_big by done. rewrite IH by (by apply div10_le).
      cbn [decimal_value_go]. rewrite digit_value_digit. f_equal.
      pose proof (Nat.div_mod_eq n 10). lia.
Qed.

Lemma decimal_value_decimal n : decimal_value (decimal n) = n.
Proof. unfold decimal_value, decimal. by rewrite decimal_value_go_decimal. Qed.

Lemma decimal_value_zero_filled2 n : decimal_value (zero_filled2 n) = n.
Proof.
  unfold zero_filled2. destruct (n <? 10)%nat; [|apply decimal_value_decimal].
  unfold decimal_value. cbn [decimal_value_go].
  change (10 * 0 + digit_value "0")%nat with 0%nat. apply decimal_value_decimal.
Qed.

(** The characters of a decimal number are digits. *)
Section not_a_digit.
Context (c : ascii) (Hc : ∀ n, bool_decide (digit n = c) = false).

Lemma decimal_go_no_chr fuel :
  ∀ n acc, contains_chr c (decimal_go fuel n acc) = contains_chr c acc.
Proof.
  induction fuel as [|fuel IH]; intros n acc.
  - cbn [decimal_go contains_chr]. by rewrite Hc.
  - cbn [decimal_go]. destruct (n <? 10)%nat.
    + cbn [contains_chr]. by rewrite Hc.
    + rewrite IH. cbn [contains_chr]. by rewrite Hc.
Qed.

Lemma decimal_no_chr n : contains_chr c (decimal n) = false.
Proof. unfold decimal. by rewrite decimal_go_no_chr. Qed.

Lemma zero_filled2_no_chr n : "0"%char ≠ c → contains_chr c (zero_filled2 n) = false.
Proof.
  intros H0. unfold zero_filled2. destruct (n <? 10)%nat; [|apply decimal_no_chr].
  cbn [contains_chr]. by rewrite decimal_no_chr, bool_decide_eq_false_2.
Qed.
End not_a_digit.

Lemma digit_not_dash n : bool_decide (digit n = "-"%char) = false.
Proof.
  unfold digit. pose proof (Nat.mod_upper_bound n 10 ltac:(done)) as Hlt.
  destruct (n `mod` 10)%nat as [|[|[|[|[|[|[|[|[|[|k]]]]]]]]]]; [by vm_compute..|lia].
Qed.

Lemma strftime_ymd_split d :
  split_chr "-" (strftime_ymd d)
  = [decimal (year d); zero_filled2 (month d); zero_filled2 (day d)].
Proof.
  unfold strftime_ymd.
  change ("-" +:+ zero_filled2 (month d) +:+ "-" +:+ zero_filled2 (day d))
    with (String "-" (zero_filled2 (month d) +:+ String "-" (zero_filled2 (day d)))).
  rewrite !split_chr_app.
  rewrite (split_chr_none "-" (decimal _)) by apply decimal_no_chr, digit_not_dash.
  by rewrite !(split_chr_none "-" (zero_filled2 _))
    by (by apply zero_filled2_no_chr; [apply digit_not_dash|]).
Qed.

(** The date can be read back from the component. *)
Lemma strftime_ymd_read d :
  decimal_value <$> split_chr "-" (strftime_ymd d) = [year d; month d; day d].
Proof.
  rewrite strftime_ymd_split. cbn [fmap list_fmap].
  by rewrite decimal_value_decimal, !decimal_value_zero_filled2.
Qed.

Lemma strftime_ymd_inj d1 d2 : strftime_ymd d1 = strftime_ymd d2 → d1 = d2.
Proof.
  intros H. pose proof (strftime_ymd_read d1) as H1. rewrite H, strftime_ymd_read in H1.
  destruct d1 as [y1 m1 a1], d2 as [y2 m2 a2]. cbn [year month day] in H1.
  by injection H1 as -> -> ->.
Qed.

Lemma strftime_ymd_plain d : plain (strftime_ymd d).
Proof.
  assert (contains_chr "-" (strftime_ymd d) = true) as Hdash.
  { unfold strftime_ymd. rewrite contains_chr_app.
    change ("-" +:+ zero_filled2 (month d) +:+ "-" +:+ zero_filled2 (day d))
      with (String "-" (zero_filled2 (month d) +:+ String "-" (zero_filled2 (day d)))).
    cbn [contains_chr]. rewrite bool_decide_eq_true_2 by done. by rewrite orb_true_r. }
  split_and!.
  - intros E. by rewrite E in Hdash.
  - intros E. by rewrite E in Hdash.
  - unfold strftime_ymd. rewrite !contains_chr_app.
    rewrite (decimal_no_chr _ digit_not_slash).
    by rewrite !(zero_filled2_no_chr _ digit_not_slash) by done.
Qed.




(** ** Path resolution: the claim *)





Example basename_kept : canonical_basename "2021030100.jsonl.gz" = "2021030100.jsonl.gz".
Proof. by vm_compute. Qed.

Example basename_one_suffix : canonical_basename "report.json" = "report.jsonl.gz".
Proof. by vm_compute. Qed.

Example basename_no_suffix : canonical_basename "report" = "report.jsonl.gz".
Proof. by vm_compute. Qed.

(** * The per-entry task

    The tasks run against a world: the file system, the client's transfer
    counters, the closed-over [num_measurements] and a trace of the
    operations performed.  One task runs at a time here; the interleaving of
    the counter updates of two tasks is modelled separately below. *)

(** What a compressed text file holds: the serialised records and the
    newlines handed to the stream.  A file is [sealed] once its stream has
    been flushed and closed; until then what is on disk is some prefix of
    the compressed data without the gzip trailer, which does not decompress
    to the end. *)
Inductive chunk : Type :=
  | Dumped (m : json)
  | Newline.

Record file : Type := File { chunks : list chunk; sealed : bool }.

(** The operations at which the environment can fail a task. *)
Inductive io_op : Type :=
  | OpMakedirs
  | OpOpen
  | OpNext (k : nat)
  | OpDump (k : nat)
  | OpWrite (k : nat)
  | OpReplace
  | OpClose
  | OpUnlink.

Inductive exn : Type :=
  | CostLimitError (bytes_downloaded : Z)
  | FileNotFoundError (p : path)
  | FileExistsError (p : path)
  | NotADirectoryError (p : path)
  | IsADirectoryError (p : path)
  | ValueError
  | Failure (op : io_op).

(** The messages the tasks return, [f'Skipped existing {url}]'] and
    [f'Downloaded {url} [{size:,} bytes]']. *)
Inductive message : Type :=
  | Skipped_existing (url : string)
  | Downloaded (url : string) (size : Z).

Inductive event : Type :=
  | EvIsFile (p : path)
  | EvMakedirs (p : path)
  | EvReadCost
  | EvOpen (p : path)
  | EvNext (url : string) (k : nat)
  | EvDump (k : nat)
  | EvWrite (k : nat)
  | EvReplace (src dst : path)
  | EvClose (fh : positive)
  | EvUnlink (p : path)
  | EvLog (msg : message)
  | EvSummary (num_measurements : Z) (bytes_downloaded : Z) (cost_usd : Qc).

Record world : Type := World {
  dirs : gset path;                 (* the directories *)
  names : gmap path positive;       (* the regular files: path to inode *)
  inodes : gmap positive file;      (* the content of each inode *)
  cost_usd : Qc;                    (* ooni.cost_usd *)
  bytes_downloaded : Z;             (* ooni.bytes_downloaded *)
  num_measurements : Z;             (* the closed-over counter of main *)
  trace : list event
}.

Definition set_dirs (f : gset path → gset path) (w : world) : world :=
  World (f (dirs w)) (names w) (inodes w) (cost_usd w) (bytes_downloaded w)
        (num_measurements w) (trace w).
Definition set_names (f : gmap path positive → gmap path positive) (w : world) : world :=
  World (dirs w) (f (names w)) (inodes w) (cost_usd w) (bytes_downloaded w)
        (num_measurements w) (trace w).
Definition set_inodes (f : gmap positive file → gmap positive file) (w : world) : world :=
  World (dirs w) (names w) (f (inodes w)) (cost_usd w) (bytes_downloaded w)
        (num_measurements w) (trace w).
Definition add_transfer (bc : Z * Qc) (w : world) : world :=
  World (dirs w) (names w) (inodes w) (cost_usd w + bc.2)%Qc (bytes_downloaded w + bc.1)
        (num_measurements w) (trace w).
Definition incr_num_measurements (w : world) : world :=
  World (dirs w) (names w) (inodes w) (cost_usd w) (bytes_downloaded w)
        (num_measurements w + 1) (trace w).
Definition add_event (e : event) (w : world) : world :=
  World (dirs w) (names w) (inodes w) (cost_usd w) (bytes_downloaded w)
        (num_measurements w) (trace w ++ [e]).

(** A computation returns a value or raises; the world it leaves behind is
    kept in both cases. *)
Inductive result (A : Type) : Type :=
  | Ok (a : A)
  | Raise (e : exn).
Arguments Ok {A} a.
Arguments Raise {A} e.

Definition M (A : Type) : Type := world → result A * world.

Global Instance M_ret : MRet M := λ A a w, (Ok a, w).
Global Instance M_bind : MBind M := λ A B f m w,
  match m w with
  | (Ok a, w') => f a w'
  | (Raise e, w') => (Raise e, w')
  end.

Definition raise {A} (e : exn) : M A := λ w, (Raise e, w).
Definition log (e : event) : M unit := λ w, (Ok (), add_event e w).
Definition get {A} (f : world → A) : M A := λ w, (Ok (f w), w).
Definition modify (f : world → world) : M unit := λ w, (Ok (), f w).

(** [try: body / except: handler; raise]: the handler runs on any
    exception; if it returns, the exception is raised again, and if it
    raises, its exception is the one that propagates. *)
Definition try_except_reraise {A} (body : M A) (handler : M unit) : M A := λ w,
  match body w with
  | (Ok a, w') => (Ok a, w')
  | (Raise e, w') =>
      match handler w' with
      | (Ok _, w'') => (Raise e, w'')
      | (Raise e', w'') => (Raise e', w'')
      end
  end.

(** [with open_ as fh: body]: the stream is closed on the way out, also
    when the body raises; an exception of [close] replaces the one of the
    body. *)
Definition with_stream {H A} (open_ : M H) (close : H → M unit) (body : H → M A) : M A :=
  fh ← open_;
  λ w, match body fh w with
       | (Ok a, w') => (close fh ≫= λ _, mret a) w'
       | (Raise e, w') =>
           match close fh w' with
           | (Ok _, w'') => (Raise e, w'')
           | (Raise e', w'') => (Raise e', w'')
           end
       end.

(** An operation fails when the environment says so. *)
Definition fault (faults : io_op → bool) (op : io_op) : M unit :=
  if faults op then raise (Failure op) else mret ().

(** ** The file system operations *)

(** The directories [os.makedirs] goes through, outermost first. *)
Definition ancestors (p : path) : list path :=
  (λ k, Path (root p) (take k (parts p))) <$> seq 1 (length (parts p)).

(** [path.is_file()] *)
Definition is_file (p : path) : M bool :=
  log (EvIsFile p);; get (λ w, bool_decide (p ∈ dom (names w))).

(** [os.makedirs(p, exist_ok=True)]: the missing directories are made,
    outermost first.  A regular file in the way makes [mkdir] fail, on the
    component below the file with [NotADirectoryError], on the file
    itself, when it is the last component, with [FileExistsError]; nothing
    is made then, the directories above an existing file being there. *)
Definition makedirs (faults : io_op → bool) (p : path) : M unit :=
  log (EvMakedirs p);;
  fault faults OpMakedirs;;
  regular ← get (λ w, list_find (λ q, q ∈ dom (names w)) (ancestors p));
  match regular with
  | Some (k, q) =>
      match ancestors p !! S k with
      | Some below => raise (NotADirectoryError below)
      | None => raise (FileExistsError q)
      end
  | None => modify (set_dirs (λ d, d ∪ list_to_set (ancestors p)))
  end.

(** [gzip.open(p, mode='wt', ...)]: creates the file or truncates it. *)
Definition gzip_open (faults : io_op → bool) (p : path) : M positive :=
  log (EvOpen p);;
  fault faults OpOpen;;
  w ← get id;
  if bool_decide (p ∈ dirs w) then raise (IsADirectoryError p)
  else if bool_decide (parts (parent p) ≠ [] ∧ parent p ∉ dirs w)
  then raise (FileNotFoundError p)
  else match names w !! p with
       | Some fh => modify (set_inodes <[fh := File [] false]>);; mret fh
       | None =>
           let fh := fresh (dom (inodes w)) in
           modify (set_names <[p := fh]>);;
           modify (set_inodes <[fh := File [] false]>);;
           mret fh
       end.

(** Text handed to the stream reaches the file it was opened on, under
    whatever name that file has by then. *)
Definition stream_write (fh : positive) (c : chunk) : M unit :=
  modify (set_inodes (alter (λ f, File (chunks f ++ [c]) (sealed f)) fh)).

(** Leaving the [with] block: flush, write the trailer, close. *)
Definition stream_close (faults : io_op → bool) (fh : positive) : M unit :=
  log (EvClose fh);;
  fault faults OpClose;;
  modify (set_inodes (alter (λ f, File (chunks f) true) fh)).

(** [src.replace(dst)]: an atomic rename over the destination. *)
Definition replace (faults : io_op → bool) (src dst : path) : M unit :=
  log (EvReplace src dst);;
  fault faults OpReplace;;
  w ← get id;
  match names w !! src with
  | None => raise (FileNotFoundError src)
  | Some fh =>
      if bool_decide (dst ∈ dirs w) then raise (IsADirectoryError dst)
      else modify (set_names (λ n, <[dst := fh]> (delete src n)))
  end.

(** [p.unlink()]: a directory is not unlinked. *)
Definition unlink (faults : io_op → bool) (p : path) : M unit :=
  log (EvUnlink p);;
  fault faults OpUnlink;;
  w ← get id;
  if bool_decide (p ∈ dirs w) then raise (IsADirectoryError p)
  else match names w !! p with
       | None => raise (FileNotFoundError p)
       | Some _ => modify (set_names (delete p))
       end.

(** ** The tasks *)

(** The client and what its entries deliver: the records
    [entry.get_measurements()] yields, and the bytes and cost the client
    books when the [k]-th of them is pulled. *)
Record OoniClient : Type := {
  get_measurements : FileEntry → list json;
  transfer : FileEntry → nat → Z * Qc
}.

(** The command line arguments the tasks read. *)
Record Args : Type := {
  output_dir : path;
  max_string_size : Z;
  cost_limit_usd : Qc
}.

(** The generator is resumed for its [k]-th record. *)
Definition next_measurement (faults : io_op → bool) (entry : FileEntry) (k : nat) : M unit :=
  log (EvNext (geturl (url entry)) k);;
  fault faults (OpNext k).

(** The [for measurement in entry.get_measurements()] loop, from the
    [k]-th record on. *)
Fixpoint write_measurements (args : Args) (ooni : OoniClient) (faults : io_op → bool)
    (entry : FileEntry) (target_file : positive) (k : nat) (pending : list json) : M unit :=
  match pending with
  | [] => next_measurement faults entry k
  | measurement :: rest =>
      next_measurement faults entry k;;
      modify (add_transfer (transfer ooni entry k));;
      modify incr_num_measurements;;
      let m := trim_value measurement (max_string_size args) in
      log (EvDump k);;
      fault faults (OpDump k);;
      stream_write target_file (Dumped m);;
      log (EvWrite k);;
      fault faults (OpWrite k);;
      stream_write target_file Newline;;
      write_measurements args ooni faults entry target_file (S k) rest
  end.

Definition fetch_file (args : Args) (ooni : OoniClient) (faults : io_op → bool)
    (entry : FileEntry) (target_file_path : path) : M message :=
  makedirs faults (parent target_file_path);;
  log EvReadCost;;
  cost ← get cost_usd;
  if bool_decide (cost_limit_usd args < cost)%Qc then
    bytes ← get bytes_downloaded;
    raise (CostLimitError bytes)
  else
    match with_name target_file_path (name target_file_path +:+ ".tmp") with
    | None => raise ValueError
    | Some temp_path =>
        try_except_reraise
          (with_stream (gzip_open faults temp_path) (stream_close faults)
             (λ target_file,
                write_measurements args ooni faults entry target_file 0
                  (get_measurements ooni entry);;
                replace faults temp_path target_file_path))
          (unlink faults temp_path);;
        mret (Downloaded (geturl (url entry)) (size entry))
    end.

Definition sync_file (args : Args) (ooni : OoniClient) (faults : io_op → bool)
    (entry : FileEntry) : M message :=
  let target_file_path := _make_local_path (output_dir args) entry in
  existing ← is_file target_file_path;
  if (existing : bool) then mret (Skipped_existing (geturl (url entry)))
  else fetch_file args ooni faults entry target_file_path.

(** [for msg in sync_pool.imap_unordered(sync_file, file_entries):
    logging.info(msg)], for a pool that runs one task at a time:
    [file_entries] is taken in the order in which the results reach the
    loop, and [faults i] is the environment of the [i]-th task.  The first
    exception that reaches the loop ends it.  The pool of the source runs
    several tasks at once and hands their results over as they complete:
    the order of the list stands for that order, and the interleaving of
    two tasks' updates of the counter is modelled separately below. *)
Fixpoint imap_unordered (args : Args) (ooni : OoniClient) (faults : nat → io_op → bool)
    (i : nat) (file_entries : list FileEntry) : M unit :=
  match file_entries with
  | [] => mret ()
  | entry :: rest =>
      msg ← sync_file args ooni (faults i) entry;
      log (EvLog msg);;
      imap_unordered args ooni faults (S i) rest
  end.

Definition main (args : Args) (ooni : OoniClient) (faults : nat → io_op → bool)
    (file_entries : list FileEntry) : M unit :=
  imap_unordered args ooni faults 0 file_entries;;
  w ← get id;
  log (EvSummary (num_measurements w) (bytes_downloaded w) (cost_usd w)).

(** [sys.exit(main(...))]: [main] returns [None], status 0; an exception
    that escapes ends the process with status 1. *)
Definition exit_status {A} (r : result A) : Z :=
  match r with
  | Ok _ => 0
  | Raise _ => 1
  end.

(** *** A run *)

Definition no_faults : io_op → bool := λ _, false.

Definition sample_args : Args :=
  {| output_dir := Path "/" ["data"]; max_string_size := 4; cost_limit_usd := 1%Qc |}.

Definition sample_client : OoniClient :=
  {| get_measurements := λ _, [JDict [("a", JStr "xxxxx"); ("b", JStr "ok")]; JList [JInt 1]];
     transfer := λ _ _, (100, 0%Qc) |}.

Definition empty_world : world := World ∅ ∅ ∅ 0%Qc 0 0 [].

Definition sample_target : path := _make_local_path (output_dir sample_args) sample_entry.

Definition file_at (w : world) (p : path) : option file :=
  fh ← names w !! p; inodes w !! fh.

Example sample_download :
  let '(r, w) := sync_file sample_args sample_client no_faults sample_entry empty_world in
  r = Ok (Downloaded (geturl (url sample_entry)) 123456) ∧
  file_at w sample_target
    = Some (File [Dumped (JDict [("b", JStr "ok")]); Newline;
                  Dumped (JList [JInt 1]); Newline] true) ∧
  num_measurements w = 2.
Proof. by vm_compute. Qed.

(** ** Running the tasks: basic facts *)

Ltac unfold_M :=
  repeat progress
    (unfold mbind, M_bind, mret, M_ret, raise, log, get, modify, fault in *; simpl in *).

Lemma sync_file_skips_existing_eq args ooni faults entry w :
  _make_local_path (output_dir args) entry ∈ dom (names w) →
  sync_file args ooni faults entry w
  = (Ok (Skipped_existing (geturl (url entry))),
     add_event (EvIsFile (_make_local_path (output_dir args) entry)) w).
Proof.
  intros Hin. unfold sync_file, is_file. unfold_M.
  by rewrite bool_decide_eq_true_2.
Qed.

(** C6. An entry whose local path names an existing file is skipped: the
    task returns the "skipped" message and all it has done is the
    [is_file] test (no directory is made, the cost is not read, no record
    is pulled, nothing is written); the run logs the message and goes on
    with the next entry. *)
Theorem sync_file_skips_existing args ooni faults i entry rest w :
  _make_local_path (output_dir args) entry ∈ dom (names w) →
  let target := _make_local_path (output_dir args) entry in
  let msg := Skipped_existing (geturl (url entry)) in
  sync_file args ooni (faults i) entry w = (Ok msg, add_event (EvIsFile target) w) ∧
  imap_unordered args ooni faults i (entry :: rest) w
  = imap_unordered args ooni faults (S i) rest
      (add_event (EvLog msg) (add_event (EvIsFile target) w)).
Proof.
  intros Hin target msg.
  pose proof (sync_file_skips_existing_eq args ooni (faults i) entry w Hin) as Hskip.
  split; [done|].
  simpl. unfold mbind at 1, M_bind at 1. rewrite Hskip. by unfold_M.
Qed.

(** What [makedirs] leaves alone: the regular files, their content and the
    counters; it adds one event. *)
Lemma makedirs_frame faults p w :
  ∃ r w', makedirs faults p w = (r, w') ∧
    names w' = names w ∧ inodes w' = inodes w ∧ cost_usd w' = cost_usd w ∧
    bytes_downloaded w' = bytes_downloaded w ∧
    num_measurements w' = num_measurements w ∧
    trace w' = trace w ++ [EvMakedirs p].
Proof.
  unfold makedirs. unfold_M. simpl.
  destruct (faults OpMakedirs); unfold_M; [by eexists _, _|].
  match goal with
  | |- context [list_find ?P ?l] => destruct (list_find P l) as [[k q]|]
  end; [destruct (ancestors p !! S k)|]; by eexists _, _.
Qed.

Lemma makedirs_ok faults p w :
  faults OpMakedirs = false →
  Forall (λ q, q ∉ dom (names w)) (ancestors p) →
  makedirs faults p w
  = (Ok (), set_dirs (λ d, d ∪ list_to_set (ancestors p)) (add_event (EvMakedirs p) w)).
Proof.
  intros Hf Hfree. unfold makedirs. unfold_M. rewrite Hf. unfold_M.
  match goal with
  | |- context [list_find ?P ?l] => destruct (list_find P l) as [[k q]|] eqn:Hfind
  end; [|done].
  apply list_find_Some in Hfind as (Hq & Hin & _).
  rewrite Forall_forall in Hfree. destruct (Hfree q); [|done].
  by eapply list_elem_of_lookup_2.
Qed.

(** The events of a task that touches neither the network nor a file. *)
Definition quiet (ev : event) : Prop :=
  match ev with
  | EvIsFile _ | EvMakedirs _ | EvReadCost | EvLog _ => True
  | _ => False
  end.

(** No regular file is in the way of the directories of the target. *)
Definition dirs_free (w : world) (target : path) : Prop :=
  Forall (λ q, q ∉ dom (names w)) (ancestors (parent target)).

Lemma fetch_file_over_limit args ooni faults entry target w :
  (cost_limit_usd args < cost_usd w)%Qc →
  ∃ e w', fetch_file args ooni faults entry target w = (Raise e, w') ∧
    names w' = names w ∧ inodes w' = inodes w ∧
    cost_usd w' = cost_usd w ∧ bytes_downloaded w' = bytes_downloaded w ∧
    num_measurements w' = num_measurements w ∧
    (∃ evs, trace w' = trace w ++ evs ∧ Forall quiet evs) ∧
    (faults OpMakedirs = false → dirs_free w target →
     e = CostLimitError (bytes_downloaded w) ∧
     trace w' = trace w ++ [EvMakedirs (parent target); EvReadCost]).
Proof.
  intros Hover. unfold fetch_file.
  destruct (makedirs_frame faults (parent target) w)
    as (r & w1 & Hrun & Hn & Hi & Hc & Hb & Hm & Ht).
  unfold mbind at 1. unfold M_bind at 1. rewrite Hrun.
  destruct r as [[]|e].
  - unfold_M. simpl. rewrite Hc, bool_decide_eq_true_2 by done.
    eexists _, _. split; [done|]. simpl. rewrite Ht, Hb, <- app_assoc. simpl.
    split_and!; try done.
    exists [EvMakedirs (parent target); EvReadCost]. split; [done|]. by repeat constructor.
  - exists e, w1. split_and!; try done.
    + exists [EvMakedirs (parent target)]. split; [done|]. by repeat constructor.
    + intros Hf Hfree. rewrite (makedirs_ok _ _ _ Hf Hfree) in Hrun. done.
Qed.

Lemma sync_file_fetches args ooni faults entry w :
  _make_local_path (output_dir args) entry ∉ dom (names w) →
  sync_file args ooni faults entry w
  = fetch_file args ooni faults entry (_make_local_path (output_dir args) entry)
      (add_event (EvIsFile (_make_local_path (output_dir args) entry)) w).
Proof.
  intros Hin. unfold sync_file, is_file. unfold_M.
  by rewrite bool_decide_eq_false_2.
Qed.

(** The exception of a task leaves the loop when its result is taken. *)
Lemma imap_unordered_raises args ooni faults i entry rest w e w' :
  sync_file args ooni (faults i) entry w = (Raise e, w') →
  imap_unordered args ooni faults i (entry :: rest) w = (Raise e, w').
Proof. intros Hrun. simpl. unfold mbind at 1, M_bind at 1. by rewrite Hrun. Qed.

Lemma main_raises args ooni faults entries w e w' :
  imap_unordered args ooni faults 0 entries w = (Raise e, w') →
  main args ooni faults entries w = (Raise e, w').
Proof. intros Hrun. unfold main. unfold mbind at 1, M_bind at 1. by rewrite Hrun. Qed.

Lemma imap_unordered_over_limit args ooni faults entries :
  ∀ i w,
    (cost_limit_usd args < cost_usd w)%Qc →
    (∃ entry, entry ∈ entries ∧ _make_local_path (output_dir args) entry ∉ dom (names w)) →
    ∃ e w', imap_unordered args ooni faults i entries w = (Raise e, w') ∧
      names w' = names w ∧ inodes w' = inodes w ∧
      num_measurements w' = num_measurements w ∧
      (∃ evs, trace w' = trace w ++ evs ∧ Forall quiet evs) ∧
      ((∀ j, faults j OpMakedirs = false) →
       (∀ entry, entry ∈ entries → dirs_free w (_make_local_path (output_dir args) entry)) →
       e = CostLimitError (bytes_downloaded w)).
Proof.
  induction entries as [|entry rest IH]; intros i w Hover (x & Hx & Hfresh).
  { by apply elem_of_nil in Hx. }
  destruct (decide (_make_local_path (output_dir args) entry ∈ dom (names w))) as [Hin|Hout].
  - assert (x ∈ rest) as Hrest.
    { apply elem_of_cons in Hx as [->|]; [done|done]. }
    destruct (IH (S i) (add_event (EvLog (Skipped_existing (geturl (url entry))))
                      (add_event (EvIsFile (_make_local_path (output_dir args) entry)) w)))
      as (e & w' & Hrun & Hn & Hi & Hm & (evs & Ht & Hq) & He); [done|by eauto|].
    exists e, w'. split_and!; try done.
    + simpl. unfold mbind at 1, M_bind at 1.
      rewrite (sync_file_skips_existing_eq args ooni (faults i) entry w Hin).
      unfold_M. exact Hrun.
    + eexists (_ :: _ :: evs). simpl in Ht. rewrite Ht, <- !app_assoc. split; [done|].
      by repeat constructor.
    + intros Hf Hfree. apply He; [done|]. intros y Hy. apply Hfree. by right.
  - destruct (fetch_file_over_limit args ooni (faults i) entry
                (_make_local_path (output_dir args) entry)
                (add_event (EvIsFile (_make_local_path (output_dir args) entry)) w))
      as (e & w' & Hrun & Hn & Hi & _ & _ & Hm & (evs & Ht & Hq) & He); [done|].
    exists e, w'. split_and!; try done.
    + apply imap_unordered_raises. by rewrite sync_file_fetches.
    + eexists (_ :: evs). simpl in Ht. rewrite Ht, <- !app_assoc. split; [done|].
      by constructor.
    + intros Hf Hfree. apply He; [done|]. apply Hfree. by left.
Qed.

(** C2. A task that is not skipped reads the cost before it pulls a record
    or opens its temporary file; with the cost strictly above the ceiling it
    raises and has touched no file.  When the directories could be made, the
    exception is [CostLimitError] and the task has done nothing but
    [makedirs] and the read of the cost.  A run that starts above its
    ceiling (a ceiling of 0 and any positive spend) and has an entry to
    fetch ends in an exception, so with a non-zero exit status, with the
    files as they were and without any access to the records. *)
Theorem cost_limit_aborts_run args ooni :
  (∀ faults entry target w,
     (cost_limit_usd args < cost_usd w)%Qc →
     ∃ e w', fetch_file args ooni faults entry target w = (Raise e, w') ∧
       names w' = names w ∧ inodes w' = inodes w ∧
       num_measurements w' = num_measurements w ∧
       (∃ evs, trace w' = trace w ++ evs ∧ Forall quiet evs) ∧
       (faults OpMakedirs = false → dirs_free w target →
        e = CostLimitError (bytes_downloaded w) ∧
        trace w' = trace w ++ [EvMakedirs (parent target); EvReadCost])) ∧
  (∀ faults entries w,
     (cost_limit_usd args < cost_usd w)%Qc →
     (∃ entry, entry ∈ entries ∧
               _make_local_path (output_dir args) entry ∉ dom (names w)) →
     ∃ e w', main args ooni faults entries w = (Raise e, w') ∧
       exit_status (fst (main args ooni faults entries w)) = 1 ∧
       names w' = names w ∧ inodes w' = inodes w ∧
       num_measurements w' = num_measurements w ∧
       (∃ evs, trace w' = trace w ++ evs ∧ Forall quiet evs) ∧
       ((∀ j, faults j OpMakedirs = false) →
        (∀ entry, entry ∈ entries →
           dirs_free w (_make_local_path (output_dir args) entry)) →
        e = CostLimitError (bytes_downloaded w))).
Proof.
  split.
  - intros faults entry target w Hover.
    destruct (fetch_file_over_limit args ooni faults entry target w Hover)
      as (e & w' & Hrun & Hn & Hi & _ & _ & Hm & Ht & He).
    exists e, w'. by split_and!.
  - intros faults entries w Hover Hsome.
    destruct (imap_unordered_over_limit args ooni faults entries 0%nat w Hover Hsome)
      as (e & w' & Hrun & Hn & Hi & Hm & Ht & He).
    apply main_raises in Hrun.
    exists e, w'. rewrite Hrun. by split_and!.
Qed.

(** A ceiling of 0.00 and a spend of one cent, with one entry to fetch. *)
Definition zero_budget : Args :=
  {| output_dir := Path "/" ["data"]; max_string_size := 1000; cost_limit_usd := 0%Qc |}.

Definition spent_world : world := World ∅ ∅ ∅ (Q2Qc (1 # 100)) 1048576 0 [].

Lemma cost_limit_aborts_run_witness :
  (cost_limit_usd zero_budget < cost_usd spent_world)%Qc ∧
  (∃ entry, entry ∈ [sample_entry] ∧
            _make_local_path (output_dir zero_budget) entry ∉ dom (names spent_world)) ∧
  ∃ e w', main zero_budget sample_client (λ _, no_faults) [sample_entry] spent_world
          = (Raise e, w') ∧
          exit_status (fst (main zero_budget sample_client (λ _, no_faults)
                                  [sample_entry] spent_world)) = 1 ∧
          names w' = names spent_world ∧ inodes w' = inodes spent_world.
Proof.
  assert ((cost_limit_usd zero_budget < cost_usd spent_world)%Qc) as Hover by done.
  assert (∃ entry, entry ∈ [sample_entry] ∧
            _make_local_path (output_dir zero_budget) entry ∉ dom (names spent_world))
    as Hsome.
  { exists sample_entry. split; [by left|]. simpl. set_solver. }
  split_and!; [done..|].
  destruct (cost_limit_aborts_run zero_budget sample_client) as [_ Hrun].
  destruct (Hrun (λ _, no_faults) [sample_entry] spent_world Hover Hsome)
    as (e & w' & Hmain & Hexit & Hn & Hi & _).
  exists e, w'. by split_and!.
Defined.

Example zero_budget_run :
  fst (main zero_budget sample_client (λ _, no_faults) [sample_entry] spent_world)
  = Raise (CostLimitError 1048576).
Proof. by vm_compute. Qed.

(** ** The temporary path *)

(** [target.with_name(f'{target.name}.tmp')] for a target that has a
    name. *)
Definition temp_of (target : path) : path :=
  Path (root target) (removelast (parts target) ++ [name target +:+ ".tmp"]).

(** The target ends in the component [b]; the temporary path sits beside
    it. *)
Definition sibling (target temp : path) : Prop :=
  ∃ pre b, parts target = pre ++ [b] ∧ temp = Path (root target) (pre ++ [b +:+ ".tmp"]).

Lemma plain_tmp b : plain b → plain (b +:+ ".tmp").
Proof.
  intros (Hne & Hdot & Hs).
  assert (String.length (b +:+ ".tmp") = (String.length b + 4)%nat) as Hlen
    by by rewrite string_app_length.
  split_and!.
  - intros E. rewrite E in Hlen. simpl in Hlen. lia.
  - intros E. rewrite E in Hlen. simpl in Hlen. lia.
  - by rewrite contains_chr_app, Hs.
Qed.

Lemma make_local_path_parts out entry :
  ∃ p, _make_local_path out entry
       = Path (root p)
              (parts p ++ [canonical_basename (name (PurePosixPath (url_path (url entry))))]).
Proof.
  unfold _make_local_path.
  fold (canonical_basename (name (PurePosixPath (url_path (url entry))))).
  eexists. apply joinpath_plain, canonical_basename_plain, name_no_slash.
Qed.

Lemma make_local_path_temp out entry :
  let target := _make_local_path out entry in
  with_name target (name target +:+ ".tmp") = Some (temp_of target) ∧
  sibling target (temp_of target).
Proof.
  intros target. destruct (make_local_path_parts out entry) as (p & Hp).
  fold target in Hp.
  set (b := canonical_basename (name (PurePosixPath (url_path (url entry))))) in *.
  assert (plain b) as Hb by apply canonical_basename_plain, name_no_slash.
  assert (name target = b) as Hname.
  { rewrite Hp. unfold name. simpl. apply List.last_last. }
  split.
  - unfold with_name, temp_of. rewrite Hname.
    rewrite decide_False by apply Hb.
    by rewrite decide_True by apply PurePosixPath_plain, plain_tmp, Hb.
  - exists (parts p), b. unfold temp_of. rewrite Hname, Hp. simpl.
    by rewrite removelast_last.
Qed.

Section sibling_facts.
Context (target temp : path) (Hsib : sibling target temp).

Lemma sibling_ne : temp ≠ target.
Proof.
  destruct Hsib as (pre & b & Ht & ->). intros E.
  apply (f_equal parts) in E. simpl in E. rewrite Ht in E.
  apply app_inj_1 in E as [_ E]; [|done].
  injection E as E. apply (f_equal String.length) in E.
  rewrite string_app_length in E. simpl in E. lia.
Qed.

Lemma sibling_parent : parent temp = parent target.
Proof.
  destruct Hsib as (pre & b & Ht & ->). unfold parent. simpl.
  by rewrite Ht, !removelast_last.
Qed.

Lemma ancestors_length p q :
  q ∈ ancestors p → (length (parts q) ≤ length (parts p))%nat.
Proof.
  unfold ancestors. intros (k & -> & Hk)%list_elem_of_fmap. simpl.
  rewrite length_take. lia.
Qed.

Lemma sibling_parent_length :
  length (parts temp) = S (length (parts (parent target))) ∧
  length (parts target) = S (length (parts (parent target))).
Proof.
  destruct Hsib as (pre & b & Ht & ->). unfold parent. simpl.
  rewrite Ht, removelast_last, !length_app. simpl. lia.
Qed.

Lemma temp_not_ancestor : temp ∉ ancestors (parent target).
Proof.
  intros Hin%ancestors_length. destruct sibling_parent_length as [Hlen _]. lia.
Qed.

Lemma target_not_ancestor : target ∉ ancestors (parent target).
Proof.
  intros Hin%ancestors_length. destruct sibling_parent_length as [_ Hlen]. lia.
Qed.
End sibling_facts.

Lemma self_in_ancestors p : parts p ≠ [] → p ∈ ancestors p.
Proof.
  intros Hne. unfold ancestors. apply list_elem_of_fmap.
  exists (length (parts p)). split.
  - rewrite take_ge by done. by destruct p.
  - apply elem_of_seq. destruct (parts p); [done|]. simpl. lia.
Qed.

(** ** The write loop *)

(** The text of the records, as the loop hands it to the stream. *)
Definition written (args : Args) (ms : list json) : list chunk :=
  ms ≫= λ m, [Dumped (trim_value m (max_string_size args)); Newline].

(** The first operation of the loop that fails, for [n] records from the
    [k]-th on, in the order the loop performs them. *)
Fixpoint first_fault_from (faults : io_op → bool) (k n : nat) : option io_op :=
  match n with
  | O => if faults (OpNext k) then Some (OpNext k) else None
  | S n =>
      if faults (OpNext k) then Some (OpNext k)
      else if faults (OpDump k) then Some (OpDump k)
      else if faults (OpWrite k) then Some (OpWrite k)
      else first_fault_from faults (S k) n
  end.

(** The first operation of the [with] body that fails: the loop over [n]
    records, then the rename. *)
Definition first_fault (faults : io_op → bool) (n : nat) : option io_op :=
  match first_fault_from faults 0 n with
  | Some op => Some op
  | None => if faults OpReplace then Some OpReplace else None
  end.

(** A body operation is not the close of the stream. *)
Lemma first_fault_from_body faults n :
  ∀ k op, first_fault_from faults k n = Some op →
    faults op = true ∧ op ≠ OpClose ∧ op ≠ OpUnlink ∧ op ≠ OpReplace.
Proof.
  induction n as [|n IH]; intros k op; simpl.
  - destruct (faults (OpNext k)) eqn:H1; [|done]. by intros [= <-].
  - destruct (faults (OpNext k)) eqn:H1; [by intros [= <-]|].
    destruct (faults (OpDump k)) eqn:H2; [by intros [= <-]|].
    destruct (faults (OpWrite k)) eqn:H3; [by intros [= <-]|].
    apply IH.
Qed.

Lemma first_fault_body faults n op :
  first_fault faults n = Some op → faults op = true ∧ op ≠ OpClose ∧ op ≠ OpUnlink.
Proof.
  unfold first_fault.
  destruct (first_fault_from faults 0 n) as [op'|] eqn:Hop.
  - intros [= <-]. destruct (first_fault_from_body faults n 0 op' Hop) as (? & ? & ? & _).
    done.
  - destruct (faults OpReplace) eqn:Hr; [|done]. by intros [= <-].
Qed.

(** What writing to the stream [fh] leaves alone. *)
Definition stream_frame (fh : positive) (w w' : world) : Prop :=
  dirs w' = dirs w ∧ names w' = names w ∧
  (∀ i, i ≠ fh → inodes w' !! i = inodes w !! i) ∧
  sealed <$> inodes w' !! fh = sealed <$> inodes w !! fh.

Definition loop_result (faults : io_op → bool) (k n : nat) : result unit :=
  match first_fault_from faults k n with
  | Some op => Raise (Failure op)
  | None => Ok ()
  end.

Lemma stream_frame_refl fh w : stream_frame fh w w.
Proof. by split_and!. Qed.

Lemma write_measurements_run args ooni faults entry fh :
  ∀ ms k w,
    ∃ w', write_measurements args ooni faults entry fh k ms w
            = (loop_result faults k (length ms), w') ∧
          stream_frame fh w w' ∧
          (first_fault_from faults k (length ms) = None →
           inodes w' !! fh
             = (λ f, File (chunks f ++ written args ms) (sealed f)) <$> inodes w !! fh ∧
           num_measurements w' = num_measurements w + Z.of_nat (length ms)).
Proof.
  induction ms as [|m ms IH]; intros k w.
  - simpl. unfold next_measurement, loop_result. simpl. unfold_M.
    destruct (faults (OpNext k)); unfold_M.
    + eexists. split_and!; [done|by split_and!|done].
    + eexists. split_and!; [done|by split_and!|]. intros _. split; [|simpl; lia].
      simpl. destruct (inodes w !! fh) as [[]|]; simpl; [|done].
      unfold written. simpl. by rewrite app_nil_r.
  - cbn [write_measurements length first_fault_from]. unfold next_measurement, loop_result.
    cbn [first_fault_from]. unfold stream_write. unfold_M.
    destruct (faults (OpNext k)); unfold_M.
    { eexists. split_and!; [done|by split_and!|done]. }
    destruct (faults (OpDump k)); unfold_M.
    { eexists. split_and!; [done|by split_and!|done]. }
    destruct (faults (OpWrite k)); unfold_M.
    { eexists. split_and!; [done| |done]. split_and!; try done.
      - intros i Hi. simpl. by rewrite lookup_alter_ne.
      - simpl. rewrite lookup_alter_eq. by destruct (inodes w !! fh). }
    match goal with
    | |- context [write_measurements _ _ _ _ _ (S k) ms ?w0] =>
        destruct (IH (S k) w0) as (w' & Hrun & (Hd & Hn & Hi & Hs) & Hnone)
    end.
    exists w'. unfold loop_result in Hrun. split_and!; [exact Hrun| |].
    + simpl in *. split_and!; try done.
      * intros i Hne. rewrite (Hi i Hne). by rewrite !lookup_alter_ne.
      * rewrite Hs, !lookup_alter_eq. by destruct (inodes w !! fh).
    + intros Hnf. destruct (Hnone Hnf) as [Hfile Hnum]. simpl in *. split; [|lia].
      rewrite Hfile, !lookup_alter_eq. destruct (inodes w !! fh) as [f|]; [|done].
      simpl. unfold written. simpl. by rewrite <- !app_assoc.
Qed.

(** ** Equations of the control combinators *)

Lemma bind_ok {A B} (m : M A) (f : A → M B) w a w' :
  m w = (Ok a, w') → (m ≫= f) w = f a w'.
Proof. intros H. unfold mbind, M_bind. by rewrite H. Qed.

Lemma bind_raise {A B} (m : M A) (f : A → M B) w e w' :
  m w = (Raise e, w') → (m ≫= f) w = (Raise e, w').
Proof. intros H. unfold mbind, M_bind. by rewrite H. Qed.

Lemma try_ok {A} (body : M A) handler w a w' :
  body w = (Ok a, w') → try_except_reraise body handler w = (Ok a, w').
Proof. intros H. unfold try_except_reraise. by rewrite H. Qed.

Lemma try_reraise {A} (body : M A) handler w e w1 w2 :
  body w = (Raise e, w1) → handler w1 = (Ok (), w2) →
  try_except_reraise body handler w = (Raise e, w2).
Proof. intros H1 H2. unfold try_except_reraise. by rewrite H1, H2. Qed.

Lemma try_handler_raises {A} (body : M A) handler w e w1 e' w2 :
  body w = (Raise e, w1) → handler w1 = (Raise e', w2) →
  try_except_reraise body handler w = (Raise e', w2).
Proof. intros H1 H2. unfold try_except_reraise. by rewrite H1, H2. Qed.

Lemma with_stream_open_raises {H A} (open_ : M H) close (body : H → M A) w e w1 :
  open_ w = (Raise e, w1) → with_stream open_ close body w = (Raise e, w1).
Proof. intros H1. unfold with_stream. by apply bind_raise. Qed.

Lemma with_stream_ok {H A} (open_ : M H) close (body : H → M A) w fh w1 a w2 w3 :
  open_ w = (Ok fh, w1) → body fh w1 = (Ok a, w2) → close fh w2 = (Ok (), w3) →
  with_stream open_ close body w = (Ok a, w3).
Proof.
  intros H1 H2 H3. unfold with_stream. rewrite (bind_ok _ _ _ _ _ H1), H2.
  by rewrite (bind_ok _ _ _ _ _ H3).
Qed.

Lemma with_stream_close_raises {H A} (open_ : M H) close (body : H → M A)
    w fh w1 a w2 e w3 :
  open_ w = (Ok fh, w1) → body fh w1 = (Ok a, w2) → close fh w2 = (Raise e, w3) →
  with_stream open_ close body w = (Raise e, w3).
Proof.
  intros H1 H2 H3. unfold with_stream. rewrite (bind_ok _ _ _ _ _ H1), H2.
  by rewrite (bind_raise _ _ _ _ _ H3).
Qed.

Lemma with_stream_body_raises {H A} (open_ : M H) close (body : H → M A)
    w fh w1 e w2 w3 :
  open_ w = (Ok fh, w1) → body fh w1 = (Raise e, w2) → close fh w2 = (Ok (), w3) →
  with_stream open_ close body w = (Raise e, w3).
Proof.
  intros H1 H2 H3. unfold with_stream. rewrite (bind_ok _ _ _ _ _ H1), H2. by rewrite H3.
Qed.

Lemma with_stream_both_raise {H A} (open_ : M H) close (body : H → M A)
    w fh w1 e w2 e' w3 :
  open_ w = (Ok fh, w1) → body fh w1 = (Raise e, w2) → close fh w2 = (Raise e', w3) →
  with_stream open_ close body w = (Raise e', w3).
Proof.
  intros H1 H2 H3. unfold with_stream. rewrite (bind_ok _ _ _ _ _ H1), H2. by rewrite H3.
Qed.

(** ** The operations on a stream and on names *)

Lemma gzip_open_ok faults p w :
  faults OpOpen = false → p ∉ dirs w →
  (parts (parent p) = [] ∨ parent p ∈ dirs w) →
  ∃ fh w', gzip_open faults p w = (Ok fh, w') ∧
    dirs w' = dirs w ∧ names w' = <[p := fh]> (names w) ∧
    inodes w' = <[fh := File [] false]> (inodes w) ∧
    (names w !! p = None → fh ∉ dom (inodes w)) ∧
    num_measurements w' = num_measurements w.
Proof.
  intros Hopen Hdir Hparent. unfold gzip_open. unfold_M. rewrite Hopen. unfold_M.
  rewrite bool_decide_eq_false_2 by done.
  rewrite bool_decide_eq_false_2 by (intros [? ?]; by destruct Hparent).
  destruct (names w !! p) as [fh|] eqn:Hp; unfold_M.
  - exists fh. eexists. split_and!; try done. simpl. by rewrite insert_id.
  - eexists _, _. split_and!; try done. intros _. apply is_fresh.
Qed.

Lemma gzip_open_fails faults p w :
  faults OpOpen = true →
  gzip_open faults p w = (Raise (Failure OpOpen), add_event (EvOpen p) w).
Proof. intros Hopen. unfold gzip_open. unfold_M. rewrite Hopen. by unfold_M. Qed.

Lemma stream_close_ok faults fh w :
  faults OpClose = false →
  ∃ w', stream_close faults fh w = (Ok (), w') ∧
    dirs w' = dirs w ∧ names w' = names w ∧
    inodes w' = alter (λ f, File (chunks f) true) fh (inodes w) ∧
    num_measurements w' = num_measurements w.
Proof.
  intros Hc. unfold stream_close. unfold_M. rewrite Hc. unfold_M. by eexists.
Qed.

Lemma stream_close_fails faults fh w :
  faults OpClose = true →
  ∃ w', stream_close faults fh w = (Raise (Failure OpClose), w') ∧
    dirs w' = dirs w ∧ names w' = names w ∧ inodes w' = inodes w ∧
    num_measurements w' = num_measurements w.
Proof.
  intros Hc. unfold stream_close. unfold_M. rewrite Hc. unfold_M. by eexists.
Qed.

Lemma unlink_present faults p fh w :
  faults OpUnlink = false → p ∉ dirs w → names w !! p = Some fh →
  ∃ w', unlink faults p w = (Ok (), w') ∧
    dirs w' = dirs w ∧ names w' = delete p (names w) ∧ inodes w' = inodes w ∧
    num_measurements w' = num_measurements w.
Proof.
  intros Hu Hd Hp. unfold unlink. unfold_M. rewrite Hu. unfold_M.
  rewrite bool_decide_eq_false_2 by done. rewrite Hp.
  unfold_M. by eexists.
Qed.

Lemma unlink_absent faults p w :
  faults OpUnlink = false → p ∉ dirs w → names w !! p = None →
  ∃ w', unlink faults p w = (Raise (FileNotFoundError p), w') ∧
    dirs w' = dirs w ∧ names w' = names w ∧ inodes w' = inodes w ∧
    num_measurements w' = num_measurements w.
Proof.
  intros Hu Hd Hp. unfold unlink. unfold_M. rewrite Hu. unfold_M.
  rewrite bool_decide_eq_false_2 by done. rewrite Hp.
  unfold_M. by eexists.
Qed.

Lemma unlink_directory faults p w :
  faults OpUnlink = false → p ∈ dirs w →
  ∃ w', unlink faults p w = (Raise (IsADirectoryError p), w') ∧
    dirs w' = dirs w ∧ names w' = names w ∧ inodes w' = inodes w ∧
    num_measurements w' = num_measurements w.
Proof.
  intros Hu Hd. unfold unlink. unfold_M. rewrite Hu. unfold_M.
  rewrite bool_decide_eq_true_2 by done. by eexists.
Qed.

Lemma unlink_fails faults p w :
  faults OpUnlink = true →
  ∃ w', unlink faults p w = (Raise (Failure OpUnlink), w') ∧
    dirs w' = dirs w ∧ names w' = names w ∧ inodes w' = inodes w ∧
    num_measurements w' = num_measurements w.
Proof.
  intros Hu. unfold unlink. unfold_M. rewrite Hu. unfold_M. by eexists.
Qed.

(** The body of the [with] block: the loop, then the rename. *)
Definition with_body (args : Args) (ooni : OoniClient) (faults : io_op → bool)
    (entry : FileEntry) (temp target : path) (fh : positive) : M unit :=
  write_measurements args ooni faults entry fh 0 (get_measurements ooni entry);;
  replace faults temp target.

Lemma with_body_fails args ooni faults entry temp target fh w op :
  first_fault faults (length (get_measurements ooni entry)) = Some op →
  ∃ w', with_body args ooni faults entry temp target fh w = (Raise (Failure op), w') ∧
    stream_frame fh w w'.
Proof.
  intros Hop. unfold with_body, first_fault in *.
  destruct (write_measurements_run args ooni faults entry fh
              (get_measurements ooni entry) 0 w) as (w1 & Hrun & Hframe & _).
  unfold loop_result in Hrun.
  destruct (first_fault_from faults 0 (length (get_measurements ooni entry))) as [op'|].
  - injection Hop as <-. exists w1. split; [|done]. by apply bind_raise.
  - destruct (faults OpReplace) eqn:Hr; [|done]. injection Hop as <-.
    rewrite (bind_ok _ _ _ _ _ Hrun). unfold replace. unfold_M. rewrite Hr. unfold_M.
    eexists. split; [done|]. exact Hframe.
Qed.

Lemma with_body_ok args ooni faults entry temp target fh w :
  first_fault faults (length (get_measurements ooni entry)) = None →
  names w !! temp = Some fh → target ∉ dirs w →
  ∃ w', with_body args ooni faults entry temp target fh w = (Ok (), w') ∧
    dirs w' = dirs w ∧
    names w' = <[target := fh]> (delete temp (names w)) ∧
    (∀ i, i ≠ fh → inodes w' !! i = inodes w !! i) ∧
    inodes w' !! fh
      = (λ f, File (chunks f ++ written args (get_measurements ooni entry)) (sealed f))
          <$> inodes w !! fh ∧
    num_measurements w'
      = num_measurements w + Z.of_nat (length (get_measurements ooni entry)).
Proof.
  intros Hop Htemp Hdir. unfold with_body, first_fault in *.
  destruct (write_measurements_run args ooni faults entry fh
              (get_measurements ooni entry) 0 w)
    as (w1 & Hrun & (Hd & Hn & Hi & Hs) & Hnone).
  unfold loop_result in Hrun.
  destruct (first_fault_from faults 0 (length (get_measurements ooni entry)))
    as [op'|]; [done|].
  destruct (faults OpReplace) eqn:Hr; [done|].
  destruct (Hnone eq_refl) as [Hfile Hnum].
  rewrite (bind_ok _ _ _ _ _ Hrun). unfold replace. unfold_M. rewrite Hr. unfold_M.
  rewrite Hn, Htemp. rewrite bool_decide_eq_false_2 by (by rewrite Hd).
  unfold_M. eexists. split; [done|]. simpl. by rewrite Hn.
Qed.

(** ** A task that reaches its [try] block *)

Section staged.
Context (args : Args) (ooni : OoniClient) (faults : io_op → bool)
        (entry : FileEntry) (target temp : path) (w : world).
Context (Hsib : sibling target temp)
        (Hwn : with_name target (name target +:+ ".tmp") = Some temp)
        (Hmk : faults OpMakedirs = false)
        (Hfree : dirs_free w target)
        (Hbudget : ¬ (cost_limit_usd args < cost_usd w)%Qc).

(** The world at the [try]: the directories are there, the cost has been
    read. *)
Definition staged_world : world :=
  add_event EvReadCost
    (set_dirs (λ d, d ∪ list_to_set (ancestors (parent target)))
       (add_event (EvMakedirs (parent target)) w)).

Definition try_block : M message :=
  try_except_reraise
    (with_stream (gzip_open faults temp) (stream_close faults)
       (λ target_file,
          write_measurements args ooni faults entry target_file 0
            (get_measurements ooni entry);;
          replace faults temp target))
    (unlink faults temp);;
  mret (Downloaded (geturl (url entry)) (size entry)).

Lemma fetch_file_staged :
  fetch_file args ooni faults entry target w = try_block staged_world.
Proof.
  unfold fetch_file. unfold mbind at 1, M_bind at 1.
  rewrite (makedirs_ok _ _ _ Hmk Hfree).
  unfold mbind at 1, M_bind at 1. unfold log at 1.
  unfold mbind at 1, M_bind at 1. unfold get at 1.
  cbn [cost_usd add_event set_dirs].
  rewrite bool_decide_eq_false_2 by done. by rewrite Hwn.
Qed.

Lemma staged_names : names staged_world = names w.
Proof. done. Qed.

Lemma staged_parent_dir :
  parts (parent temp) = [] ∨ parent temp ∈ dirs staged_world.
Proof.
  rewrite (sibling_parent target temp Hsib).
  destruct (decide (parts (parent target) = [])) as [|Hne]; [by left|right].
  simpl. apply elem_of_union_r, elem_of_list_to_set. by apply self_in_ancestors.
Qed.

Lemma staged_not_dir p :
  p ∉ dirs w → p ∉ ancestors (parent target) → p ∉ dirs staged_world.
Proof.
  intros Hp Ha. simpl. rewrite elem_of_union, elem_of_list_to_set. tauto.
Qed.

(** The stream cannot be opened and there is no temporary file: the
    handler's [unlink] raises, and its exception is the one that leaves
    the task. *)
Lemma fetch_file_open_fails :
  faults OpOpen = true → faults OpUnlink = false →
  temp ∉ dom (names w) → temp ∉ dirs w →
  ∃ w', fetch_file args ooni faults entry target w
          = (Raise (FileNotFoundError temp), w') ∧
        names w' = names w ∧ inodes w' = inodes w.
Proof.
  intros Hopen Hunlink Habsent Hdir. rewrite fetch_file_staged.
  apply not_elem_of_dom in Habsent.
  destruct (unlink_absent faults temp (add_event (EvOpen temp) staged_world) Hunlink)
    as (w5 & Hrun5 & _ & Hn5 & Hi5 & _).
  { apply (staged_not_dir temp Hdir), (temp_not_ancestor target temp Hsib). }
  { done. }
  exists w5. split; [|done].
  unfold try_block. apply bind_raise. eapply try_handler_raises; [|exact Hrun5].
  apply with_stream_open_raises. by apply gzip_open_fails.
Qed.

Lemma try_block_unfold :
  try_block
  = (try_except_reraise
       (with_stream (gzip_open faults temp) (stream_close faults)
          (with_body args ooni faults entry temp target))
       (unlink faults temp) ≫= λ _, mret (Downloaded (geturl (url entry)) (size entry))).
Proof. done. Qed.

Lemma gzip_open_staged :
  faults OpOpen = false → temp ∉ dirs w →
  ∃ fh w2, gzip_open faults temp staged_world = (Ok fh, w2) ∧
    dirs w2 = dirs staged_world ∧ names w2 = <[temp := fh]> (names w) ∧
    inodes w2 = <[fh := File [] false]> (inodes w) ∧
    (names w !! temp = None → fh ∉ dom (inodes w)) ∧
    num_measurements w2 = num_measurements w.
Proof.
  intros Hopen Hdir.
  apply (gzip_open_ok faults temp staged_world Hopen).
  - apply staged_not_dir; [done|]. apply (temp_not_ancestor target temp Hsib).
  - apply staged_parent_dir.
Qed.

(** The body fails while the temporary file is there: the stream is
    closed and the handler removes the file.  The exception that leaves
    the task is the failure of [unlink] if that fails, else the failure of
    the close if that fails, else the failure of the body, raised again;
    the temporary file is gone unless [unlink] failed. *)
Lemma fetch_file_body_fails op :
  faults OpOpen = false → temp ∉ dirs w →
  first_fault faults (length (get_measurements ooni entry)) = Some op →
  ∃ w' fh, fetch_file args ooni faults entry target w
           = (Raise (Failure (if faults OpUnlink then OpUnlink
                              else if faults OpClose then OpClose else op)), w') ∧
        names w' = (if faults OpUnlink then <[temp := fh]> (names w)
                    else delete temp (names w)).
Proof.
  intros Hopen Hdir Hop.
  destruct (gzip_open_staged Hopen Hdir) as (fh & w2 & Hrun2 & Hd2 & Hn2 & Hi2 & _).
  destruct (with_body_fails args ooni faults entry temp target fh w2 op Hop)
    as (w3 & Hrun3 & (Hd3 & Hn3 & _)).
  assert (∃ w4, with_stream (gzip_open faults temp) (stream_close faults)
                  (with_body args ooni faults entry temp target) staged_world
                = (Raise (Failure (if faults OpClose then OpClose else op)), w4) ∧
                dirs w4 = dirs staged_world ∧ names w4 = <[temp := fh]> (names w))
    as (w4 & Hrun4 & Hd4 & Hn4).
  { destruct (faults OpClose) eqn:Hclose.
    - destruct (stream_close_fails faults fh w3 Hclose) as (w4 & Hrun4 & Hd4 & Hn4 & _).
      exists w4. split_and!.
      + eapply with_stream_both_raise; [exact Hrun2|exact Hrun3|exact Hrun4].
      + by rewrite Hd4, Hd3, Hd2.
      + by rewrite Hn4, Hn3, Hn2.
    - destruct (stream_close_ok faults fh w3 Hclose) as (w4 & Hrun4 & Hd4 & Hn4 & _).
      exists w4. split_and!.
      + eapply with_stream_body_raises; [exact Hrun2|exact Hrun3|exact Hrun4].
      + by rewrite Hd4, Hd3, Hd2.
      + by rewrite Hn4, Hn3, Hn2. }
  rewrite fetch_file_staged, try_block_unfold.
  destruct (faults OpUnlink) eqn:Hunlink.
  - destruct (unlink_fails faults temp w4 Hunlink) as (w5 & Hrun5 & _ & Hn5 & _).
    exists w5, fh. split.
    + apply bind_raise. eapply try_handler_raises; [exact Hrun4|exact Hrun5].
    + by rewrite Hn5, Hn4.
  - destruct (unlink_present faults temp fh w4 Hunlink) as (w5 & Hrun5 & _ & Hn5 & _).
    { rewrite Hd4. apply (staged_not_dir temp Hdir), (temp_not_ancestor target temp Hsib). }
    { by rewrite Hn4, lookup_insert_eq. }
    exists w5, fh. split.
    + apply bind_raise. eapply try_reraise; [exact Hrun4|exact Hrun5].
    + by rewrite Hn5, Hn4, delete_insert_eq.
Qed.

(** All of the body succeeds, the rename included, and the close fails:
    the handler finds no temporary file, its [FileNotFoundError] leaves
    the task, and the target names a file that was never sealed. *)
Lemma fetch_file_close_fails :
  faults OpOpen = false → temp ∉ dirs w → target ∉ dirs w →
  first_fault faults (length (get_measurements ooni entry)) = None →
  faults OpClose = true → faults OpUnlink = false →
  ∃ w' fh, fetch_file args ooni faults entry target w
             = (Raise (FileNotFoundError temp), w') ∧
           names w' = <[target := fh]> (delete temp (names w)) ∧
           inodes w' !! fh
             = Some (File (written args (get_measurements ooni entry)) false).
Proof.
  intros Hopen Hdir Htdir Hop Hclose Hunlink.
  destruct (gzip_open_staged Hopen Hdir) as (fh & w2 & Hrun2 & Hd2 & Hn2 & Hi2 & _).
  destruct (with_body_ok args ooni faults entry temp target fh w2 Hop)
    as (w3 & Hrun3 & Hd3 & Hn3 & _ & Hf3 & _).
  { by rewrite Hn2, lookup_insert_eq. }
  { rewrite Hd2. apply staged_not_dir; [done|]. apply (target_not_ancestor target temp Hsib). }
  destruct (stream_close_fails faults fh w3 Hclose) as (w4 & Hrun4 & Hd4 & Hn4 & Hi4 & _).
  assert (names w4 = <[target := fh]> (delete temp (names w))) as Hnames.
  { by rewrite Hn4, Hn3, Hn2, delete_insert_eq. }
  destruct (unlink_absent faults temp w4 Hunlink) as (w5 & Hrun5 & Hd5 & Hn5 & Hi5 & _).
  { rewrite Hd4, Hd3, Hd2.
    apply (staged_not_dir temp Hdir), (temp_not_ancestor target temp Hsib). }
  { rewrite Hnames, lookup_insert_ne by (apply not_eq_sym, (sibling_ne _ _ Hsib)).
    apply lookup_delete_eq. }
  exists w5, fh. split_and!.
  - rewrite fetch_file_staged, try_block_unfold. apply bind_raise.
    eapply try_handler_raises; [|exact Hrun5].
    eapply with_stream_close_raises; [exact Hrun2|exact Hrun3|exact Hrun4].
  - by rewrite Hn5.
  - rewrite Hi5, Hi4, Hf3, Hi2, lookup_insert_eq. done.
Qed.

(** Nothing fails: the target names a sealed file that holds the trimmed
    records, one per line, and the temporary name is gone. *)
Lemma fetch_file_succeeds :
  faults OpOpen = false → temp ∉ dirs w → target ∉ dirs w →
  first_fault faults (length (get_measurements ooni entry)) = None →
  faults OpClose = false →
  ∃ w' fh, fetch_file args ooni faults entry target w
             = (Ok (Downloaded (geturl (url entry)) (size entry)), w') ∧
           names w' = <[target := fh]> (delete temp (names w)) ∧
           inodes w' !! fh
             = Some (File (written args (get_measurements ooni entry)) true) ∧
           (∀ i, i ≠ fh → inodes w' !! i = inodes w !! i) ∧
           num_measurements w'
             = num_measurements w + Z.of_nat (length (get_measurements ooni entry)).
Proof.
  intros Hopen Hdir Htdir Hop Hclose.
  destruct (gzip_open_staged Hopen Hdir)
    as (fh & w2 & Hrun2 & Hd2 & Hn2 & Hi2 & _ & Hm2).
  destruct (with_body_ok args ooni faults entry temp target fh w2 Hop)
    as (w3 & Hrun3 & Hd3 & Hn3 & Ho3 & Hf3 & Hm3).
  { by rewrite Hn2, lookup_insert_eq. }
  { rewrite Hd2. apply staged_not_dir; [done|]. apply (target_not_ancestor target temp Hsib). }
  destruct (stream_close_ok faults fh w3 Hclose) as (w4 & Hrun4 & Hd4 & Hn4 & Hi4 & Hm4).
  exists w4, fh. split_and!.
  - rewrite fetch_file_staged, try_block_unfold.
    erewrite bind_ok; [done|]. apply try_ok.
    eapply with_stream_ok; [exact Hrun2|exact Hrun3|exact Hrun4].
  - by rewrite Hn4, Hn3, Hn2, delete_insert_eq.
  - rewrite Hi4, lookup_alter_eq, Hf3, Hi2, lookup_insert_eq. done.
  - intros i Hne. rewrite Hi4, lookup_alter_ne, (Ho3 i Hne), Hi2 by done.
    by rewrite lookup_insert_ne.
  - rewrite Hm4, Hm3, Hm2. done.
Qed.
End staged.


(** ** Failures while an entry is written: the claims *)

(** C3, amended.  A task whose write fails (the record stream, the
    serialisation, the write of a line or the rename, whichever fails
    first): the stream is closed and the handler unlinks the temporary
    file.  The exception that leaves the task is the failure of the write
    only when the close and the unlink succeed; a close that fails
    replaces it, and an unlink that fails replaces either.  The temporary
    file is gone unless the unlink failed; the target is not created and
    no other name changes.  Nothing catches the exception: the loop that
    takes this task's result raises it, and the process ends with status
    1; nothing is retried. *)
Theorem write_failure_outcome args ooni faults i entry rest w op :
  let target := _make_local_path (output_dir args) entry in
  let temp := temp_of target in
  target ∉ dom (names w) →
  faults i OpMakedirs = false → dirs_free w target →
  ¬ (cost_limit_usd args < cost_usd w)%Qc →
  faults i OpOpen = false → temp ∉ dirs w →
  first_fault (faults i) (length (get_measurements ooni entry)) = Some op →
  let raised := if faults i OpUnlink then OpUnlink
                else if faults i OpClose then OpClose else op in
  ∃ w', sync_file args ooni (faults i) entry w = (Raise (Failure raised), w') ∧
        (raised = op ↔ faults i OpClose = false ∧ faults i OpUnlink = false) ∧
        (temp ∈ dom (names w') ↔ faults i OpUnlink = true) ∧
        (target ∉ dom (names w')) ∧
        (∀ p, p ≠ temp → names w' !! p = names w !! p) ∧
        fst (imap_unordered args ooni faults i (entry :: rest) w)
          = Raise (Failure raised) ∧
        (i = 0%nat →
         exit_status (fst (main args ooni faults (entry :: rest) w)) = 1).
Proof.
  intros target temp Hnew Hmk Hfree Hbudget Hopen Hdir Hop raised.
  destruct (make_local_path_temp (output_dir args) entry) as [Hwn Hsib].
  fold target in Hwn, Hsib. fold temp in Hwn, Hsib.
  destruct (fetch_file_body_fails args ooni (faults i) entry target temp
              (add_event (EvIsFile target) w) Hsib Hwn Hmk Hfree Hbudget op
              Hopen Hdir Hop) as (w' & fh & Hrun & Hnames).
  fold raised in Hrun. simpl in Hnames.
  assert (sync_file args ooni (faults i) entry w = (Raise (Failure raised), w')) as Hsync.
  { unfold target. by rewrite sync_file_fetches. }
  pose proof (imap_unordered_raises args ooni faults i entry rest w _ _ Hsync) as Hloop.
  destruct (first_fault_body _ _ _ Hop) as (_ & Hnc & Hnu).
  exists w'. split_and!; [done| | | | | |].
  - unfold raised. destruct (faults i OpUnlink), (faults i OpClose); split;
      try done; try (by intros [? ?]); by intros <-.
  - rewrite Hnames. destruct (faults i OpUnlink).
    + split; [done|]. intros _. apply elem_of_dom. eexists. apply lookup_insert_eq.
    + split; [|done]. intros Hin. apply elem_of_dom in Hin as [x Hx].
      by rewrite lookup_delete_eq in Hx.
  - rewrite Hnames. apply not_elem_of_dom. destruct (faults i OpUnlink).
    + rewrite lookup_insert_ne by apply (sibling_ne _ _ Hsib). by apply not_elem_of_dom.
    + rewrite lookup_delete_ne by apply (sibling_ne _ _ Hsib). by apply not_elem_of_dom.
  - intros p Hp. rewrite Hnames. destruct (faults i OpUnlink).
    + by rewrite lookup_insert_ne.
    + by rewrite lookup_delete_ne.
  - by rewrite Hloop.
  - intros ->. apply main_raises in Hloop. by rewrite Hloop.
Qed.

(** C10. The handler's [unlink] needs the temporary file.  When
    [gzip.open] fails and nothing was there under the temporary path (no
    file from an earlier run, no directory), and when the stream
    fails to close after the body has renamed the file onto the target,
    [unlink] raises [FileNotFoundError] and that exception, not the
    original one, leaves the task; in the second case the target names the
    file that was never sealed. *)
Theorem unlink_failure_masks_original args ooni faults entry w :
  let target := _make_local_path (output_dir args) entry in
  let temp := temp_of target in
  target ∉ dom (names w) →
  faults OpMakedirs = false → dirs_free w target →
  ¬ (cost_limit_usd args < cost_usd w)%Qc →
  faults OpUnlink = false →
  (faults OpOpen = true → temp ∉ dom (names w) → temp ∉ dirs w →
   ∃ w', sync_file args ooni faults entry w = (Raise (FileNotFoundError temp), w') ∧
         FileNotFoundError temp ≠ Failure OpOpen ∧
         names w' = names w) ∧
  (faults OpOpen = false → temp ∉ dirs w → target ∉ dirs w →
   first_fault faults (length (get_measurements ooni entry)) = None →
   faults OpClose = true →
   ∃ w', sync_file args ooni faults entry w = (Raise (FileNotFoundError temp), w') ∧
         FileNotFoundError temp ≠ Failure OpClose ∧
         (temp ∉ dom (names w')) ∧
         file_at w' target
           = Some (File (written args (get_measurements ooni entry)) false)).
Proof.
  intros target temp Hnew Hmk Hfree Hbudget Hunlink.
  destruct (make_local_path_temp (output_dir args) entry) as [Hwn Hsib].
  fold target in Hwn, Hsib. fold temp in Hwn, Hsib.
  split.
  - intros Hopen Habsent Hdir.
    destruct (fetch_file_open_fails args ooni faults entry target temp
                (add_event (EvIsFile target) w) Hsib Hwn Hmk Hfree Hbudget
                Hopen Hunlink Habsent Hdir) as (w' & Hrun & Hnames & _).
    exists w'. split_and!; [|done|done]. by rewrite sync_file_fetches.
  - intros Hopen Hdir Htdir Hop Hclose.
    destruct (fetch_file_close_fails args ooni faults entry target temp
                (add_event (EvIsFile target) w) Hsib Hwn Hmk Hfree Hbudget
                Hopen Hdir Htdir Hop Hclose Hunlink) as (w' & fh & Hrun & Hnames & Hfile).
    simpl in Hnames.
    exists w'. split_and!; [|done| |].
    + by rewrite sync_file_fetches.
    + rewrite Hnames. apply not_elem_of_dom.
      rewrite lookup_insert_ne by apply not_eq_sym, (sibling_ne _ _ Hsib).
      apply lookup_delete_eq.
    + unfold file_at. rewrite Hnames, lookup_insert_eq. simpl. exact Hfile.
Qed.

(** *** The claims on a run *)

Global Instance io_op_eq_dec : EqDecision io_op.
Proof. solve_decision. Defined.

(** The environment that fails one operation. *)
Definition fails_at (bad : io_op) : io_op → bool :=
  λ op, bool_decide (op = bad).

(** The environment that fails two operations. *)
Definition fails_at_both (bad1 bad2 : io_op) : io_op → bool :=
  λ op, bool_decide (op = bad1) || bool_decide (op = bad2).

Definition existing_world : world :=
  World ∅ {[sample_target := 1%positive]} {[1%positive := File [] true]} 0%Qc 0 0 [].

Lemma sync_file_skips_existing_witness :
  _make_local_path (output_dir sample_args) sample_entry ∈ dom (names existing_world) ∧
  sync_file sample_args sample_client no_faults sample_entry existing_world
  = (Ok (Skipped_existing (geturl (url sample_entry))),
     add_event (EvIsFile sample_target) existing_world).
Proof.
  assert (_make_local_path (output_dir sample_args) sample_entry
          ∈ dom (names existing_world)) as Hin.
  { apply elem_of_dom. eexists. apply lookup_singleton_eq. }
  split; [done|].
  apply (sync_file_skips_existing sample_args sample_client (λ _, no_faults) 0
           sample_entry [] existing_world Hin).
Defined.

Lemma empty_world_fresh p : p ∉ dom (names empty_world).
Proof. apply not_elem_of_dom, lookup_empty. Qed.

Lemma empty_world_free target : dirs_free empty_world target.
Proof. apply Forall_forall. intros q _. apply empty_world_fresh. Qed.

Lemma empty_world_no_dir p : p ∉ dirs empty_world.
Proof. apply not_elem_of_empty. Qed.

Lemma sample_within_budget :
  ¬ (cost_limit_usd sample_args < cost_usd empty_world)%Qc.
Proof. by intros H; vm_compute in H. Qed.

Lemma write_failure_outcome_witness :
  first_fault (fails_at (OpDump 1)) (length (get_measurements sample_client sample_entry))
    = Some (OpDump 1) ∧
  ∃ w', sync_file sample_args sample_client (fails_at (OpDump 1)) sample_entry empty_world
          = (Raise (Failure (OpDump 1)), w') ∧
        (temp_of sample_target ∉ dom (names w')) ∧ (sample_target ∉ dom (names w')).
Proof.
  assert (first_fault (fails_at (OpDump 1))
            (length (get_measurements sample_client sample_entry)) = Some (OpDump 1))
    as Hop by (by vm_compute).
  split; [done|].
  destruct (write_failure_outcome sample_args sample_client
              (λ _, fails_at (OpDump 1)) 0 sample_entry [] empty_world (OpDump 1))
    as (w' & Hrun & _ & Htemp & Htarget & _).
  - apply empty_world_fresh.
  - done.
  - apply empty_world_free.
  - apply sample_within_budget.
  - done.
  - apply empty_world_no_dir.
  - exact Hop.
  - exists w'. split_and!; [exact Hrun| |exact Htarget].
    intros Hin. by apply Htemp in Hin.
Defined.

(** C3, as stated, fails: the disk is full, the write of the first line
    fails and so does the close of the stream; the failure of the close,
    not the one of the write, leaves the task. *)
Lemma write_failure_replaced_by_close_failure :
  let faults := fails_at_both (OpWrite 0) OpClose in
  first_fault faults (length (get_measurements sample_client sample_entry))
    = Some (OpWrite 0) ∧
  fst (sync_file sample_args sample_client faults sample_entry empty_world)
    = Raise (Failure OpClose) ∧
  Failure OpClose ≠ Failure (OpWrite 0).
Proof. by vm_compute. Qed.

Lemma unlink_failure_masks_original_witness :
  (∃ w', sync_file sample_args sample_client (fails_at OpOpen) sample_entry empty_world
         = (Raise (FileNotFoundError (temp_of sample_target)), w')) ∧
  (∃ w', sync_file sample_args sample_client (fails_at OpClose) sample_entry empty_world
         = (Raise (FileNotFoundError (temp_of sample_target)), w') ∧
         file_at w' sample_target
           = Some (File (written sample_args (get_measurements sample_client sample_entry))
                        false)).
Proof.
  split.
  - destruct (unlink_failure_masks_original sample_args sample_client (fails_at OpOpen)
                sample_entry empty_world) as [Ha _].
    + apply empty_world_fresh.
    + done.
    + apply empty_world_free.
    + apply sample_within_budget.
    + done.
    + destruct Ha as (w' & Hrun & _);
        [done|apply empty_world_fresh|apply empty_world_no_dir|]. by exists w'.
  - destruct (unlink_failure_masks_original sample_args sample_client (fails_at OpClose)
                sample_entry empty_world) as [_ Hb].
    + apply empty_world_fresh.
    + done.
    + apply empty_world_free.
    + apply sample_within_budget.
    + done.
    + destruct Hb as (w' & Hrun & _ & _ & Hfile);
        [done|apply empty_world_no_dir|apply empty_world_no_dir|by vm_compute|done|].
      exists w'. by split.
Defined.

(** C1 (the code departs from it).  The stream fails to close, say on a
    full disk, after the body has renamed the temporary file onto the
    target: the task ends with the target naming a file that holds the
    records handed to the stream but was never flushed and sealed, a
    truncated gzip file; the handler finds nothing to remove. *)
Theorem close_failure_leaves_partial_target :
  let '(r, w') := sync_file sample_args sample_client (fails_at OpClose)
                    sample_entry empty_world in
  r = Raise (FileNotFoundError (temp_of sample_target)) ∧
  file_at w' sample_target
    = Some (File [Dumped (JDict [("b", JStr "ok")]); Newline;
                  Dumped (JList [JInt 1]); Newline] false) ∧
  file_at w' (temp_of sample_target) = None.
Proof. by vm_compute. Qed.

(** * The shared counter under two workers

    [num_measurements += 1] on the closed-over variable is a read of the
    variable followed by the write of the value read plus one; the
    interpreter may switch to the other worker thread in between, and the
    code takes no lock.  A worker is the number of increments it still has
    to make (one per record of its entry) and the value it has read for
    the increment in progress, if any. *)

Record worker : Type := Worker { pending : nat; loaded : option Z }.

Record counter_state : Type := CounterState {
  shared : Z;          (* num_measurements *)
  first_worker : worker;
  second_worker : worker
}.

(** The next action of a worker: the read, or the write that completes
    the increment; a worker with nothing left does nothing. *)
Definition act (me : worker) (value : Z) : worker * Z :=
  match loaded me, pending me with
  | Some v, _ => (Worker (Nat.pred (pending me)) None, v + 1)
  | None, S _ => (Worker (pending me) (Some value), value)
  | None, O => (me, value)
  end.

(** One scheduling step: [false] runs the first worker, [true] the
    second. *)
Definition step (st : counter_state) (who : bool) : counter_state :=
  if who
  then let '(me, v) := act (second_worker st) (shared st) in
       CounterState v (first_worker st) me
  else let '(me, v) := act (first_worker st) (shared st) in
       CounterState v me (second_worker st).

Definition run_schedule (schedule : list bool) (st : counter_state) : counter_state :=
  foldl step st schedule.

(** Both workers about to start, with [n1] and [n2] records to count. *)
Definition start (c : Z) (n1 n2 : nat) : counter_state :=
  CounterState c (Worker n1 None) (Worker n2 None).

Definition finished (st : counter_state) : Prop :=
  first_worker st = Worker 0 None ∧ second_worker st = Worker 0 None.

(** A schedule in which every increment runs without the other worker in
    between: each turn is a read and its write. *)
Definition atomic_schedule (turns : list bool) : list bool :=
  turns ≫= λ who, [who; who].

(** C9, as stated, fails: both workers read 0, both write 1; each has
    counted its record and one update is lost. *)
Lemma lost_update :
  let st := run_schedule [false; true; false; true] (start 0 1 1) in
  finished st ∧ shared st = 1 ∧ shared st ≠ 0 + 1 + 1.
Proof. by vm_compute. Qed.

(** The counter and the values in flight never run ahead of the
    increments that remain. *)
Definition within (bound : Z) (st : counter_state) : Prop :=
  let rest := Z.of_nat (pending (first_worker st)) + Z.of_nat (pending (second_worker st)) in
  shared st + rest ≤ bound ∧
  (∀ v, loaded (first_worker st) = Some v →
        v + rest ≤ bound ∧ (0 < pending (first_worker st))%nat) ∧
  (∀ v, loaded (second_worker st) = Some v →
        v + rest ≤ bound ∧ (0 < pending (second_worker st))%nat).

Lemma step_within bound st who : within bound st → within bound (step st who).
Proof.
  destruct st as [c [p1 l1] [p2 l2]]. unfold within, step, act. simpl.
  intros (Hc & H1 & H2).
  destruct who; simpl.
  - destruct l2 as [v2|]; simpl.
    + destruct (H2 v2 eq_refl) as [Hv Hp]. split_and!.
      * lia.
      * intros v Hv1. destruct (H1 v Hv1). split; lia.
      * done.
    + destruct p2 as [|p2]; simpl; [done|]. split_and!; [done|done|].
      intros v [= <-]. split; lia.
  - destruct l1 as [v1|]; simpl.
    + destruct (H1 v1 eq_refl) as [Hv Hp]. split_and!.
      * lia.
      * done.
      * intros v Hv2. destruct (H2 v Hv2). split; lia.
    + destruct p1 as [|p1]; simpl; [done|]. split_and!; [done| |done].
      intros v [= <-]. split; lia.
Qed.

Lemma run_schedule_within bound schedule :
  ∀ st, within bound st → within bound (run_schedule schedule st).
Proof.
  induction schedule as [|who schedule IH]; intros st Hst; [done|].
  apply IH. by apply step_within.
Qed.

Lemma atomic_turn st who :
  loaded (first_worker st) = None → loaded (second_worker st) = None →
  let st' := step (step st who) who in
  loaded (first_worker st') = None ∧ loaded (second_worker st') = None ∧
  shared st' + Z.of_nat (pending (first_worker st')) + Z.of_nat (pending (second_worker st'))
  = shared st + Z.of_nat (pending (first_worker st)) + Z.of_nat (pending (second_worker st)).
Proof.
  destruct st as [c [p1 l1] [p2 l2]]. simpl. intros -> ->.
  destruct who; unfold step, act; simpl.
  - destruct p2; simpl; split_and!; try done; lia.
  - destruct p1; simpl; split_and!; try done; lia.
Qed.

Lemma run_atomic_schedule turns :
  ∀ st, loaded (first_worker st) = None → loaded (second_worker st) = None →
    let st' := run_schedule (atomic_schedule turns) st in
    loaded (first_worker st') = None ∧ loaded (second_worker st') = None ∧
    shared st' + Z.of_nat (pending (first_worker st'))
               + Z.of_nat (pending (second_worker st'))
    = shared st + Z.of_nat (pending (first_worker st))
                + Z.of_nat (pending (second_worker st)).
Proof.
  induction turns as [|who turns IH]; intros st H1 H2; [done|].
  destruct (atomic_turn st who H1 H2) as (H1' & H2' & Hsum).
  destruct (IH (step (step st who) who) H1' H2') as (H1'' & H2'' & Hsum').
  change (run_schedule (atomic_schedule (who :: turns)) st)
    with (run_schedule (atomic_schedule turns) (step (step st who) who)).
  split_and!; [done..|]. lia.
Qed.

(** C9, amended.  Under any interleaving the counter ends at most at the
    initial value plus both contributions; when no increment is
    interleaved with the other worker, it is the initial value plus the
    increments made so far, hence the sum of both contributions once both
    workers have finished. *)
Theorem counter_exact_when_not_interleaved :
  (∀ schedule c n1 n2,
     shared (run_schedule schedule (start c n1 n2)) ≤ c + Z.of_nat n1 + Z.of_nat n2) ∧
  (∀ turns c n1 n2,
     let st := run_schedule (atomic_schedule turns) (start c n1 n2) in
     shared st = c + (Z.of_nat n1 - Z.of_nat (pending (first_worker st)))
                   + (Z.of_nat n2 - Z.of_nat (pending (second_worker st))) ∧
     (finished st → shared st = c + Z.of_nat n1 + Z.of_nat n2)).
Proof.
  split.
  - intros schedule c n1 n2.
    assert (within (c + Z.of_nat n1 + Z.of_nat n2) (start c n1 n2)) as Hstart.
    { unfold within. simpl. split_and!; [lia|done|done]. }
    destruct (run_schedule_within _ schedule _ Hstart) as (Hc & _). lia.
  - intros turns c n1 n2 st.
    destruct (run_atomic_schedule turns (start c n1 n2) eq_refl eq_refl)
      as (_ & _ & Hsum).
    fold st in Hsum. simpl in Hsum. split; [lia|].
    intros [Hf Hs]. rewrite Hf, Hs in Hsum. simpl in Hsum. lia.
Qed.

Example serial_run :
  let st := run_schedule (atomic_schedule [false; false; true; false; true]) (start 0 3 2) in
  finished st ∧ shared st = 5.
Proof. by vm_compute. Qed.

Lemma counter_exact_when_not_interleaved_witness :
  finished (run_schedule (atomic_schedule [false; true; true]) (start 0 1 2)) ∧
  shared (run_schedule (atomic_schedule [false; true; true]) (start 0 1 2)) = 3.
Proof.
  assert (finished (run_schedule (atomic_schedule [false; true; true]) (start 0 1 2)))
    as Hfin by (by vm_compute).
  split; [done|].
  destruct counter_exact_when_not_interleaved as [_ Hexact].
  destruct (Hexact [false; true; true] 0 1%nat 2%nat) as [_ Hsum].
  exact (Hsum Hfin).
Defined.

(** * Further properties of the trimmer *)

(** A record in which no dict binds a key to an oversized string, at any
    depth. *)
Fixpoint well_trimmed (max : Z) (t : json) : bool :=
  match t with
  | JList items => forallb (well_trimmed max) items
  | JDict items =>
      forallb (λ kv, negb (oversized max kv.2) && well_trimmed max kv.2) items
  | _ => true
  end.

Lemma trim_value_well_trimmed max t : well_trimmed max (trim_value t max) = true.
Proof.
  induction t as [| | | | |l IH|d IH] using json_nested_ind; try done.
  - rewrite trim_value_list. simpl. apply Is_true_true, forallb_True, Forall_fmap.
    eapply Forall_impl; [exact IH|]. intros t Ht. simpl. by apply Is_true_true.
  - rewrite trim_value_dict. simpl. apply Is_true_true, forallb_True, Forall_fmap.
    pose proof (Forall_prune _ (oversized max) d IH) as IH'.
    pose proof (prune_small (oversized max) d) as Hsmall.
    rewrite Forall_forall in IH', Hsmall. apply Forall_forall. intros [k v] Hin.
    pose proof (Hsmall _ Hin) as Hs. pose proof (IH' _ Hin) as Hw. simpl in *.
    rewrite oversized_trim_value, Hs, Hw. done.
Qed.

Lemma well_trimmed_fixed max t : well_trimmed max t = true → trim_value t max = t.
Proof.
  induction t as [| | | | |l IH|d IH] using json_nested_ind; try done.
  - simpl. intros Hl%Is_true_true%forallb_True. f_equal.
    induction l as [|t l IHl]; [done|].
    apply Forall_cons in IH as [IHt IH], Hl as [Ht Hl]. simpl. f_equal.
    + apply IHt. by apply Is_true_true.
    + by apply IHl.
  - intros Hd%Is_true_true%forallb_True. rewrite trim_value_dict. f_equal.
    rewrite prune_id.
    + induction d as [|[k v] d IHd]; [done|].
      apply Forall_cons in IH as [IHt IH], Hd as [Ht Hd]. rewrite fmap_cons. f_equal.
      * unfold trim_item. simpl in *. f_equal. apply IHt.
        apply andb_True in Ht as [_ Ht]. by apply Is_true_true.
      * by apply IHd.
    + eapply Forall_impl; [exact Hd|]. intros [k v] Hkv. simpl in *.
      apply andb_True in Hkv as [Hkv _]. by apply negb_True, Is_true_false in Hkv.
Qed.

(** X1. The records the trimmer leaves unchanged are exactly those in which
    no dict binds a key to an oversized string, and every result of the
    trimmer is such a record. *)
Theorem trim_value_fixed_iff_well_trimmed max t :
  (trim_value t max = t ↔ well_trimmed max t = true) ∧
  well_trimmed max (trim_value t max) = true.
Proof.
  split; [|apply trim_value_well_trimmed]. split.
  - intros <-. apply trim_value_well_trimmed.
  - apply well_trimmed_fixed.
Qed.

Lemma oversized_min m1 m2 t :
  oversized (m1 `min` m2) t = oversized m1 t || oversized m2 t.
Proof.
  destruct t; try done. simpl.
  repeat case_bool_decide; simpl; try done; lia.
Qed.

Lemma keys_to_delete_fmap {A B} (bigA : A → bool) (bigB : B → bool)
    (f : string * A → string * B) (items : list (string * A)) :
  (∀ kv, (f kv).1 = kv.1 ∧ bigB (f kv).2 = bigA kv.2) →
  keys_to_delete bigB (f <$> items) = keys_to_delete bigA items.
Proof.
  intros Hf. symmetry.
  apply (keys_to_delete_Forall2 (λ x y, y = f x)).
  - intros x y ->. destruct (Hf x) as [-> ->]. done.
  - induction items; constructor; done.
Qed.

Lemma filter_key_fmap {A B} (keys : list string) (f : string * A → string * B)
    (items : list (string * A)) :
  (∀ kv, (f kv).1 = kv.1) →
  filter (λ kv : string * B, kv.1 ∉ keys) (f <$> items)
  = f <$> filter (λ kv : string * A, kv.1 ∉ keys) items.
Proof.
  intros Hf. induction items as [|kv items IH]; [done|].
  rewrite fmap_cons, !filter_cons, Hf.
  destruct (decide (kv.1 ∉ keys)); by rewrite ?fmap_cons, IH.
Qed.

(** Pruning at one threshold and then at another is pruning at the
    smaller one. *)
Lemma prune_prune_min m1 m2 (d : list (string * json)) :
  filter (λ kv, kv.1 ∉ keys_to_delete (oversized m2) (prune (oversized m1) d))
    (prune (oversized m1) d)
  = prune (oversized (m1 `min` m2)) d.
Proof.
  rewrite !prune_filter, list_filter_filter. apply filter_ext_elem.
  intros [k v] Hin. simpl. rewrite !elem_of_keys_to_delete. split.
  - intros [H2 H1] (v' & Hin' & Hbig). rewrite oversized_min in Hbig.
    apply orb_true_iff in Hbig as [Hbig|Hbig].
    + apply H1. exists v'. done.
    + apply H2. exists v'. split; [|done].
      apply list_elem_of_filter. split; [|done]. simpl.
      rewrite elem_of_keys_to_delete. done.
  - intros Hmin. split.
    + intros (v' & Hin' & Hbig). apply list_elem_of_filter in Hin' as [_ Hin'].
      apply Hmin. exists v'. split; [done|]. rewrite oversized_min, Hbig. apply orb_true_r.
    + intros (v' & Hin' & Hbig). apply Hmin. exists v'. split; [done|].
      rewrite oversized_min, Hbig. done.
Qed.

(** X2. Trimming at one threshold and then at another is trimming once at
    the smaller of the two. *)
Theorem trim_value_twice_min m1 m2 t :
  trim_value (trim_value t m1) m2 = trim_value t (m1 `min` m2).
Proof.
  induction t as [| | | | |l IH|d IH] using json_nested_ind; try done.
  - rewrite !trim_value_list. f_equal. rewrite <- list_fmap_compose.
    apply Forall_fmap_ext_1. eapply Forall_impl; [exact IH|]. done.
  - rewrite !trim_value_dict. f_equal.
    rewrite (prune_filter _ (trim_item m1 <$> _)).
    rewrite (keys_to_delete_fmap (oversized m2) (oversized m2) (trim_item m1)).
    2:{ intros [k v]. split; [done|]. simpl.
        destruct v; try done. }
    rewrite filter_key_fmap by done.
    rewrite prune_prune_min, <- list_fmap_compose.
    apply Forall_fmap_ext_1.
    pose proof (Forall_prune _ (oversized (m1 `min` m2)) d IH) as IH'.
    eapply Forall_impl; [exact IH'|]. intros [k v] Hv. unfold trim_item. simpl in *.
    by rewrite Hv.
Qed.

(** ** Any call that returns, on any store *)

(** A call that returns gives back its argument and has only pruned. *)
Definition rec_prunes (max : Z) (rec : heap → value → option (heap * value)) : Prop :=
  ∀ h v h' v', rec h v = Some (h', v') → v' = v ∧ trims_to max h h'.

Lemma dict_items_loop_prunes max rec :
  rec_prunes max rec →
  ∀ items h keys h' keys',
    dict_items_loop rec max items h keys = Some (h', keys') →
    trims_to max h h' ∧ keys' = keys ++ keys_to_delete (too_long max) items.
Proof.
  intros Hrec. induction items as [|[k v] items IH]; intros h keys h' keys' Hrun.
  - simpl in Hrun. injection Hrun as <- <-. rewrite app_nil_r.
    split; [apply trims_to_refl|done].
  - simpl in Hrun. destruct (too_long max v) eqn:Hbig.
    + destruct (IH _ _ _ _ Hrun) as [Ht ->].
      rewrite keys_to_delete_cons_big, <- app_assoc by done. done.
    + destruct (rec h v) as [[h1 v1]|] eqn:Hcall; [|done]. simpl in Hrun.
      destruct (Hrec _ _ _ _ Hcall) as [_ Ht1].
      destruct (IH _ _ _ _ Hrun) as [Ht ->].
      rewrite keys_to_delete_cons_small by done.
      split; [by eapply trims_to_trans|done].
Qed.

Lemma list_items_loop_prunes max rec :
  rec_prunes max rec →
  ∀ items h h', list_items_loop rec items h = Some h' → trims_to max h h'.
Proof.
  intros Hrec. induction items as [|v items IH]; intros h h' Hrun.
  - simpl in Hrun. injection Hrun as <-. apply trims_to_refl.
  - simpl in Hrun. destruct (rec h v) as [[h1 v1]|] eqn:Hcall; [|done]. simpl in Hrun.
    destruct (Hrec _ _ _ _ Hcall) as [_ Ht1].
    eapply trims_to_trans; [exact Ht1|]. by apply IH.
Qed.

Lemma delete_keys_prune {A} (big : A → bool) (items : list (string * A)) :
  delete_keys (keys_to_delete big items) (prune big items) = prune big items.
Proof.
  rewrite delete_keys_filter, prune_filter, list_filter_filter.
  apply list_filter_iff. tauto.
Qed.

Lemma trim_measurement_prunes max fuel :
  rec_prunes max (λ h v, trim_measurement fuel h v max).
Proof.
  induction fuel as [|fuel IH]; intros h v h' v' Hrun.
  - destruct v; simpl in Hrun; try done;
      injection Hrun as <- <-; (split; [done|apply trims_to_refl]).
  - destruct v; simpl in Hrun;
      try (injection Hrun as <- <-; (split; [done|apply trims_to_refl])).
    destruct (h !! a) as [[items|vs]|] eqn:Ha; [| |done].
    + destruct (dict_items_loop _ _ _ _ _) as [[h1 keys]|] eqn:Hloop; [|done].
      simpl in Hrun.
      destruct (dict_items_loop_prunes max _ IH _ _ _ _ _ Hloop) as [Ht Hkeys].
      simpl in Hkeys. subst keys.
      assert (∃ items1, h1 !! a = Some (ODict items1) ∧
                (items1 = items ∨ items1 = prune (too_long max) items))
        as (items1 & Ha1 & Hitems1).
      { destruct (Ht a) as [E|(items0 & E & E')].
        - exists items. split; [congruence|by left].
        - exists (prune (too_long max) items). split; [congruence|by right]. }
      rewrite (del_loop_ok a _ h1 items1 Ha1) in Hrun. simpl in Hrun.
      injection Hrun as <- <-. split; [done|].
      intros b. destruct (decide (b = a)) as [->|Hne].
      * right. exists items. split; [done|]. rewrite lookup_insert_eq. do 2 f_equal.
        destruct Hitems1 as [->| ->]; [done|apply delete_keys_prune].
      * rewrite lookup_insert_ne by done. apply Ht.
    + destruct (list_items_loop _ _ _) as [h1|] eqn:Hloop; [|done].
      simpl in Hrun. injection Hrun as <- <-. split; [done|].
      by eapply list_items_loop_prunes.
Qed.

(** X3. Whatever the store holds (shared, cyclic or dangling references
    included), a call that returns gives back the very value it was given;
    it has created and freed no object, changed no list object, and
    changed a dict object at most by dropping from it the items bound to
    too-long strings. *)
Theorem trim_measurement_only_prunes max fuel h v h' v' :
  trim_measurement fuel h v max = Some (h', v') →
  v' = v ∧
  dom h' = dom h ∧
  (∀ a vs, h !! a = Some (OList vs) → h' !! a = Some (OList vs)) ∧
  (∀ a items, h !! a = Some (ODict items) →
     h' !! a = Some (ODict items) ∨
     h' !! a = Some (ODict (prune (too_long max) items))).
Proof.
  intros Hrun. destruct (trim_measurement_prunes max fuel h v h' v' Hrun) as [-> Ht].
  split_and!; [done| | |].
  - apply set_eq. intros a. rewrite !elem_of_dom.
    destruct (Ht a) as [->|(items & -> & ->)]; [done|]. split; eauto.
  - intros a vs Ha. destruct (Ht a) as [E|(items & E & _)]; congruence.
  - intros a items Ha. destruct (Ht a) as [E|(items0 & E & E')]; [left|right]; congruence.
Qed.

Lemma trim_measurement_only_prunes_witness :
  ∃ h', trim_measurement 3 sample_heap (VRef 1) 4 = Some (h', VRef 1) ∧
        dom h' = dom sample_heap ∧
        h' !! 2%positive = Some (OList [VStr "yyyyy"; VRef 3; VInt 7]).
Proof.
  destruct (trim_measurement 3 sample_heap (VRef 1) 4) as [[h' v']|] eqn:Hrun;
    [|by vm_compute in Hrun].
  destruct (trim_measurement_only_prunes 4 3 sample_heap (VRef 1) h' v' Hrun)
    as (-> & Hdom & Hlist & _).
  exists h'. split_and!; [done|done|]. by apply Hlist.
Defined.

(** ** A container that holds itself *)

(** The object at [a] has itself among its values. *)
Definition holds_itself (h : heap) (a : positive) : Prop :=
  (∃ vs, h !! a = Some (OList vs) ∧ VRef a ∈ vs) ∨
  (∃ items k, h !! a = Some (ODict items) ∧ NoDup items.*1 ∧ (k, VRef a) ∈ items).

Lemma holds_itself_trims_to max h h' a :
  trims_to max h h' → holds_itself h a → holds_itself h' a.
Proof.
  intros Ht [(vs & Ha & Hin)|(items & k & Ha & Hnd & Hin)].
  - left. exists vs. split; [|done].
    destruct (Ht a) as [E|(items & E & _)]; congruence.
  - right. destruct (Ht a) as [E|(items0 & E & E')].
    + exists items, k. split_and!; [congruence|done..].
    + assert (items0 = items) as -> by congruence.
      exists (prune (too_long max) items), k. split_and!; [done|by apply NoDup_prune|].
      rewrite prune_NoDup by done. by apply list_elem_of_filter.
Qed.

Lemma list_items_loop_stuck max rec a :
  rec_prunes max rec →
  (∀ h, holds_itself h a → rec h (VRef a) = None) →
  ∀ items h, VRef a ∈ items → holds_itself h a → list_items_loop rec items h = None.
Proof.
  intros Hrec Hstuck. induction items as [|v items IH]; intros h Hin Hself.
  { by apply elem_of_nil in Hin. }
  simpl. apply elem_of_cons in Hin as [<-|Hin].
  - by rewrite Hstuck.
  - destruct (rec h v) as [[h1 v1]|] eqn:Hcall; [|done]. simpl.
    destruct (Hrec _ _ _ _ Hcall) as [_ Ht]. apply IH; [done|].
    by eapply holds_itself_trims_to.
Qed.

Lemma dict_items_loop_stuck max rec a k :
  rec_prunes max rec →
  (∀ h, holds_itself h a → rec h (VRef a) = None) →
  ∀ items h keys, (k, VRef a) ∈ items → holds_itself h a →
    dict_items_loop rec max items h keys = None.
Proof.
  intros Hrec Hstuck. induction items as [|[k0 v] items IH]; intros h keys Hin Hself.
  { by apply elem_of_nil in Hin. }
  simpl. apply elem_of_cons in Hin as [[= <- <-]|Hin].
  - simpl. by rewrite Hstuck.
  - destruct (too_long max v); [by apply IH|].
    destruct (rec h v) as [[h1 v1]|] eqn:Hcall; [|done]. simpl.
    destruct (Hrec _ _ _ _ Hcall) as [_ Ht]. apply IH; [done|].
    by eapply holds_itself_trims_to.
Qed.

(** X4. A list that has itself among its items, or a dict that binds a key
    to itself, is not a record the trimmer returns from: whatever the
    depth of calls allowed, the call does not return (the interpreter's
    recursion limit is what ends it). *)
Theorem trim_measurement_self_reference max h a :
  holds_itself h a → ∀ fuel, trim_measurement fuel h (VRef a) max = None.
Proof.
  intros Hself fuel. revert h Hself.
  induction fuel as [|fuel IH]; intros h Hself; [done|].
  simpl. destruct Hself as [(vs & Ha & Hin)|(items & k & Ha & Hnd & Hin)] eqn:E;
    rewrite Ha.
  - rewrite (list_items_loop_stuck max _ a (trim_measurement_prunes max fuel) IH);
      [done|done|]. by left; eauto.
  - rewrite (dict_items_loop_stuck max _ a k (trim_measurement_prunes max fuel) IH);
      [done|done|]. by right; eauto.
Qed.

Definition cyclic_heap : heap :=
  <[1%positive := ODict [("self", VRef 1); ("n", VInt 0)]]> ∅.

Lemma trim_measurement_self_reference_witness :
  holds_itself cyclic_heap 1 ∧ trim_measurement 1000 cyclic_heap (VRef 1) 4 = None.
Proof.
  assert (holds_itself cyclic_heap 1) as Hself.
  { right. exists [("self", VRef 1%positive); ("n", VInt 0)], "self".
    split_and!; [by vm_compute| |by left].
    refine (bool_decide_unpack _ _); vm_compute; exact I. }
  split; [done|]. by apply trim_measurement_self_reference.
Defined.

(** * Further properties of the local paths *)

Lemma string_drop_app (a b : string) : string_drop (String.length a) (a +:+ b) = b.
Proof. induction a as [|c a IH]; [by destruct b|]. exact IH. Qed.

Lemma endswith_app (a suffix : string) : endswith (a +:+ suffix) suffix = true.
Proof.
  unfold endswith. rewrite string_app_length.
  replace (String.length a + String.length suffix - String.length suffix)%nat
    with (String.length a) by lia.
  rewrite string_drop_app. apply andb_true_iff.
  split; apply bool_decide_eq_true; [lia|done].
Qed.

(** X5. The name of a local file always ends in [.jsonl.gz], and a name
    that is already canonical is a fixed point of the conversion. *)
Theorem canonical_basename_extension segment :
  endswith (canonical_basename segment) ".jsonl.gz" = true ∧
  canonical_basename (canonical_basename segment) = canonical_basename segment.
Proof.
  assert (endswith (canonical_basename segment) ".jsonl.gz" = true) as Hext.
  { unfold canonical_basename. destruct (endswith segment ".jsonl.gz") eqn:He; [done|].
    apply endswith_app. }
  split; [done|]. unfold canonical_basename at 1. by rewrite Hext.
Qed.

(** X6. Names that differ only in their last two suffixes are resolved to
    the same local name: [x.json.lz4] and [x.tar.lz4], in the same
    directory of the archive, are written to one local path. *)
Theorem canonical_basename_collision stem s1 s2 s1' s2' :
  contains_chr "." s1 = false → contains_chr "." s2 = false →
  contains_chr "." s1' = false → contains_chr "." s2' = false →
  endswith (stem +:+ String "." (s1 +:+ String "." s2)) ".jsonl.gz" = false →
  endswith (stem +:+ String "." (s1' +:+ String "." s2')) ".jsonl.gz" = false →
  canonical_basename (stem +:+ String "." (s1 +:+ String "." s2))
  = canonical_basename (stem +:+ String "." (s1' +:+ String "." s2')).
Proof.
  intros H1 H2 H1' H2' He He'. unfold canonical_basename. rewrite He, He'.
  by rewrite !rsplit_two_suffixes.
Qed.

Definition colliding_entry (file : string) : FileEntry :=
  {| url := {| url_path := "/2020/" +:+ file; geturl := "https://example.org/2020/" +:+ file |};
     country := "XX"; test_type := "webconnectivity";
     entry_date := Date 2020 3 1; size := 1 |}.

Lemma canonical_basename_collision_witness :
  canonical_basename "x.json.lz4" = canonical_basename "x.tar.lz4" ∧
  _make_local_path (Path "/" ["data"]) (colliding_entry "x.json.lz4")
  = _make_local_path (Path "/" ["data"]) (colliding_entry "x.tar.lz4").
Proof.
  split; [|by vm_compute].
  apply (canonical_basename_collision "x" "json" "lz4" "tar" "lz4"); by vm_compute.
Defined.

Lemma posix_root_absolute rest : posix_root (String "/" rest) ≠ "".
Proof.
  unfold posix_root.
  destruct rest as [|c1 rest]; [done|].
  destruct (decide (c1 = "/"%char)) as [->|Hc1].
  - destruct rest as [|c2 rest]; [done|].
    destruct (decide (c2 = "/"%char)) as [->|Hc2]; [done|].
    destruct c2 as [[] [] [] [] [] [] [] []]; done.
  - destruct c1 as [[] [] [] [] [] [] [] []]; done.
Qed.

Lemma joinpath_absolute p rest : p // String "/" rest = PurePosixPath (String "/" rest).
Proof.
  unfold joinpath. rewrite decide_False; [done|]. apply posix_root_absolute.
Qed.

(** X7. A country or test type that starts with a slash replaces
    everything to its left when the path is joined: the local path is then
    the same whatever the output directory, so the file lands outside
    it. *)
Theorem make_local_path_absolute_component entry :
  (∃ rest, country entry = String "/" rest) ∨ (∃ rest, test_type entry = String "/" rest) →
  ∀ output_dir1 output_dir2,
    _make_local_path output_dir1 entry = _make_local_path output_dir2 entry.
Proof.
  intros [[rest Hc]|[rest Ht]] out1 out2; unfold _make_local_path.
  - by rewrite Hc, !joinpath_absolute.
  - by rewrite Ht, !joinpath_absolute.
Qed.

Definition escaping_entry : FileEntry :=
  {| url := {| url_path := "/2020/x.json.lz4"; geturl := "https://example.org/2020/x.json.lz4" |};
     country := "/tmp"; test_type := "webconnectivity";
     entry_date := Date 2020 3 1; size := 1 |}.

Lemma make_local_path_absolute_component_witness :
  _make_local_path (Path "/" ["data"; "ooni"]) escaping_entry
  = Path "/" ["tmp"; "webconnectivity"; "2020-03-01"; "x.jsonl.gz"].
Proof.
  rewrite (make_local_path_absolute_component escaping_entry
             ltac:(left; by exists "tmp") (Path "/" ["data"; "ooni"]) (Path "" [])).
  by vm_compute.
Defined.

(** X8. For every entry the temporary path can be computed ([with_name]
    does not raise): it lies in the directory of the target, its name is the
    name of the target followed by [.tmp], and it differs from the
    target. *)
Theorem temp_path_beside_target output_dir entry :
  let target := _make_local_path output_dir entry in
  ∃ temp, with_name target (name target +:+ ".tmp") = Some temp ∧
          parent temp = parent target ∧
          name temp = name target +:+ ".tmp" ∧
          temp ≠ target.
Proof.
  intros target. destruct (make_local_path_temp output_dir entry) as [Hwn Hsib].
  fold target in Hwn, Hsib. exists (temp_of target). split_and!.
  - done.
  - by apply sibling_parent.
  - unfold temp_of, name. simpl. apply List.last_last.
  - by apply sibling_ne.
Qed.

(** * Further properties of the tasks *)

(** ** What every run of a computation keeps, and what it can raise *)

(** [keeps R m]: the world [m] leaves is related to the one it started in,
    whether it returns or raises. *)
Definition keeps {A} (R : world → world → Prop) (m : M A) : Prop :=
  ∀ w, R w (m w).2.

(** [raises_only E m]: an exception raised by [m] satisfies [E]. *)
Definition raises_only {A} (E : exn → Prop) (m : M A) : Prop :=
  ∀ w e, (m w).1 = Raise e → E e.

Section keeps.
Context (R : world → world → Prop) `{!PreOrder R}.

Lemma keeps_ret {A} (a : A) : keeps R (mret a).
Proof. intros w. simpl. reflexivity. Qed.

Lemma keeps_raise {A} e : keeps R (@raise A e).
Proof. intros w. simpl. reflexivity. Qed.

Lemma keeps_get {A} (f : world → A) : keeps R (get f).
Proof. intros w. simpl. reflexivity. Qed.

Lemma keeps_modify f : (∀ w, R w (f w)) → keeps R (modify f).
Proof. intros Hf w. apply Hf. Qed.

Lemma keeps_bind {A B} (m : M A) (f : A → M B) :
  keeps R m → (∀ a, keeps R (f a)) → keeps R (m ≫= f).
Proof.
  intros Hm Hf w. unfold mbind, M_bind. specialize (Hm w).
  destruct (m w) as [[a|e] w1]; simpl in *; [|done].
  etrans; [exact Hm|apply Hf].
Qed.

Lemma keeps_try {A} (body : M A) handler :
  keeps R body → keeps R handler → keeps R (try_except_reraise body handler).
Proof.
  intros Hb Hh w. unfold try_except_reraise. specialize (Hb w).
  destruct (body w) as [[a|e] w1]; simpl in *; [done|].
  specialize (Hh w1). destruct (handler w1) as [[[]|e'] w2]; simpl in *;
    by etrans.
Qed.

Lemma keeps_with_stream {H A} (open_ : M H) close (body : H → M A) :
  keeps R open_ → (∀ fh, keeps R (close fh)) → (∀ fh, keeps R (body fh)) →
  keeps R (with_stream open_ close body).
Proof.
  intros Ho Hc Hb. unfold with_stream. apply keeps_bind; [done|]. intros fh w.
  specialize (Hb fh w). destruct (body fh w) as [[a|e] w1]; simpl in *.
  - etrans; [exact Hb|]. apply (keeps_bind (close fh) (λ _, mret a)); [done|].
    intros _. apply keeps_ret.
  - specialize (Hc fh w1). destruct (close fh w1) as [[[]|e'] w2]; simpl in *;
      by etrans.
Qed.

Lemma keeps_fault faults op : keeps R (fault faults op).
Proof. unfold fault. destruct (faults op); [apply keeps_raise|apply keeps_ret]. Qed.
End keeps.

Section raises_only.
Context (E : exn → Prop).

Lemma raises_only_ret {A} (a : A) : raises_only E (mret a).
Proof. by intros w e. Qed.

Lemma raises_only_get {A} (f : world → A) : raises_only E (get f).
Proof. by intros w e. Qed.

Lemma raises_only_modify f : raises_only E (modify f).
Proof. by intros w e. Qed.

Lemma raises_only_log ev : raises_only E (log ev).
Proof. by intros w e. Qed.

Lemma raises_only_raise {A} e : E e → raises_only E (@raise A e).
Proof. intros He w e' [= <-]. done. Qed.

Lemma raises_only_bind {A B} (m : M A) (f : A → M B) :
  raises_only E m → (∀ a, raises_only E (f a)) → raises_only E (m ≫= f).
Proof.
  intros Hm Hf w e. unfold mbind, M_bind. specialize (Hm w).
  destruct (m w) as [[a|e1] w1]; simpl in *.
  - apply Hf.
  - intros [= <-]. by apply Hm.
Qed.

Lemma raises_only_try {A} (body : M A) handler :
  raises_only E body → raises_only E handler →
  raises_only E (try_except_reraise body handler).
Proof.
  intros Hb Hh w e. unfold try_except_reraise. specialize (Hb w).
  destruct (body w) as [[a|e1] w1]; simpl in *; [done|].
  specialize (Hh w1). destruct (handler w1) as [[[]|e'] w2]; simpl in *.
  - intros [= <-]. by apply Hb.
  - intros [= <-]. by apply Hh.
Qed.

Lemma raises_only_with_stream {H A} (open_ : M H) close (body : H → M A) :
  raises_only E open_ → (∀ fh, raises_only E (close fh)) →
  (∀ fh, raises_only E (body fh)) →
  raises_only E (with_stream open_ close body).
Proof.
  intros Ho Hc Hb. unfold with_stream. apply raises_only_bind; [done|]. intros fh w e.
  specialize (Hb fh w). destruct (body fh w) as [[a|e1] w1]; simpl in *.
  - apply (raises_only_bind (close fh) (λ _, mret a)); [done|].
    intros _. apply raises_only_ret.
  - specialize (Hc fh w1). destruct (close fh w1) as [[[]|e'] w2]; simpl in *.
    + intros [= <-]. by apply Hb.
    + intros [= <-]. by apply Hc.
Qed.

Lemma raises_only_fault faults op :
  (faults op = true → E (Failure op)) → raises_only E (fault faults op).
Proof.
  intros Hop. unfold fault. destruct (faults op);
    [by apply raises_only_raise, Hop|apply raises_only_ret].
Qed.
End raises_only.

(** ** The names a task may touch *)

Definition is_summary (ev : event) : Prop :=
  match ev with
  | EvSummary _ _ _ => True
  | _ => False
  end.

(** From [w] to [w']: only names in [may] are bound, rebound or unbound,
    no directory goes away, and the events added are not the summary of
    [main]. *)
Definition touches (may : path → Prop) (w w' : world) : Prop :=
  (∀ p, ¬ may p → names w' !! p = names w !! p) ∧
  dirs w ⊆ dirs w' ∧
  ∃ evs, trace w' = trace w ++ evs ∧ Forall (λ ev, ¬ is_summary ev) evs.

Global Instance touches_preorder may : PreOrder (touches may).
Proof.
  split.
  - intros w. split_and!; [done|done|]. exists []. by rewrite app_nil_r.
  - intros w1 w2 w3 (Hn12 & Hd12 & evs1 & Ht12 & He1) (Hn23 & Hd23 & evs2 & Ht23 & He2).
    split_and!.
    + intros p Hp. by rewrite Hn23, Hn12.
    + set_solver.
    + exists (evs1 ++ evs2). rewrite Ht23, Ht12, app_assoc. split; [done|].
      by apply Forall_app.
Qed.

Lemma touches_mono (may may' : path → Prop) w w' :
  (∀ p, may p → may' p) → touches may w w' → touches may' w w'.
Proof.
  intros Hsub (Hn & Hd & He). split_and!; [|done..]. intros p Hp. apply Hn. auto.
Qed.

Lemma keeps_mono {A} (may may' : path → Prop) (m : M A) :
  (∀ p, may p → may' p) → keeps (touches may) m → keeps (touches may') m.
Proof. intros Hsub Hm w. eapply touches_mono; [exact Hsub|apply Hm]. Qed.

Section touches.
Context (may : path → Prop).

Lemma tk_ret {A} (a : A) : keeps (touches may) (mret a).
Proof. exact (keeps_ret (touches may) a). Qed.

Lemma tk_raise {A} e : keeps (touches may) (@raise A e).
Proof. exact (keeps_raise (touches may) e). Qed.

Lemma tk_get {A} (f : world → A) : keeps (touches may) (get f).
Proof. exact (keeps_get (touches may) f). Qed.

Lemma tk_modify f : (∀ w, touches may w (f w)) → keeps (touches may) (modify f).
Proof. exact (keeps_modify (touches may) f). Qed.

Lemma tk_bind {A B} (m : M A) (f : A → M B) :
  keeps (touches may) m → (∀ a, keeps (touches may) (f a)) →
  keeps (touches may) (m ≫= f).
Proof. exact (keeps_bind (touches may) m f). Qed.

Lemma tk_try {A} (body : M A) handler :
  keeps (touches may) body → keeps (touches may) handler →
  keeps (touches may) (try_except_reraise body handler).
Proof. exact (keeps_try (touches may) body handler). Qed.

Lemma tk_with_stream {H A} (open_ : M H) close (body : H → M A) :
  keeps (touches may) open_ → (∀ fh, keeps (touches may) (close fh)) →
  (∀ fh, keeps (touches may) (body fh)) →
  keeps (touches may) (with_stream open_ close body).
Proof. exact (keeps_with_stream (touches may) open_ close body). Qed.

Lemma tk_fault faults op : keeps (touches may) (fault faults op).
Proof. exact (keeps_fault (touches may) faults op). Qed.

Lemma touches_event w ev : ¬ is_summary ev → touches may w (add_event ev w).
Proof.
  intros Hev. split_and!; [done|done|]. exists [ev]. split; [done|].
  by constructor.
Qed.

Lemma touches_inodes w f : touches may w (set_inodes f w).
Proof. split_and!; [done|done|]. exists []. by rewrite app_nil_r. Qed.

Lemma touches_names w f :
  (∀ p, ¬ may p → f (names w) !! p = names w !! p) → touches may w (set_names f w).
Proof. intros Hf. split_and!; [done|done|]. exists []. by rewrite app_nil_r. Qed.

Lemma touches_dirs w (more : gset path) : touches may w (set_dirs (λ d, d ∪ more) w).
Proof.
  split_and!; [done|simpl; set_solver|]. exists []. by rewrite app_nil_r.
Qed.

Lemma keeps_log ev : ¬ is_summary ev → keeps (touches may) (log ev).
Proof. intros Hev w. by apply touches_event. Qed.

Lemma keeps_is_file p : keeps (touches may) (is_file p).
Proof.
  unfold is_file. apply tk_bind; [apply keeps_log; by intros []|].
  intros _. by apply tk_get.
Qed.

Lemma keeps_makedirs faults p : keeps (touches may) (makedirs faults p).
Proof.
  unfold makedirs. apply tk_bind; [apply keeps_log; by intros []|]. intros _.
  apply tk_bind; [by apply tk_fault|]. intros _.
  apply tk_bind; [by apply tk_get|]. intros [[k q]|].
  - destruct (ancestors p !! S k); by apply tk_raise.
  - apply tk_modify. intros w. apply touches_dirs.
Qed.

Lemma keeps_gzip_open faults p : may p → keeps (touches may) (gzip_open faults p).
Proof.
  intros Hp. unfold gzip_open. apply tk_bind; [apply keeps_log; by intros []|]. intros _.
  apply tk_bind; [by apply tk_fault|]. intros _.
  apply tk_bind; [by apply tk_get|]. intros w0.
  case_bool_decide; [by apply tk_raise|].
  case_bool_decide; [by apply tk_raise|].
  destruct (names w0 !! p) as [fh|].
  - apply tk_bind; [ |intros _; by apply tk_ret].
    apply tk_modify. intros w. apply touches_inodes.
  - apply tk_bind; [ |intros _].
    { apply tk_modify. intros w. apply touches_names. intros q Hq.
      apply lookup_insert_ne. by intros ->. }
    apply tk_bind; [ |intros _; by apply tk_ret].
    apply tk_modify. intros w. apply touches_inodes.
Qed.

Lemma keeps_stream_write fh c : keeps (touches may) (stream_write fh c).
Proof. apply tk_modify. intros w. apply touches_inodes. Qed.

Lemma keeps_stream_close faults fh : keeps (touches may) (stream_close faults fh).
Proof.
  unfold stream_close. apply tk_bind; [apply keeps_log; by intros []|]. intros _.
  apply tk_bind; [by apply tk_fault|]. intros _.
  apply tk_modify. intros w. apply touches_inodes.
Qed.

Lemma keeps_replace faults src dst :
  may src → may dst → keeps (touches may) (replace faults src dst).
Proof.
  intros Hs Hd. unfold replace. apply tk_bind; [apply keeps_log; by intros []|]. intros _.
  apply tk_bind; [by apply tk_fault|]. intros _.
  apply tk_bind; [by apply tk_get|]. intros w0.
  destruct (names w0 !! src) as [fh|]; [|by apply tk_raise].
  case_bool_decide; [by apply tk_raise|].
  apply tk_modify. intros w. apply touches_names. intros q Hq.
  rewrite lookup_insert_ne by (by intros ->).
  apply lookup_delete_ne. by intros ->.
Qed.

Lemma keeps_unlink faults p : may p → keeps (touches may) (unlink faults p).
Proof.
  intros Hp. unfold unlink. apply tk_bind; [apply keeps_log; by intros []|]. intros _.
  apply tk_bind; [by apply tk_fault|]. intros _.
  apply tk_bind; [by apply tk_get|]. intros w0.
  case_bool_decide; [by apply tk_raise|].
  destruct (names w0 !! p) as [fh|]; [|by apply tk_raise].
  apply tk_modify. intros w. apply touches_names. intros q Hq.
  apply lookup_delete_ne. by intros ->.
Qed.

Lemma keeps_next_measurement faults entry k :
  keeps (touches may) (next_measurement faults entry k).
Proof.
  unfold next_measurement. apply tk_bind; [apply keeps_log; by intros []|]. intros _.
  by apply tk_fault.
Qed.

Lemma keeps_write_measurements args ooni faults entry fh pending :
  ∀ k, keeps (touches may) (write_measurements args ooni faults entry fh k pending).
Proof.
  induction pending as [|m pending IH]; intros k; simpl.
  - apply keeps_next_measurement.
  - apply tk_bind; [apply keeps_next_measurement|]. intros _.
    apply tk_bind; [ |intros _].
    { apply tk_modify. intros w. split_and!; [done|done|].
      exists []. by rewrite app_nil_r. }
    apply tk_bind; [ |intros _].
    { apply tk_modify. intros w. split_and!; [done|done|].
      exists []. by rewrite app_nil_r. }
    apply tk_bind; [apply keeps_log; by intros []|]. intros _.
    apply tk_bind; [by apply tk_fault|]. intros _.
    apply tk_bind; [apply keeps_stream_write|]. intros _.
    apply tk_bind; [apply keeps_log; by intros []|]. intros _.
    apply tk_bind; [by apply tk_fault|]. intros _.
    apply tk_bind; [apply keeps_stream_write|]. intros _.
    apply IH.
Qed.

Lemma keeps_fetch_file args ooni faults entry target :
  may target →
  (∀ temp, with_name target (name target +:+ ".tmp") = Some temp → may temp) →
  keeps (touches may) (fetch_file args ooni faults entry target).
Proof.
  intros Htarget Htemp. unfold fetch_file.
  apply tk_bind; [apply keeps_makedirs|]. intros _.
  apply tk_bind; [apply keeps_log; by intros []|]. intros _.
  apply tk_bind; [by apply tk_get|]. intros cost.
  case_bool_decide.
  { apply tk_bind; [by apply tk_get|]. intros b. by apply tk_raise. }
  destruct (with_name target _) as [temp|] eqn:Hwn; [|by apply tk_raise].
  specialize (Htemp temp eq_refl).
  apply tk_bind; [ |intros _; by apply tk_ret].
  apply tk_try; [ |by apply keeps_unlink].
  apply tk_with_stream; [by apply keeps_gzip_open| |].
  - intros fh. apply keeps_stream_close.
  - intros fh. apply tk_bind; [apply keeps_write_measurements|].
    intros _. by apply keeps_replace.
Qed.
End touches.

(** The two names of an entry: its target and its temporary path. *)
Definition own_names (args : Args) (entry : FileEntry) (p : path) : Prop :=
  p = _make_local_path (output_dir args) entry ∨
  p = temp_of (_make_local_path (output_dir args) entry).

Lemma keeps_sync_file args ooni faults entry :
  keeps (touches (own_names args entry)) (sync_file args ooni faults entry).
Proof.
  unfold sync_file. apply tk_bind; [apply keeps_is_file|]. intros [].
  - by apply tk_ret.
  - apply keeps_fetch_file; [by left|]. intros temp Hwn. right.
    destruct (make_local_path_temp (output_dir args) entry) as [Hwn' _].
    simpl in Hwn'. congruence.
Qed.

Lemma keeps_imap_unordered args ooni faults entries :
  ∀ i, keeps (touches (λ p, ∃ entry, entry ∈ entries ∧ own_names args entry p))
         (imap_unordered args ooni faults i entries).
Proof.
  induction entries as [|entry rest IH]; intros i; simpl.
  - by apply tk_ret.
  - apply tk_bind; [ |intros msg].
    { eapply keeps_mono; [|apply keeps_sync_file]. intros p Hp. exists entry.
      split; [by left|done]. }
    apply tk_bind; [apply keeps_log; by intros []|]. intros _.
    eapply keeps_mono; [|apply IH]. intros p (e & He & Hp). exists e.
    split; [by right|done].
Qed.

(** X9. Whatever the environment does and however the task ends, a task
    binds, rebinds or unbinds no name other than its target and its
    temporary path, and removes no directory; a run touches only the
    names of its entries. *)
Theorem tasks_touch_only_own_names args ooni :
  (∀ faults entry w p,
     let target := _make_local_path (output_dir args) entry in
     let w' := (sync_file args ooni faults entry w).2 in
     (p ≠ target → p ≠ temp_of target → names w' !! p = names w !! p) ∧
     dirs w ⊆ dirs w') ∧
  (∀ faults entries w p,
     let w' := (main args ooni faults entries w).2 in
     ((∀ entry, entry ∈ entries →
         p ≠ _make_local_path (output_dir args) entry ∧
         p ≠ temp_of (_make_local_path (output_dir args) entry)) →
      names w' !! p = names w !! p) ∧
     dirs w ⊆ dirs w').
Proof.
  split.
  - intros faults entry w p target w'.
    destruct (keeps_sync_file args ooni faults entry w) as (Hn & Hd & _).
    split; [|done]. intros H1 H2. apply Hn. by intros [?|?].
  - intros faults entries w p w'.
    destruct (keeps_imap_unordered args ooni faults entries 0 w) as (Hn & Hd & _).
    assert (names w' = names (imap_unordered args ooni faults 0 entries w).2 ∧
            dirs w' = dirs (imap_unordered args ooni faults 0 entries w).2) as [Hn' Hd'].
    { unfold w', main, mbind, M_bind.
      by destruct (imap_unordered args ooni faults 0 entries w) as [[[]|e] w1]. }
    rewrite Hn', Hd'. split; [|done]. intros Hp. apply Hn.
    intros (entry & Hin & [?|?]); by destruct (Hp entry Hin).
Qed.

(** X10. [main] logs its summary exactly when no task raised: after a run
    that completes, the summary is the last event and carries the final
    counters; after a run that a task ended, no summary was logged. *)
Theorem main_logs_summary_only_on_completion args ooni faults entries w :
  ∃ evs, Forall (λ ev, ¬ is_summary ev) evs ∧
    match main args ooni faults entries w with
    | (Ok _, w') =>
        trace w' = trace w ++ evs ++
          [EvSummary (num_measurements w') (bytes_downloaded w') (cost_usd w')]
    | (Raise _, w') => trace w' = trace w ++ evs
    end.
Proof.
  destruct (keeps_imap_unordered args ooni faults entries 0 w) as (_ & _ & evs & Ht & He).
  exists evs. split; [done|]. unfold main, mbind, M_bind.
  destruct (imap_unordered args ooni faults 0 entries w) as [[[]|e] w1]; simpl in *.
  - by rewrite Ht, app_assoc.
  - done.
Qed.

(** ** The exceptions of a task *)

(** What the [try] statement can raise: a failure the environment
    injected, or an error that names the temporary path or the target. *)
Definition write_exn (faults : io_op → bool) (target temp : path) (e : exn) : Prop :=
  match e with
  | Failure op => faults op = true
  | FileNotFoundError p => p = temp
  | IsADirectoryError p => p = temp ∨ p = target
  | _ => False
  end.

Section write_exn.
Context (args : Args) (ooni : OoniClient) (faults : io_op → bool)
        (entry : FileEntry) (target temp : path).
Abbreviation E := (write_exn faults target temp).

Lemma ro_fault op : raises_only E (fault faults op).
Proof. by apply raises_only_fault. Qed.

Lemma ro_gzip_open : raises_only E (gzip_open faults temp).
Proof.
  unfold gzip_open. apply raises_only_bind; [apply raises_only_log|]. intros _.
  apply raises_only_bind; [apply ro_fault|]. intros _.
  apply raises_only_bind; [apply raises_only_get|]. intros w0.
  case_bool_decide; [apply raises_only_raise; by left|].
  case_bool_decide; [by apply raises_only_raise|].
  destruct (names w0 !! temp).
  - apply raises_only_bind; [apply raises_only_modify|]. intros _. apply raises_only_ret.
  - apply raises_only_bind; [apply raises_only_modify|]. intros _.
    apply raises_only_bind; [apply raises_only_modify|]. intros _. apply raises_only_ret.
Qed.

Lemma ro_stream_close fh : raises_only E (stream_close faults fh).
Proof.
  unfold stream_close. apply raises_only_bind; [apply raises_only_log|]. intros _.
  apply raises_only_bind; [apply ro_fault|]. intros _. apply raises_only_modify.
Qed.

Lemma ro_replace : raises_only E (replace faults temp target).
Proof.
  unfold replace. apply raises_only_bind; [apply raises_only_log|]. intros _.
  apply raises_only_bind; [apply ro_fault|]. intros _.
  apply raises_only_bind; [apply raises_only_get|]. intros w0.
  destruct (names w0 !! temp); [|by apply raises_only_raise].
  case_bool_decide; [apply raises_only_raise; by right|apply raises_only_modify].
Qed.

Lemma ro_unlink : raises_only E (unlink faults temp).
Proof.
  unfold unlink. apply raises_only_bind; [apply raises_only_log|]. intros _.
  apply raises_only_bind; [apply ro_fault|]. intros _.
  apply raises_only_bind; [apply raises_only_get|]. intros w0.
  case_bool_decide; [apply raises_only_raise; by left|].
  destruct (names w0 !! temp); [apply raises_only_modify|by apply raises_only_raise].
Qed.

Lemma ro_next_measurement k : raises_only E (next_measurement faults entry k).
Proof.
  unfold next_measurement. apply raises_only_bind; [apply raises_only_log|].
  intros _. apply ro_fault.
Qed.

Lemma ro_write_measurements fh pending :
  ∀ k, raises_only E (write_measurements args ooni faults entry fh k pending).
Proof.
  induction pending as [|m pending IH]; intros k; simpl.
  - apply ro_next_measurement.
  - apply raises_only_bind; [apply ro_next_measurement|]. intros _.
    apply raises_only_bind; [apply raises_only_modify|]. intros _.
    apply raises_only_bind; [apply raises_only_modify|]. intros _.
    apply raises_only_bind; [apply raises_only_log|]. intros _.
    apply raises_only_bind; [apply ro_fault|]. intros _.
    apply raises_only_bind; [apply raises_only_modify|]. intros _.
    apply raises_only_bind; [apply raises_only_log|]. intros _.
    apply raises_only_bind; [apply ro_fault|]. intros _.
    apply raises_only_bind; [apply raises_only_modify|]. intros _.
    apply IH.
Qed.

Lemma ro_try_block : raises_only E (try_block args ooni faults entry target temp).
Proof.
  unfold try_block. apply raises_only_bind; [|intros _; apply raises_only_ret].
  apply raises_only_try; [|apply ro_unlink].
  apply raises_only_with_stream; [apply ro_gzip_open|apply ro_stream_close|].
  intros fh. apply raises_only_bind; [apply ro_write_measurements|].
  intros _. apply ro_replace.
Qed.
End write_exn.

Lemma ancestors_lookup p k q :
  ancestors p !! k = Some q →
  q = Path (root p) (take (S k) (parts p)) ∧ (k < length (parts p))%nat.
Proof.
  unfold ancestors. rewrite list_lookup_fmap.
  destruct (seq 1 (length (parts p)) !! k) as [j|] eqn:Hj; [|done].
  apply lookup_seq in Hj as [-> Hk]. by intros [= <-].
Qed.

Lemma ancestors_lookup_None p k :
  ancestors p !! k = None → (length (parts p) ≤ k)%nat.
Proof.
  intros Hk%lookup_ge_None. unfold ancestors in Hk.
  by rewrite length_fmap, length_seq in Hk.
Qed.

Lemma removelast_take {A} (l : list A) n :
  (n < length l)%nat → removelast (take (S n) l) = take n l.
Proof.
  intros Hn. destruct (lookup_lt_is_Some_2 l n Hn) as [x Hx].
  by rewrite (take_S_r l n x Hx), removelast_last.
Qed.

(** What [makedirs] raises: a failure of the environment; or
    [FileExistsError] for the directory asked for, which is a regular
    file; or [NotADirectoryError] for a directory on the way whose parent
    is a regular file. *)
Lemma makedirs_raises faults p w e :
  (makedirs faults p w).1 = Raise e →
  (e = Failure OpMakedirs ∧ faults OpMakedirs = true) ∨
  (e = FileExistsError p ∧ p ∈ dom (names w)) ∨
  (∃ q, e = NotADirectoryError q ∧ q ∈ ancestors p ∧ parent q ∈ dom (names w)).
Proof.
  unfold makedirs. unfold_M. destruct (faults OpMakedirs) eqn:Hf; unfold_M.
  - intros [= <-]. by left.
  - match goal with
    | |- context [list_find ?P ?l] => destruct (list_find P l) as [[k q]|] eqn:Hfind
    end; unfold_M; [|done].
    apply list_find_Some in Hfind as (Hq & Hin & _).
    apply ancestors_lookup in Hq as [-> Hk].
    destruct (ancestors p !! S k) as [below|] eqn:Hbelow; unfold_M.
    + intros [= <-]. right. right. exists below. split_and!; [done| |].
      * by eapply list_elem_of_lookup_2.
      * apply ancestors_lookup in Hbelow as [-> Hk'].
        unfold parent. simpl. by rewrite removelast_take.
    + intros [= <-]. right. left.
      apply ancestors_lookup_None in Hbelow.
      rewrite take_ge in * by lia. destruct p as [r ps]. by simpl in *.
Qed.

Lemma fetch_file_unfold args ooni faults entry target w :
  fetch_file args ooni faults entry target w
  = match makedirs faults (parent target) w with
    | (Raise e, w1) => (Raise e, w1)
    | (Ok _, w1) =>
        if bool_decide (cost_limit_usd args < cost_usd w1)%Qc
        then (Raise (CostLimitError (bytes_downloaded w1)), add_event EvReadCost w1)
        else match with_name target (name target +:+ ".tmp") with
             | None => (Raise ValueError, add_event EvReadCost w1)
             | Some temp =>
                 try_block args ooni faults entry target temp (add_event EvReadCost w1)
             end
    end.
Proof.
  unfold fetch_file. unfold mbind at 1, M_bind at 1.
  destruct (makedirs faults (parent target) w) as [[[]|e] w1]; [|done].
  unfold mbind at 1, M_bind at 1. unfold log at 1.
  unfold mbind at 1, M_bind at 1. unfold get at 1.
  cbn [cost_usd add_event].
  case_bool_decide; [done|].
  by destruct (with_name target _).
Qed.

(** X11. The exceptions of a task.  A task never raises [ValueError]; a
    [Failure] is one the environment injected; [CostLimitError] is raised
    only with the cost strictly above the ceiling and carries the bytes
    downloaded so far; [FileExistsError] names the directory of the target,
    which is a regular file; [NotADirectoryError] names a directory on the
    way to the target whose parent is a regular file; [FileNotFoundError]
    names the temporary path; [IsADirectoryError] names the temporary path
    or the target. *)
Theorem sync_file_exceptions args ooni faults entry w e :
  let target := _make_local_path (output_dir args) entry in
  (sync_file args ooni faults entry w).1 = Raise e →
  match e with
  | ValueError => False
  | Failure op => faults op = true
  | CostLimitError b =>
      (cost_limit_usd args < cost_usd w)%Qc ∧ b = bytes_downloaded w
  | FileExistsError q => q = parent target ∧ q ∈ dom (names w)
  | NotADirectoryError q =>
      q ∈ ancestors (parent target) ∧ parent q ∈ dom (names w)
  | FileNotFoundError p => p = temp_of target
  | IsADirectoryError p => p = temp_of target ∨ p = target
  end.
Proof.
  intros target.
  destruct (decide (target ∈ dom (names w))) as [Hin|Hout].
  { rewrite (sync_file_skips_existing_eq args ooni faults entry w Hin). done. }
  rewrite (sync_file_fetches args ooni faults entry w Hout). fold target.
  rewrite fetch_file_unfold.
  destruct (makedirs_frame faults (parent target) (add_event (EvIsFile target) w))
    as (r1 & w1 & Hmk & Hn1 & _ & Hc1 & Hb1 & _).
  pose proof (makedirs_raises faults (parent target) (add_event (EvIsFile target) w))
    as Hraise.
  rewrite Hmk in *. destruct r1 as [[]|e1]; simpl.
  - case_bool_decide as Hover.
    + intros [= <-]. simpl in *. by rewrite <- Hc1, <- Hb1.
    + destruct (make_local_path_temp (output_dir args) entry) as [Hwn _].
      fold target in Hwn. rewrite Hwn. intros He.
      pose proof (ro_try_block args ooni faults entry target (temp_of target) _ _ He)
        as Hexn.
      by destruct e.
  - intros [= <-].
    destruct (Hraise e1 eq_refl) as [[-> Hf]|[[-> Hq]|(q & -> & Hq & Hq')]]; done.
Qed.

(** A world in which the directory of the sample target cannot be made: a
    regular file has the name of the country directory. *)
Definition obstructed_world : world :=
  World ∅ {[Path "/" ["data"; "XX"] := 1%positive]} {[1%positive := File [] true]}
        0%Qc 0 0 [].

Lemma sync_file_exceptions_witness :
  (sync_file sample_args sample_client no_faults sample_entry obstructed_world).1
    = Raise (NotADirectoryError (Path "/" ["data"; "XX"; "webconnectivity"])) ∧
  parent (Path "/" ["data"; "XX"; "webconnectivity"]) ∈ dom (names obstructed_world).
Proof.
  assert ((sync_file sample_args sample_client no_faults sample_entry obstructed_world).1
          = Raise (NotADirectoryError (Path "/" ["data"; "XX"; "webconnectivity"])))
    as Hrun by (by vm_compute).
  split; [exact Hrun|].
  exact (proj2 (sync_file_exceptions sample_args sample_client no_faults sample_entry
                  obstructed_world _ Hrun)).
Defined.

(** ** A task that completes *)

Lemma fetch_file_downloads args ooni faults entry target temp w :
  sibling target temp →
  with_name target (name target +:+ ".tmp") = Some temp →
  faults OpMakedirs = false → dirs_free w target →
  ¬ (cost_limit_usd args < cost_usd w)%Qc →
  faults OpOpen = false → temp ∉ dirs w → target ∉ dirs w →
  first_fault faults (length (get_measurements ooni entry)) = None →
  faults OpClose = false →
  ∃ w' fh, fetch_file args ooni faults entry target w
             = (Ok (Downloaded (geturl (url entry)) (size entry)), w') ∧
           names w' = <[target := fh]> (delete temp (names w)) ∧
           inodes w' !! fh
             = Some (File (written args (get_measurements ooni entry)) true) ∧
           (∀ i, i ≠ fh → inodes w' !! i = inodes w !! i) ∧
           (names w !! temp = None → fh ∉ dom (inodes w)) ∧
           dirs w' = dirs w ∪ list_to_set (ancestors (parent target)) ∧
           num_measurements w'
             = num_measurements w + Z.of_nat (length (get_measurements ooni entry)).
Proof.
  intros Hsib Hwn Hmk Hfree Hbudget Hopen Hdir Htdir Hop Hclose.
  destruct (gzip_open_staged faults target temp w Hsib Hopen Hdir)
    as (fh & w2 & Hrun2 & Hd2 & Hn2 & Hi2 & Hfresh & Hm2).
  destruct (with_body_ok args ooni faults entry temp target fh w2 Hop)
    as (w3 & Hrun3 & Hd3 & Hn3 & Ho3 & Hf3 & Hm3).
  { by rewrite Hn2, lookup_insert_eq. }
  { rewrite Hd2. apply staged_not_dir; [done|]. apply (target_not_ancestor target temp Hsib). }
  destruct (stream_close_ok faults fh w3 Hclose) as (w4 & Hrun4 & Hd4 & Hn4 & Hi4 & Hm4).
  exists w4, fh. split_and!.
  - rewrite (fetch_file_staged args ooni faults entry target temp w Hwn Hmk Hfree Hbudget).
    rewrite try_block_unfold.
    erewrite bind_ok; [done|]. apply try_ok.
    eapply with_stream_ok; [exact Hrun2|exact Hrun3|exact Hrun4].
  - by rewrite Hn4, Hn3, Hn2, delete_insert_eq.
  - rewrite Hi4, lookup_alter_eq, Hf3, Hi2, lookup_insert_eq. done.
  - intros i Hne. rewrite Hi4, lookup_alter_ne, (Ho3 i Hne), Hi2 by done.
    by rewrite lookup_insert_ne.
  - done.
  - by rewrite Hd4, Hd3, Hd2.
  - rewrite Hm4, Hm3, Hm2. done.
Qed.

(** X12. A task that meets no failure: it returns the "downloaded" message;
    the target names a sealed file that holds the trimmed records, each
    followed by a newline, in the order they were delivered; the temporary
    name is gone, also when a stale temporary file was there, which is then
    truncated and used; no other name and no other file changes; the
    directories of the target exist; the counter has grown by the number of
    records. *)
Theorem sync_file_downloads args ooni faults entry w :
  let target := _make_local_path (output_dir args) entry in
  let temp := temp_of target in
  let ms := get_measurements ooni entry in
  target ∉ dom (names w) →
  faults OpMakedirs = false → dirs_free w target →
  ¬ (cost_limit_usd args < cost_usd w)%Qc →
  faults OpOpen = false → temp ∉ dirs w → target ∉ dirs w →
  first_fault faults (length ms) = None →
  faults OpClose = false →
  ∃ w' fh, sync_file args ooni faults entry w
             = (Ok (Downloaded (geturl (url entry)) (size entry)), w') ∧
     file_at w' target = Some (File (written args ms) true) ∧
     names w' !! target = Some fh ∧
     (temp ∉ dom (names w')) ∧
     (∀ p, p ≠ target → p ≠ temp → names w' !! p = names w !! p) ∧
     (∀ i, i ≠ fh → inodes w' !! i = inodes w !! i) ∧
     (temp ∉ dom (names w) → fh ∉ dom (inodes w)) ∧
     dirs w' = dirs w ∪ list_to_set (ancestors (parent target)) ∧
     num_measurements w' = num_measurements w + Z.of_nat (length ms).
Proof.
  intros target temp ms Hnew Hmk Hfree Hbudget Hopen Hdir Htdir Hop Hclose.
  destruct (make_local_path_temp (output_dir args) entry) as [Hwn Hsib].
  fold target in Hwn, Hsib. fold temp in Hwn, Hsib.
  destruct (fetch_file_downloads args ooni faults entry target temp
              (add_event (EvIsFile target) w) Hsib Hwn Hmk Hfree Hbudget
              Hopen Hdir Htdir Hop Hclose)
    as (w' & fh & Hrun & Hnames & Hfile & Hothers & Hfresh & Hdirs & Hnum).
  simpl in Hnames, Hothers, Hfresh, Hdirs, Hnum.
  exists w', fh. split_and!.
  - unfold target. by rewrite sync_file_fetches.
  - unfold file_at. rewrite Hnames, lookup_insert_eq. exact Hfile.
  - by rewrite Hnames, lookup_insert_eq.
  - rewrite Hnames. apply not_elem_of_dom.
    rewrite lookup_insert_ne by apply not_eq_sym, (sibling_ne _ _ Hsib).
    apply lookup_delete_eq.
  - intros p Hp1 Hp2. by rewrite Hnames, lookup_insert_ne, lookup_delete_ne.
  - done.
  - intros Habsent. by apply Hfresh, not_elem_of_dom.
  - done.
  - done.
Qed.

Lemma no_faults_first_fault n : first_fault no_faults n = None.
Proof.
  unfold first_fault. assert (∀ k, first_fault_from no_faults k n = None) as ->; [|done].
  induction n as [|n IH]; intros k; [done|]. simpl. apply IH.
Qed.

Lemma sync_file_downloads_witness :
  ∃ w', sync_file sample_args sample_client no_faults sample_entry empty_world
          = (Ok (Downloaded (geturl (url sample_entry)) (size sample_entry)), w') ∧
        file_at w' sample_target
          = Some (File (written sample_args (get_measurements sample_client sample_entry))
                       true) ∧
        num_measurements w' = 2.
Proof.
  destruct (sync_file_downloads sample_args sample_client no_faults sample_entry
              empty_world)
    as (w' & fh & Hrun & Hfile & _ & _ & _ & _ & _ & _ & Hnum).
  - apply empty_world_fresh.
  - done.
  - apply empty_world_free.
  - apply sample_within_budget.
  - done.
  - apply empty_world_no_dir.
  - apply empty_world_no_dir.
  - apply no_faults_first_fault.
  - done.
  - exists w'. by split_and!.
Defined.

(** ** A task that returns leaves its target in place *)

Lemma replace_returns faults src dst w w' :
  replace faults src dst w = (Ok (), w') → dst ∈ dom (names w').
Proof.
  unfold replace. unfold_M. destruct (faults OpReplace); unfold_M; [done|].
  destruct (names w !! src) as [fh|]; unfold_M; [|done].
  case_bool_decide; unfold_M; [done|]. intros [= <-]. simpl.
  apply elem_of_dom. eexists. apply lookup_insert_eq.
Qed.

Lemma stream_close_names faults fh w : names (stream_close faults fh w).2 = names w.
Proof. unfold stream_close. unfold_M. by destruct (faults OpClose). Qed.

Lemma try_block_returns args ooni faults entry target temp w msg w' :
  try_block args ooni faults entry target temp w = (Ok msg, w') →
  msg = Downloaded (geturl (url entry)) (size entry) ∧ target ∈ dom (names w').
Proof.
  rewrite try_block_unfold. unfold mbind at 1, M_bind at 1. unfold try_except_reraise.
  destruct (with_stream (gzip_open faults temp) (stream_close faults)
              (with_body args ooni faults entry temp target) w) as [[[]|e] w1] eqn:Hws.
  2: { by destruct (unlink faults temp w1) as [[[]|e'] w2]. }
  intros [= <- <-]. split; [done|].
  unfold with_stream in Hws. unfold mbind at 1, M_bind at 1 in Hws.
  destruct (gzip_open faults temp w) as [[fh|e] w2]; [|done].
  destruct (with_body args ooni faults entry temp target fh w2) as [[[]|e] w3] eqn:Hbody.
  2: { by destruct (stream_close faults fh w3) as [[[]|e'] w4]. }
  pose proof (stream_close_names faults fh w3) as Hnames.
  unfold mbind, M_bind in Hws.
  destruct (stream_close faults fh w3) as [[[]|e'] w4]; [|done].
  injection Hws as <-. simpl in Hnames. rewrite Hnames.
  unfold with_body in Hbody. unfold mbind at 1, M_bind at 1 in Hbody.
  destruct (write_measurements args ooni faults entry fh 0 (get_measurements ooni entry) w2)
    as [[[]|e] w5]; [|done].
  by eapply replace_returns.
Qed.

Lemma fetch_file_returns args ooni faults entry target w msg w' :
  fetch_file args ooni faults entry target w = (Ok msg, w') →
  msg = Downloaded (geturl (url entry)) (size entry) ∧ target ∈ dom (names w').
Proof.
  rewrite fetch_file_unfold.
  destruct (makedirs faults (parent target) w) as [[[]|e] w1]; [|done].
  case_bool_decide; [done|].
  destruct (with_name target _) as [temp|]; [|done].
  apply try_block_returns.
Qed.

(** X13. Whatever the environment did, a task that returned has left a
    file under the target name, so the same entry is skipped from then on:
    a second task for it performs the [is_file] test and nothing else.  The
    message tells which of the two happened. *)
Theorem sync_file_returned_then_skipped args ooni faults entry w msg w' :
  let target := _make_local_path (output_dir args) entry in
  sync_file args ooni faults entry w = (Ok msg, w') →
  target ∈ dom (names w') ∧
  (msg = (if bool_decide (target ∈ dom (names w))
          then Skipped_existing (geturl (url entry))
          else Downloaded (geturl (url entry)) (size entry))) ∧
  ∀ faults', sync_file args ooni faults' entry w'
             = (Ok (Skipped_existing (geturl (url entry))),
                add_event (EvIsFile target) w').
Proof.
  intros target Hrun.
  assert (target ∈ dom (names w') ∧
          msg = (if bool_decide (target ∈ dom (names w))
                 then Skipped_existing (geturl (url entry))
                 else Downloaded (geturl (url entry)) (size entry))) as [Hin Hmsg].
  { destruct (decide (target ∈ dom (names w))) as [Hin|Hout].
    - rewrite (sync_file_skips_existing_eq args ooni faults entry w Hin) in Hrun.
      injection Hrun as <- <-. by rewrite bool_decide_eq_true_2.
    - rewrite (sync_file_fetches args ooni faults entry w Hout) in Hrun.
      apply fetch_file_returns in Hrun as [-> Hin].
      by rewrite bool_decide_eq_false_2. }
  split_and!; [done|done|]. intros faults'.
  by apply sync_file_skips_existing_eq.
Qed.

Lemma sync_file_returned_then_skipped_witness :
  ∃ w', sync_file sample_args sample_client no_faults sample_entry empty_world
          = (Ok (Downloaded (geturl (url sample_entry)) (size sample_entry)), w') ∧
        sync_file sample_args sample_client (fails_at OpOpen) sample_entry w'
          = (Ok (Skipped_existing (geturl (url sample_entry))),
             add_event (EvIsFile sample_target) w').
Proof.
  destruct (sync_file sample_args sample_client no_faults sample_entry empty_world)
    as [r w'] eqn:Hrun.
  assert (r = Ok (Downloaded (geturl (url sample_entry)) (size sample_entry))) as ->.
  { apply (f_equal fst) in Hrun. simpl in Hrun. rewrite <- Hrun. by vm_compute. }
  exists w'. split; [done|].
  destruct (sync_file_returned_then_skipped sample_args sample_client no_faults
              sample_entry empty_world _ w' Hrun) as (_ & _ & Hskip).
  apply Hskip.
Defined.

(** ** Two failures in one task *)

Lemma fetch_file_body_and_close_fail args ooni faults entry target temp w op :
  sibling target temp →
  with_name target (name target +:+ ".tmp") = Some temp →
  faults OpMakedirs = false → dirs_free w target →
  ¬ (cost_limit_usd args < cost_usd w)%Qc →
  faults OpOpen = false → temp ∉ dirs w →
  first_fault faults (length (get_measurements ooni entry)) = Some op →
  faults OpClose = true → faults OpUnlink = false →
  ∃ w', fetch_file args ooni faults entry target w = (Raise (Failure OpClose), w') ∧
        names w' = delete temp (names w).
Proof.
  intros Hsib Hwn Hmk Hfree Hbudget Hopen Hdir Hop Hclose Hunlink.
  destruct (fetch_file_body_fails args ooni faults entry target temp w Hsib Hwn Hmk
              Hfree Hbudget op Hopen Hdir Hop) as (w' & fh & Hrun & Hnames).
  rewrite Hunlink, Hclose in Hrun. rewrite Hunlink in Hnames. by exists w'.
Qed.

(** X14. When an operation of the [with] body fails and the close of the
    stream fails as well, the failure of the close is the exception of the
    task and the one of the body is not reported; the temporary file is
    removed all the same and the target is not created. *)
Theorem close_failure_replaces_body_failure args ooni faults entry w op :
  let target := _make_local_path (output_dir args) entry in
  let temp := temp_of target in
  target ∉ dom (names w) →
  faults OpMakedirs = false → dirs_free w target →
  ¬ (cost_limit_usd args < cost_usd w)%Qc →
  faults OpOpen = false → temp ∉ dirs w →
  first_fault faults (length (get_measurements ooni entry)) = Some op →
  faults OpClose = true → faults OpUnlink = false →
  ∃ w', sync_file args ooni faults entry w = (Raise (Failure OpClose), w') ∧
        op ≠ OpClose ∧
        (temp ∉ dom (names w')) ∧ (target ∉ dom (names w')) ∧
        (∀ p, p ≠ temp → names w' !! p = names w !! p).
Proof.
  intros target temp Hnew Hmk Hfree Hbudget Hopen Hdir Hop Hclose Hunlink.
  destruct (make_local_path_temp (output_dir args) entry) as [Hwn Hsib].
  fold target in Hwn, Hsib. fold temp in Hwn, Hsib.
  destruct (fetch_file_body_and_close_fail args ooni faults entry target temp
              (add_event (EvIsFile target) w) op Hsib Hwn Hmk Hfree Hbudget
              Hopen Hdir Hop Hclose Hunlink) as (w' & Hrun & Hnames).
  simpl in Hnames. exists w'. split_and!.
  - unfold target. by rewrite sync_file_fetches.
  - by destruct (first_fault_body _ _ _ Hop) as (_ & ? & _).
  - rewrite Hnames. apply not_elem_of_dom, lookup_delete_eq.
  - rewrite Hnames. apply not_elem_of_dom.
    rewrite lookup_delete_ne by apply (sibling_ne _ _ Hsib).
    by apply not_elem_of_dom.
  - intros p Hp. by rewrite Hnames, lookup_delete_ne.
Qed.

Lemma close_failure_replaces_body_failure_witness :
  ∃ w', sync_file sample_args sample_client (fails_at_both (OpWrite 0) OpClose)
          sample_entry empty_world
          = (Raise (Failure OpClose), w') ∧
        (temp_of sample_target ∉ dom (names w')) ∧ (sample_target ∉ dom (names w')).
Proof.
  destruct (close_failure_replaces_body_failure sample_args sample_client
              (fails_at_both (OpWrite 0) OpClose) sample_entry empty_world (OpWrite 0))
    as (w' & Hrun & _ & Htemp & Htarget & _).
  - apply empty_world_fresh.
  - done.
  - apply empty_world_free.
  - apply sample_within_budget.
  - done.
  - apply empty_world_no_dir.
  - by vm_compute.
  - done.
  - done.
  - exists w'. by split_and!.
Defined.

(** ** A directory in the place of the target *)

Lemma with_body_target_is_dir args ooni faults entry temp target fh w :
  first_fault faults (length (get_measurements ooni entry)) = None →
  names w !! temp = Some fh → target ∈ dirs w →
  ∃ w', with_body args ooni faults entry temp target fh w
          = (Raise (IsADirectoryError target), w') ∧
    stream_frame fh w w' ∧
    num_measurements w'
      = num_measurements w + Z.of_nat (length (get_measurements ooni entry)).
Proof.
  intros Hop Htemp Hdir. unfold with_body, first_fault in *.
  destruct (write_measurements_run args ooni faults entry fh
              (get_measurements ooni entry) 0 w)
    as (w1 & Hrun & (Hd & Hn & Hi & Hs) & Hnone).
  unfold loop_result in Hrun.
  destruct (first_fault_from faults 0 (length (get_measurements ooni entry)))
    as [op'|]; [done|].
  destruct (faults OpReplace) eqn:Hr; [done|].
  destruct (Hnone eq_refl) as [Hfile Hnum].
  rewrite (bind_ok _ _ _ _ _ Hrun). unfold replace. unfold_M. rewrite Hr. unfold_M.
  rewrite Hn, Htemp. rewrite bool_decide_eq_true_2 by (by rewrite Hd).
  unfold_M. eexists. split; [done|]. by split_and!.
Qed.

Lemma fetch_file_target_is_dir args ooni faults entry target temp w :
  sibling target temp →
  with_name target (name target +:+ ".tmp") = Some temp →
  faults OpMakedirs = false → dirs_free w target →
  ¬ (cost_limit_usd args < cost_usd w)%Qc →
  faults OpOpen = false → temp ∉ dirs w → target ∈ dirs w →
  first_fault faults (length (get_measurements ooni entry)) = None →
  faults OpClose = false → faults OpUnlink = false →
  ∃ w', fetch_file args ooni faults entry target w
          = (Raise (IsADirectoryError target), w') ∧
        names w' = delete temp (names w) ∧
        num_measurements w'
          = num_measurements w + Z.of_nat (length (get_measurements ooni entry)).
Proof.
  intros Hsib Hwn Hmk Hfree Hbudget Hopen Hdir Htdir Hop Hclose Hunlink.
  destruct (gzip_open_staged faults target temp w Hsib Hopen Hdir)
    as (fh & w2 & Hrun2 & Hd2 & Hn2 & Hi2 & _ & Hm2).
  destruct (with_body_target_is_dir args ooni faults entry temp target fh w2 Hop)
    as (w3 & Hrun3 & (Hd3 & Hn3 & _) & Hm3).
  { by rewrite Hn2, lookup_insert_eq. }
  { rewrite Hd2. simpl. by apply elem_of_union_l. }
  destruct (stream_close_ok faults fh w3 Hclose) as (w4 & Hrun4 & Hd4 & Hn4 & _ & Hm4).
  destruct (unlink_present faults temp fh w4 Hunlink)
    as (w5 & Hrun5 & Hd5 & Hn5 & _ & Hm5).
  { rewrite Hd4, Hd3, Hd2.
    apply (staged_not_dir target w temp Hdir), (temp_not_ancestor target temp Hsib). }
  { by rewrite Hn4, Hn3, Hn2, lookup_insert_eq. }
  exists w5. split_and!.
  - rewrite (fetch_file_staged args ooni faults entry target temp w Hwn Hmk Hfree Hbudget).
    rewrite try_block_unfold. apply bind_raise.
    eapply try_reraise; [|exact Hrun5].
    eapply with_stream_body_raises; [exact Hrun2|exact Hrun3|exact Hrun4].
  - by rewrite Hn5, Hn4, Hn3, Hn2, delete_insert_eq.
  - rewrite Hm5, Hm4, Hm3, Hm2. done.
Qed.

(** X15. A directory under the target name is not an existing file: the
    task is not skipped, pulls and counts every record of the entry, writes
    them to the temporary file, and fails only at the rename, with
    [IsADirectoryError]; the temporary file is removed and no name is left
    behind, so the next run does all of it again. *)
Theorem directory_at_target_fails_after_download args ooni faults entry w :
  let target := _make_local_path (output_dir args) entry in
  let temp := temp_of target in
  target ∉ dom (names w) → target ∈ dirs w →
  faults OpMakedirs = false → dirs_free w target →
  ¬ (cost_limit_usd args < cost_usd w)%Qc →
  faults OpOpen = false → temp ∉ dirs w →
  first_fault faults (length (get_measurements ooni entry)) = None →
  faults OpClose = false → faults OpUnlink = false →
  ∃ w', sync_file args ooni faults entry w = (Raise (IsADirectoryError target), w') ∧
        (temp ∉ dom (names w')) ∧ (target ∉ dom (names w')) ∧
        (∀ p, p ≠ temp → names w' !! p = names w !! p) ∧
        num_measurements w'
          = num_measurements w + Z.of_nat (length (get_measurements ooni entry)).
Proof.
  intros target temp Hnew Htdir Hmk Hfree Hbudget Hopen Hdir Hop Hclose Hunlink.
  destruct (make_local_path_temp (output_dir args) entry) as [Hwn Hsib].
  fold target in Hwn, Hsib. fold temp in Hwn, Hsib.
  destruct (fetch_file_target_is_dir args ooni faults entry target temp
              (add_event (EvIsFile target) w) Hsib Hwn Hmk Hfree Hbudget
              Hopen Hdir Htdir Hop Hclose Hunlink) as (w' & Hrun & Hnames & Hnum).
  simpl in Hnames, Hnum. exists w'. split_and!.
  - unfold target. by rewrite sync_file_fetches.
  - rewrite Hnames. apply not_elem_of_dom, lookup_delete_eq.
  - rewrite Hnames. apply not_elem_of_dom.
    rewrite lookup_delete_ne by apply (sibling_ne _ _ Hsib).
    by apply not_elem_of_dom.
  - intros p Hp. by rewrite Hnames, lookup_delete_ne.
  - done.
Qed.

(** A world in which the target of the sample entry is a directory. *)
Definition blocked_world : world := World {[sample_target]} ∅ ∅ 0%Qc 0 0 [].

Lemma directory_at_target_fails_after_download_witness :
  ∃ w', sync_file sample_args sample_client no_faults sample_entry blocked_world
          = (Raise (IsADirectoryError sample_target), w') ∧
        (sample_target ∉ dom (names w')) ∧
        num_measurements w' = 2.
Proof.
  destruct (directory_at_target_fails_after_download sample_args sample_client no_faults
              sample_entry blocked_world)
    as (w' & Hrun & _ & Htarget & _ & Hnum).
  - apply not_elem_of_dom, lookup_empty.
  - change (sample_target ∈ ({[sample_target]} : gset path)). by apply elem_of_singleton.
  - done.
  - apply Forall_forall. intros q _. apply not_elem_of_dom, lookup_empty.
  - by intros H; vm_compute in H.
  - done.
  - change (temp_of sample_target ∉ ({[sample_target]} : gset path)).
    intros Hin%elem_of_singleton. by vm_compute in Hin.
  - apply no_faults_first_fault.
  - done.
  - done.
  - exists w'. by split_and!.
Defined.

(** ** Directories of a task that stops at the ceiling *)

(** X16. The directories are made before the cost is read: a task that
    stops at the ceiling has already created the directories of its target,
    and they stay. *)
Theorem over_limit_task_makes_directories args ooni faults entry w :
  let target := _make_local_path (output_dir args) entry in
  target ∉ dom (names w) →
  (cost_limit_usd args < cost_usd w)%Qc →
  faults OpMakedirs = false → dirs_free w target →
  ∃ w', sync_file args ooni faults entry w
          = (Raise (CostLimitError (bytes_downloaded w)), w') ∧
        dirs w' = dirs w ∪ list_to_set (ancestors (parent target)) ∧
        (parts (parent target) ≠ [] → parent target ∈ dirs w').
Proof.
  intros target Hnew Hover Hmk Hfree.
  rewrite (sync_file_fetches args ooni faults entry w Hnew). fold target.
  rewrite fetch_file_unfold.
  rewrite (makedirs_ok faults (parent target) (add_event (EvIsFile target) w) Hmk Hfree).
  cbn [cost_usd add_event set_dirs]. rewrite bool_decide_eq_true_2 by done.
  eexists. split_and!; [done|done|]. intros Hne. simpl.
  apply elem_of_union_r, elem_of_list_to_set. by apply self_in_ancestors.
Qed.

Lemma over_limit_task_makes_directories_witness :
  ∃ w', sync_file zero_budget sample_client no_faults sample_entry spent_world
          = (Raise (CostLimitError 1048576), w') ∧
        parent (_make_local_path (output_dir zero_budget) sample_entry) ∈ dirs w'.
Proof.
  destruct (over_limit_task_makes_directories zero_budget sample_client no_faults
              sample_entry spent_world) as (w' & Hrun & _ & Hdir).
  - apply not_elem_of_dom, lookup_empty.
  - done.
  - done.
  - apply Forall_forall. intros q _. apply not_elem_of_dom, lookup_empty.
  - exists w'. split; [done|]. apply Hdir. by vm_compute.
Defined.

(** ** A run over entries that are all on disk *)










(** ** Which entries share a local file *)

(** The dates of [datetime.date]. *)
Definition valid_date (d : date) : Prop :=
  1 ≤ Z.of_nat (year d) ≤ 9999 ∧ 1 ≤ Z.of_nat (month d) ≤ 12 ∧
  1 ≤ Z.of_nat (day d) ≤ 31.

Lemma make_local_path_layout out entry :
  plain (country entry) → plain (test_type entry) →
  _make_local_path out entry
  = Path (root out)
         (parts out ++
          [country entry; test_type entry; strftime_ymd (entry_date entry);
           canonical_basename (name (PurePosixPath (url_path (url entry))))]).
Proof.
  intros Hc Ht. unfold _make_local_path.
  fold (canonical_basename (name (PurePosixPath (url_path (url entry))))).
  rewrite (joinpath_plain _ _ Hc), (joinpath_plain _ _ Ht).
  rewrite (joinpath_plain _ _ (strftime_ymd_plain _)).
  rewrite joinpath_plain by apply canonical_basename_plain, name_no_slash.
  simpl. by rewrite <- !app_assoc.
Qed.

Lemma cons_eq_inv {A} (x y : A) l k : x :: l = y :: k → x = y ∧ l = k.
Proof. by intros [= -> ->]. Qed.

(** X18. Two entries whose country and test type are single path
    components are written to the same local file exactly when they agree
    on the country, the test type, the date and the converted name of the
    URL's final component; nothing else of the URL distinguishes them. *)
Theorem make_local_path_same_file out entry1 entry2 :
  plain (country entry1) → plain (test_type entry1) →
  plain (country entry2) → plain (test_type entry2) →
  valid_date (entry_date entry1) → valid_date (entry_date entry2) →
  _make_local_path out entry1 = _make_local_path out entry2 ↔
  country entry1 = country entry2 ∧ test_type entry1 = test_type entry2 ∧
  entry_date entry1 = entry_date entry2 ∧
  canonical_basename (name (PurePosixPath (url_path (url entry1))))
  = canonical_basename (name (PurePosixPath (url_path (url entry2)))).
Proof.
  intros Hc1 Ht1 Hc2 Ht2 Hd1 Hd2.
  rewrite (make_local_path_layout out entry1 Hc1 Ht1).
  rewrite (make_local_path_layout out entry2 Hc2 Ht2).
  split.
  - intros [= H%app_inv_head].
    apply cons_eq_inv in H as [Hc H]. apply cons_eq_inv in H as [Ht H].
    apply cons_eq_inv in H as [Hd H]. apply cons_eq_inv in H as [Hb _].
    split_and!; try done. by apply strftime_ymd_inj.
  - by intros (-> & -> & -> & ->).
Qed.

Definition sample_entry_tar : FileEntry :=
  {| url := {| url_path := "/other/place/web_connectivity.42.json.lz4";
               geturl := "https://example.org/other/place/web_connectivity.42.json.lz4" |};
     country := "XX"; test_type := "webconnectivity";
     entry_date := Date 2020 3 1; size := 7 |}.

Lemma make_local_path_same_file_witness :
  _make_local_path (Path "/" ["data"]) sample_entry
  = _make_local_path (Path "/" ["data"]) sample_entry_tar.
Proof.
  apply (make_local_path_same_file (Path "/" ["data"]) sample_entry sample_entry_tar);
    done.
Defined.

(** ** More on the shared counter *)

(** Both workers read, then both write: one round of two increments. *)
Definition lockstep (rounds : nat) : list bool :=
  mjoin (replicate rounds [false; true; false; true]).

(** X19. Two workers that count [n] records each, with every pair of
    increments interleaved as read, read, write, write, end at the initial
    value plus [n]: half of the updates are lost, however long the
    entries. *)
Theorem lockstep_loses_half n :
  ∀ c, let st := run_schedule (lockstep n) (start c n n) in
       finished st ∧ shared st = c + Z.of_nat n.
Proof.
  induction n as [|n IH]; intros c.
  - simpl. split; [done|]. unfold start. simpl. lia.
  - change (run_schedule (lockstep (S n)) (start c (S n) (S n)))
      with (run_schedule (lockstep n) (start (c + 1) n n)).
    destruct (IH (c + 1)) as [Hfin Hsum]. simpl. split; [done|]. lia.
Qed.

(** What a single worker keeps true. *)
Definition solo (bound : Z) (st : counter_state) : Prop :=
  second_worker st = Worker 0 None ∧
  shared st + Z.of_nat (pending (first_worker st)) = bound ∧
  (∀ v, loaded (first_worker st) = Some v →
        v = shared st ∧ (0 < pending (first_worker st))%nat).

Lemma step_solo bound st who : solo bound st → solo bound (step st who).
Proof.
  destruct st as [c [p1 l1] [p2 l2]]. unfold solo, step, act. simpl.
  intros ([= -> ->] & Hsum & Hl).
  destruct who; simpl; [done|].
  destruct l1 as [v1|]; simpl.
  - destruct (Hl v1 eq_refl) as [-> Hp]. split_and!; [done|lia|done].
  - destruct p1 as [|p1]; simpl; [done|]. split_and!; [done|done|].
    intros v [= <-]. split; [done|lia].
Qed.

(** X20. With one worker the counter is exact under every schedule: the
    counter and the records still to be counted add up to the initial
    value plus the records of the entry, so the counter is that sum once
    the worker has finished. *)
Theorem counter_exact_for_one_worker schedule c n :
  let st := run_schedule schedule (start c n 0) in
  shared st + Z.of_nat (pending (first_worker st)) = c + Z.of_nat n ∧
  (pending (first_worker st) = 0%nat → shared st = c + Z.of_nat n).
Proof.
  intros st.
  assert (∀ st0, solo (c + Z.of_nat n) st0 →
                 solo (c + Z.of_nat n) (run_schedule schedule st0)) as Hrun.
  { induction schedule as [|who schedule IH]; intros st0 Hst; [done|].
    apply IH. by apply step_solo. }
  destruct (Hrun (start c n 0)) as (_ & Hsum & _).
  { unfold solo, start. simpl. by split_and!. }
  fold st in Hsum. split; [done|]. intros Hp. rewrite Hp in Hsum. simpl in Hsum. lia.
Qed.

Lemma counter_exact_for_one_worker_witness :
  pending (first_worker (run_schedule [false; false; true; false; false] (start 0 2 0)))
    = 0%nat ∧
  shared (run_schedule [false; false; true; false; false] (start 0 2 0)) = 2.
Proof.
  assert (pending (first_worker
            (run_schedule [false; false; true; false; false] (start 0 2 0))) = 0%nat)
    as Hdone by (by vm_compute).
  split; [done|].
  destruct (counter_exact_for_one_worker [false; false; true; false; false] 0 2)
    as [_ Hexact].
  exact (Hexact Hdone).
Defined.

(** A world with one file that belongs to no entry. *)
Definition kept_path : path := Path "/" ["data"; "notes.txt"].

Definition kept_world : world :=
  World ∅ {[kept_path := 1%positive]} {[1%positive := File [] true]} 0%Qc 0 0 [].

Lemma tasks_touch_only_own_names_witness :
  names (sync_file sample_args sample_client (fails_at OpClose) sample_entry kept_world).2
    !! kept_path = Some 1%positive.
Proof.
  destruct (tasks_touch_only_own_names sample_args sample_client) as [Htask _].
  destruct (Htask (fails_at OpClose) sample_entry kept_world kept_path) as [Hnames _].
  rewrite Hnames.
  - apply lookup_singleton_eq.
  - intros E. by vm_compute in E.
  - intros E. by vm_compute in E.
Defined.
